(** * teldrive: byte-range streaming of a file stored as remote parts

    A shallow embedding of [services/file.service.go]: the range slicer
    [rangedParts], the part streamer [streamFilePart] with its remote fetch
    [chunk], the part resolver [getParts] and the HTTP handler
    [GetFileStream]; then the handlers of the file table, [CreateFile],
    [UpdateFile], [MoveFiles], [DeleteFiles] and [ListFiles], with the
    paging helpers [setOrderFilter] and [getOrder].

    Numbers.  Every byte count of the source is an [int64]; the two slicing
    functions send them through [float64] to take a ceiling or a floor.  The
    embedding works on [Z].  It agrees with the source for magnitudes below
    [2^53]: there the conversion to [float64] is exact, the rounded quotient
    of two such numbers has the same ceiling and floor as the exact quotient,
    and no [int64] operation wraps.  Go's [%] is the truncated remainder,
    [Z.rem].

    Slices.  A Go slice is a window on an array: it has a length and a
    capacity, and a slice expression [s[lo:hi]] panics unless
    [0 <= lo <= hi <= cap(s)], so that it may reach behind the length of [s]
    into the rest of the array.  A [Slice] is therefore a pair of lists: the
    elements of the slice, and the elements that the array holds behind
    them. *)

From stdpp Require Import base option list gmap strings pretty.
From Stdlib Require Import ZArith Lia Ascii.

Local Open Scope Z_scope.

(** ** Run-time outcomes *)

(** A Go computation either yields a value or panics. *)
Inductive result (A : Type) : Type :=
  | Ok (a : A)
  | Panic (why : string).
Arguments Ok {A} a.
Arguments Panic {A} why.

#[global] Instance result_ret : MRet result := fun _ a => Ok a.
#[global] Instance result_bind : MBind result := fun _ _ f m =>
  match m with
  | Ok a => f a
  | Panic why => Panic why
  end.

Definition index_out_of_range : string := "index out of range".
Definition slice_out_of_range : string := "slice bounds out of range".
Definition divide_by_zero : string := "integer divide by zero".
Definition bad_type_assertion : string := "interface conversion".

(** ** Bytes and slices *)

Abbreviation bytes := (list Byte.byte).

(** [len(s)] *)
Definition len {A} (s : list A) : Z := Z.of_nat (length s).

(** A slice: its [len(s)] elements, and the [cap(s) - len(s)] elements
    of its array that come after them *)
Record Slice (A : Type) : Type := mkSlice {
  elems : list A;
  room : list A;
}.
Arguments mkSlice {A} elems room.
Arguments elems {A} s.
Arguments room {A} s.

(** [cap(s)] *)
Definition cap {A} (s : Slice A) : Z := len (elems s) + len (room s).

(** The [nil] slice *)
Definition nil_slice {A} : Slice A := mkSlice [] [].

(** [s[lo:hi]]: the bounds are checked against the capacity, and the
    result may hold elements of the room of [s].  Only the elements of the
    result are kept: the source takes no slice of a slice it has cut. *)
Definition slice {A} (s : Slice A) (lo hi : Z) : result (list A) :=
  if bool_decide (0 ≤ lo ∧ lo ≤ hi ∧ hi ≤ cap s)
  then Ok (take (Z.to_nat (hi - lo)) (drop (Z.to_nat lo) (elems s ++ room s)))
  else Panic slice_out_of_range.

(** [s[lo:]]: the upper bound is the length *)
Definition slice_from {A} (s : Slice A) (lo : Z) : result (list A) :=
  slice s lo (len (elems s)).

(** [s[:hi]] *)
Definition slice_to {A} (s : Slice A) (hi : Z) : result (list A) :=
  slice s 0 hi.

(** [append(s, a)].  Where the array has room the element goes into it.
    Where it has none the elements move to a new array: [growslice n] is the
    capacity that the run time gives it when [n] elements are needed, and
    the room of a new array holds zero values. *)
Definition append {A} (growslice : Z → Z) (zero : A) (s : Slice A) (a : A) : Slice A :=
  match room s with
  | _ :: rest => mkSlice (elems s ++ [a]) rest
  | [] =>
    let n := len (elems s) + 1 in
    mkSlice (elems s ++ [a]) (replicate (Z.to_nat (growslice n - n)) zero)
  end.

(** [s[i]] *)
Definition index {A} (s : list A) (i : Z) : result A :=
  if bool_decide (0 ≤ i)
  then match s !! Z.to_nat i with
       | Some a => Ok a
       | None => Panic index_out_of_range
       end
  else Panic index_out_of_range.

(** [s[i] = f(s[i])], the update in place of one element *)
Definition update {A} (s : list A) (i : Z) (f : A → A) : result (list A) :=
  a ← index s i; Ok (<[Z.to_nat i := f a]> s).

(** ** Arithmetic of the slicing functions *)

(** [math.Ceil(float64(a) / float64(b))] converted back to an integer *)
Definition ceil_div (a b : Z) : Z := - ((- a) / b).

(** [math.Floor(float64(a) / float64(b))] converted back to an integer *)
Definition floor_div (a b : Z) : Z := a / b.

(** Modelled from the spec: [utils.Max], the helper of the [utils] package
    that [rangedParts] calls; the spec writes it [max(_, 0)]. *)
Definition Max (a b : Z) : Z := Z.max a b.

(** ** Parts *)

(** [tg.InputDocumentFileLocation]: the handle of one remote document *)
Record InputDocumentFileLocation : Type := {
  ID : Z;
  AccessHash : Z;
}.

(** [types.Part] *)
Record Part : Type := mkPart {
  Location : InputDocumentFileLocation;
  Start : Z;
  End : Z;
  Size : Z;
}.

Definition set_Start (v : Z) (p : Part) : Part :=
  {| Location := Location p; Start := v; End := End p; Size := Size p |}.

Definition set_End (v : Z) (p : Part) : Part :=
  {| Location := Location p; Start := Start p; End := v; Size := Size p |}.

(** [types.Part{}], the zero value: what the room of a new array of parts
    holds.  Its handle is the zero handle. *)
Definition zero_Part : Part := mkPart {| ID := 0; AccessHash := 0 |} 0 0 0.

(** ** The range slicer *)

(** [rangedParts(parts, start, end)].  With a first part of size zero the
    two float divisions give an infinity or a NaN, whose conversion to
    [int64] puts a slice bound out of range, or else the [%] of the source
    divides by zero: the call panics in every case.  The returned slice
    shares its array with [parts]; the caller overwrites [parts] with the
    result and ranges over it, so the elements of the result are what is
    kept here. *)
Definition rangedParts (parts : Slice Part) (start end_ : Z) : result (list Part) :=
  p0 ← index (elems parts) 0;
  let chunkSize := Size p0 in
  if bool_decide (chunkSize = 0) then Panic divide_by_zero else
  let startPartNumber := Max (ceil_div start chunkSize - 1) 0 in
  let endPartNumber := ceil_div end_ chunkSize in
  partsToDownload ← slice parts startPartNumber endPartNumber;
  partsToDownload ← update partsToDownload 0 (set_Start (Z.rem start chunkSize));
  update partsToDownload (len partsToDownload - 1) (set_End (Z.rem end_ chunkSize)).

(** The slicer as the specification words it: the exclusive end index is
    the ceiling of [(end+1)/chunkSize]; everything else as in
    [rangedParts]. *)
Definition rangedParts_spec (parts : Slice Part) (start end_ : Z) : result (list Part) :=
  p0 ← index (elems parts) 0;
  let chunkSize := Size p0 in
  if bool_decide (chunkSize = 0) then Panic divide_by_zero else
  let startIdx := Z.max (ceil_div start chunkSize - 1) 0 in
  let endIdx := ceil_div (end_ + 1) chunkSize in
  sl ← slice parts startIdx endIdx;
  sl ← update sl 0 (set_Start (start `mod` chunkSize));
  update sl (len sl - 1) (set_End (end_ `mod` chunkSize)).

(** ** The remote blob API *)

(** A Go call returning [(value, error)] *)
Inductive fallible (A : Type) : Type :=
  | Val (a : A)
  | Err (msg : string).
Arguments Val {A} a.
Arguments Err {A} msg.

(** [tg.UploadGetFileRequest] *)
Record UploadGetFileRequest : Type := {
  Offset : Z;
  Limit : Z;
  ReqLocation : InputDocumentFileLocation;
}.

(** [tg.UploadFileClass]: the variants of the answer to [upload.getFile] *)
Inductive UploadFileClass : Type :=
  | UploadFile (Bytes : Slice Byte.byte)
  | UploadFileCDNRedirect.

(** [tgClient.API().UploadGetFile]: the remote end, any function of the
    request.  Within one part stream the offsets strictly increase, so no
    request is repeated there. *)
Abbreviation API := (UploadGetFileRequest → fallible UploadFileClass).

Definition unexpected_type : string := "unexpected type".

(** [chunk(ctx, tgClient, part, offset, limit)] *)
Definition chunk (api : API) (part : Part) (offset limit : Z)
    : fallible (Slice Byte.byte) :=
  let req := {| Offset := offset; Limit := limit; ReqLocation := Location part |} in
  match api req with
  | Err err => Err err
  | Val (UploadFile b) => Val b
  | Val _ => Err unexpected_type
  end.

(** ** The part streamer *)

(** What the producer does, in order: a request to the remote API, or a
    [writer.Write] of a block on the pipe. *)
Inductive Event : Type :=
  | Fetch (req : UploadGetFileRequest)
  | Write (b : bytes).

(** How a run of the producer ends.  [OutOfFuel] belongs to the embedding
    only: [streamFilePart_total] shows that it does not occur. *)
Inductive Ending : Type :=
  | Returned
  | Panicked (why : string)
  | OutOfFuel.

(** The events of a run and its ending.  The source discards the results of
    [writer.Write], so the events of the producer do not depend on the
    reading end of the pipe; how far the producer gets does, see [drive]. *)
Abbreviation Run := (list Event * Ending)%type.

Section streamFilePart.
Context (api : API) (part : Part) (start end_ chunkSize : Z).

Definition offset0 : Z := start - Z.rem start chunkSize.
Definition firstPartCut : Z := start - offset0.
Definition lastPartCut : Z := Z.rem end_ chunkSize + 1.
Definition partCount : Z :=
  ceil_div (end_ + 1) chunkSize - floor_div offset0 chunkSize.

(** The chain of [else if] that cuts a non-empty block *)
Definition trim (currentPart : Z) (r : Slice Byte.byte) : result bytes :=
  if bool_decide (partCount = 1) then slice r firstPartCut lastPartCut
  else if bool_decide (currentPart = 1) then slice_from r firstPartCut
  else if bool_decide (currentPart = partCount) then slice_to r lastPartCut
  else Ok (elems r).

(** The [for] loop; [fuel] bounds the number of iterations. *)
Fixpoint loop (fuel : nat) (offset currentPart : Z) : Run :=
  match fuel with
  | O => ([], OutOfFuel)
  | S fuel =>
    let fetch :=
      Fetch {| Offset := offset; Limit := chunkSize; ReqLocation := Location part |} in
    let r := match chunk api part offset chunkSize with
             | Val b => b
             | Err _ => nil_slice
             end in
    if bool_decide (len (elems r) = 0) then ([fetch], Returned)
    else
      match trim currentPart r with
      | Panic why => ([fetch], Panicked why)
      | Ok r =>
        let currentPart := currentPart + 1 in
        let offset := offset + chunkSize in
        if bool_decide (currentPart > partCount)
        then ([fetch; Write r], Returned)
        else
          let '(evs, e) := loop fuel offset currentPart in
          (fetch :: Write r :: evs, e)
      end
  end.

(** [streamFilePart(ctx, tgClient, writer, part, start, end, chunkSize)] *)
Definition streamFilePart : Run :=
  if bool_decide (chunkSize = 0) then ([], Panicked divide_by_zero)
  else loop (Z.to_nat (Z.max partCount 1)) offset0 1.
End streamFilePart.

(** The requests of a run, and the bytes it writes *)
Definition fetches (evs : list Event) : list UploadGetFileRequest :=
  omap (λ ev, match ev with Fetch req => Some req | Write _ => None end) evs.

Definition writes (evs : list Event) : list bytes :=
  omap (λ ev, match ev with Write b => Some b | Fetch _ => None end) evs.

Definition emitted (evs : list Event) : bytes := concat (writes evs).

(** ** The producer *)

(** The transfer unit that [GetFileStream] passes *)
Definition transferUnit : Z := 1024 * 1024.

(** The body of the goroutine of [GetFileStream]: the selected parts are
    streamed in order.  A panic there is not recovered. *)
Fixpoint producer_at (unit : Z) (api : API) (parts : list Part) : Run :=
  match parts with
  | [] => ([], Returned)
  | part :: rest =>
    let '(evs, e) := streamFilePart api part (Start part) (End part) unit in
    match e with
    | Returned => let '(evs', e') := producer_at unit api rest in (evs ++ evs', e')
    | _ => (evs, e)
    end
  end.

Definition producer : API → list Part → Run := producer_at transferUnit.

(** The slicer followed by the producer *)
Definition pipeline (api : API) (parts : Slice Part) (start end_ : Z) : result Run :=
  partsToDownload ← rangedParts parts start end_;
  Ok (producer api partsToDownload).

(** ** A remote end that stores the parts *)

(** The remote end that holds document [id] with content [store id] and
    answers every request with the bytes asked for: [Limit] bytes from
    [Offset], fewer where the document ends.  [spare req] is what the array
    of the answer holds behind those bytes. *)
Definition faithful (store : Z → bytes) (spare : UploadGetFileRequest → bytes) : API :=
  λ req,
  Val (UploadFile
         (mkSlice (take (Z.to_nat (Limit req))
                        (drop (Z.to_nat (Offset req)) (store (ID (ReqLocation req)))))
                  (spare req))).

(** The logical file: the contents of the parts, in order *)
Definition file_bytes (store : Z → bytes) (parts : list Part) : bytes :=
  concat (map (λ p, store (ID (Location p))) parts).

(** The window [[start, end]] of a sequence of bytes *)
Definition window (b : bytes) (start end_ : Z) : bytes :=
  take (Z.to_nat (end_ - start + 1)) (drop (Z.to_nat start) b).

(** ** The pipe between the producer and the response *)

(** [io.Pipe] is synchronous: a [Write] returns once the reading end has
    taken all of its bytes.  The reading end of [GetFileStream] takes [want]
    bytes ([io.CopyN]; none for a HEAD request) and then reads no more.  The
    source closes neither end before the producer returns, so a [Write]
    that the reader does not take in full stays parked, and the producer
    with it: its run stops there, [Blocked]. *)
Inductive Fate : Type :=
  | Ended (e : Ending)
  | Blocked.

Record Piped : Type := mkPiped {
  delivered : bytes;
  issued : list UploadGetFileRequest;
  fate : Fate;
}.

Definition add_issued (req : UploadGetFileRequest) (p : Piped) : Piped :=
  mkPiped (delivered p) (req :: issued p) (fate p).

Definition add_delivered (b : bytes) (p : Piped) : Piped :=
  mkPiped (b ++ delivered p) (issued p) (fate p).

Fixpoint drive (want : Z) (evs : list Event) (e : Ending) : Piped :=
  match evs with
  | [] => mkPiped [] [] (Ended e)
  | Fetch req :: evs => add_issued req (drive want evs e)
  | Write b :: evs =>
    if bool_decide (0 < want ∧ len b ≤ want)
    then add_delivered b (drive (want - len b) evs e)
    else mkPiped (take (Z.to_nat want) b) [] Blocked
  end.

(** ** The response writer *)

(** [gin.ResponseWriter]: [WriteHeader] only records the status; status
    and headers go out with the first [Write]. *)
Record ResponseWriter : Type := mkWriter {
  status : Z;
  header : gmap string string;
  written : bool;
  body : bytes;
}.

Definition StatusOK : Z := 200.
Definition StatusPartialContent : Z := 206.
Definition StatusBadRequest : Z := 400.
Definition StatusInternalServerError : Z := 500.

(** A writer nothing has touched *)
Definition fresh : ResponseWriter := mkWriter StatusOK ∅ false [].

Definition Header_Set (k v : string) (w : ResponseWriter) : ResponseWriter :=
  mkWriter (status w) (<[k := v]> (header w)) (written w) (body w).

Definition WriteHeader (code : Z) (w : ResponseWriter) : ResponseWriter :=
  if bool_decide (0 < code) && negb (written w)
  then mkWriter code (header w) (written w) (body w)
  else w.

Definition Writer_Write (data : bytes) (w : ResponseWriter) : ResponseWriter :=
  mkWriter (status w) (header w) true (body w ++ data).

Definition newline : string := String "010"%char EmptyString.
Definition quote : string := String "034"%char EmptyString.

Definition bytes_of_string (s : string) : bytes := String.list_byte_of_string s.

(** [http.Error(w, msg, code)] *)
Definition http_Error (msg : string) (code : Z) (w : ResponseWriter) : ResponseWriter :=
  let w := Header_Set "Content-Type" "text/plain; charset=utf-8" w in
  let w := Header_Set "X-Content-Type-Options" "nosniff" w in
  let w := WriteHeader code w in
  Writer_Write (bytes_of_string (msg +:+ newline)) w.

(** ** Collaborators of the handler *)

Module schemas.
(** [schemas.FileOutFull], the fields the handler reads; [Parts] is a
    pointer in the source, [None] is [nil] *)
Record FileOutFull : Type := {
  ID : string;
  Name : string;
  MimeType : string;
  Size : Z;
  Parts : option (list Z);
}.
End schemas.

Module range_parser.
(** [range_parser.Range] *)
Record Range : Type := { Start : Z; End : Z }.
End range_parser.

(** The answers of Telegram to [channels.getMessages], as far as
    [getParts] unwraps them *)
Inductive DocumentClass : Type :=
  | Document (location : InputDocumentFileLocation) (size : Z)
  | DocumentEmpty.

Inductive MessageMediaClass : Type :=
  | MessageMediaDocument (document : DocumentClass)
  | MessageMediaOther.

Inductive MessageClass : Type :=
  | Message (media : MessageMediaClass)
  | MessageOther.

Inductive MessagesMessagesClass : Type :=
  | MessagesChannelMessages (messages : list MessageClass)
  | MessagesOther.

(** What the handler gets from outside this file: the configuration, the
    packages [utils] and [cache], the data base, the range parser, the
    Telegram API, and the capacity that the Go run time gives the array of
    a slice that [append] has to move.  [cache.CachedFunction] hands back
    the result of the function it wraps, computed now or earlier; the fields
    below are those results. *)
Record Env : Type := {
  growslice : Z → Z;
  MultiClient : bool;
  GetAuthClient : fallible unit;
  Db_Find : string → list schemas.FileOutFull;
  Parse : Z → string → fallible (list range_parser.Range);
  GetChannelById : fallible unit;
  ChannelsGetMessages : list Z → fallible MessagesMessagesClass;
  UploadGetFile : API;
}.

(** [c.Request] and [c.Param("fileID")] *)
Record Request : Type := {
  Method : string;
  Range : string;
  fileID : string;
}.

(** [GetFileByID] *)
Definition GetFileByID (env : Env) (fileID : string) : fallible schemas.FileOutFull :=
  match Db_Find env fileID with
  | [] => Err "file not found"
  | file :: _ => Val file
  end.

(** The three unchecked type assertions of the loop of [getParts] *)
Definition part_of_message (message : MessageClass) : result Part :=
  match message with
  | Message (MessageMediaDocument (Document location size)) =>
    Ok (mkPart location 0 (size - 1) size)
  | _ => Panic bad_type_assertion
  end.

(** The loop of [getParts]: every message is unwrapped and its part
    appended *)
Fixpoint collect (grow : Z → Z) (parts : Slice Part) (messages : list MessageClass)
    : result (Slice Part) :=
  match messages with
  | [] => Ok parts
  | message :: messages =>
    part ← part_of_message message;
    collect grow (append grow zero_Part parts part) messages
  end.

(** [getParts] *)
Definition getParts (env : Env) (file : schemas.FileOutFull)
    : result (fallible (Slice Part)) :=
  match schemas.Parts file with
  | None => Panic "nil pointer dereference"
  | Some ids =>
    match GetChannelById env with
    | Err err => Ok (Err err)
    | Val _ =>
      match ChannelsGetMessages env ids with
      | Err err => Ok (Err err)
      | Val (MessagesChannelMessages messages) =>
        parts ← collect (growslice env) (mkSlice [] []) messages; Ok (Val parts)
      | Val _ => Panic bad_type_assertion
      end
    end
  end.

(** ** The handler *)

(** The closures the handler defers *)
Inductive Deferred : Type :=
  | ReleaseWorkload.

(** What a request changes: the response, the [Workload] counter of the
    client it selected, the deferred calls registered so far, the requests
    that reached the blob API, and where the producer ends up. *)
Record State : Type := mkState {
  w : ResponseWriter;
  Workload : Z;
  deferred : list Deferred;
  remote : list UploadGetFileRequest;
  goroutine : option Fate;
}.

(** How a block of statements ends: it falls through, it executes
    [return], it panics, or the process dies of a panic in the producer. *)
Inductive Exit (A : Type) : Type :=
  | Next (a : A)
  | Return
  | Panics (why : string)
  | Dies (why : string).
Arguments Next {A} a.
Arguments Return {A}.
Arguments Panics {A} why.
Arguments Dies {A} why.

Definition H (A : Type) : Type := State → Exit A * State.

#[global] Instance H_ret : MRet H := λ _ a st, (Next a, st).
#[global] Instance H_bind : MBind H := λ _ _ f m st,
  match m st with
  | (Next a, st) => f a st
  | (Return, st) => (Return, st)
  | (Panics why, st) => (Panics why, st)
  | (Dies why, st) => (Dies why, st)
  end.

Definition on_w (f : ResponseWriter → ResponseWriter) : H unit := λ st,
  (Next (), mkState (f (w st)) (Workload st) (deferred st) (remote st) (goroutine st)).

Definition on_Workload (f : Z → Z) : H unit := λ st,
  (Next (), mkState (w st) (f (Workload st)) (deferred st) (remote st) (goroutine st)).

Definition defer (d : Deferred) : H unit := λ st,
  (Next (), mkState (w st) (Workload st) (d :: deferred st) (remote st) (goroutine st)).

Definition return_ {A} : H A := λ st, (Return, st).

Definition lift {A} (r : result A) : H A := λ st,
  match r with
  | Ok a => (Next a, st)
  | Panic why => (Panics why, st)
  end.

(** [io.Copy] hands the bytes it has read to [w.Write], and does not call
    it when it has read none. *)
Definition copied (data : bytes) (w : ResponseWriter) : ResponseWriter :=
  if bool_decide (data = []) then w else Writer_Write data w.

(** The pipe at work: the requests the producer sends, the bytes
    [io.Copy] hands to the response, and the end of the producer.  An
    unrecovered panic of the goroutine ends the process.  The producer
    never runs out of fuel, see [producer_at_total]. *)
Definition stream (p : Piped) : H unit := λ st,
  let w' := copied (delivered p) (w st) in
  let st' := mkState w' (Workload st) (deferred st)
                     (remote st ++ issued p) (Some (fate p)) in
  match fate p with
  | Ended (Panicked why) => (Dies why, st')
  | Ended OutOfFuel => (Dies "out of fuel", st')
  | Ended Returned | Blocked => (Next (), st')
  end.

Definition Content_Range (start end_ size : Z) : string :=
  "bytes " +:+ pretty start +:+ "-" +:+ pretty end_ +:+ "/" +:+ pretty size.

Definition Content_Disposition (name : string) : string :=
  "inline; filename=" +:+ quote +:+ name +:+ quote.

(** The statements of [GetFileStream], in the order of the source *)
Definition GetFileStream_body (env : Env) (r : Request) : H unit :=
  (if MultiClient env then on_Workload Z.succ
   else match GetAuthClient env with
        | Err err => on_w (http_Error err StatusInternalServerError);; return_
        | Val _ => mret ()
        end);;
  file ← match GetFileByID env (fileID r) with
         | Err err => on_w (http_Error err StatusBadRequest);; return_
         | Val file => mret file
         end;
  on_w (Header_Set "Accept-Ranges" "bytes");;
  range ← (if bool_decide (Range r = EmptyString)
           then on_w (WriteHeader StatusOK);; mret (0, schemas.Size file - 1)
           else match Parse env (schemas.Size file) (Range r) with
                | Err err => on_w (http_Error err StatusBadRequest);; return_
                | Val ranges =>
                  r0 ← lift (index ranges 0);
                  let start := range_parser.Start r0 in
                  let end_ := range_parser.End r0 in
                  on_w (Header_Set "Content-Range"
                          (Content_Range start end_ (schemas.Size file)));;
                  on_w (WriteHeader StatusPartialContent);;
                  mret (start, end_)
                end);
  let '(start, end_) := range in
  let contentLength := end_ - start + 1 in
  on_w (Header_Set "Content-Type" (schemas.MimeType file));;
  on_w (Header_Set "Content-Length" (pretty contentLength));;
  on_w (Header_Set "Content-Disposition" (Content_Disposition (schemas.Name file)));;
  got ← lift (getParts env file);
  parts ← match got with
          | Err err => on_w (http_Error err StatusBadRequest);; return_
          | Val parts => mret parts
          end;
  parts ← lift (rangedParts parts start end_);
  let '(evs, e) := producer (UploadGetFile env) parts in
  stream (drive (if bool_decide (Method r ≠ "HEAD") then contentLength else 0) evs e);;
  defer ReleaseWorkload.

Definition run_deferred (env : Env) (d : Deferred) (st : State) : State :=
  match d with
  | ReleaseWorkload =>
    if MultiClient env
    then mkState (w st) (Workload st - 1) (deferred st) (remote st) (goroutine st)
    else st
  end.

(** [GetFileStream]: the body, then the deferred calls that were registered
    when the function returns or panics, last registered first *)
Definition GetFileStream (env : Env) (r : Request) (st : State) : Exit unit * State :=
  let '(exit, st) := GetFileStream_body env r st in
  match exit with
  | Dies _ => (exit, st)
  | _ => (exit, foldl (λ st d, run_deferred env d st) st (deferred st))
  end.

(** The state in which a request arrives: nothing written, nothing
    deferred, the selected client at [workload] *)
Definition arrival (workload : Z) : State := mkState fresh workload [] [] None.

(** ** The records of the file handlers *)

(** The packages [models], [schemas] and [types] are not part of this
    file; the records below hold the fields that this file reads or
    writes, with the types that these uses give them.  A Go pointer is an
    [option], [nil] is [None]; [Type_] stands for the field [Type]. *)

(** [types.AppError] *)
Module AppError.
Record t : Type := mk {
  Error : string;
  Code : Z;
}.
End AppError.

Definition StatusNotFound : Z := 404.

(** What a handler returns: its value, or an [AppError] *)
Inductive response (A : Type) : Type :=
  | Success (a : A)
  | Failure (e : AppError.t).
Arguments Success {A} a.
Arguments Failure {A} e.

(** [models.File], a row of the table of files *)
Module File.
Record t : Type := mk {
  ID : string;
  Name : string;
  Type_ : string;
  MimeType : string;
  Path : string;
  Size : Z;
  Starred : option bool;
  Depth : option Z;
  UserID : Z;
  ParentID : string;
  Parts : option (list Z);
  ChannelID : option Z;
  Status : string;
  UpdatedAt : Z;
}.
End File.

(** [schemas.FileIn], the payload of a creation or of an update *)
Module FileIn.
Record t : Type := mk {
  Name : string;
  Type_ : string;
  MimeType : string;
  Path : string;
  Size : Z;
  Starred : option bool;
  Depth : option Z;
  UserID : Z;
  ParentID : string;
  Parts : option (list Z);
  ChannelID : option Z;
  Status : string;
}.

Definition set_Path (v : string) (f : t) : t :=
  mk (Name f) (Type_ f) (MimeType f) v (Size f) (Starred f) (Depth f) (UserID f)
     (ParentID f) (Parts f) (ChannelID f) (Status f).

Definition set_ParentID (v : string) (f : t) : t :=
  mk (Name f) (Type_ f) (MimeType f) (Path f) (Size f) (Starred f) (Depth f) (UserID f)
     v (Parts f) (ChannelID f) (Status f).

Definition set_MimeType (v : string) (f : t) : t :=
  mk (Name f) (Type_ f) v (Path f) (Size f) (Starred f) (Depth f) (UserID f)
     (ParentID f) (Parts f) (ChannelID f) (Status f).

Definition set_Depth (v : option Z) (f : t) : t :=
  mk (Name f) (Type_ f) (MimeType f) (Path f) (Size f) (Starred f) v (UserID f)
     (ParentID f) (Parts f) (ChannelID f) (Status f).

Definition set_ChannelID (v : option Z) (f : t) : t :=
  mk (Name f) (Type_ f) (MimeType f) (Path f) (Size f) (Starred f) (Depth f) (UserID f)
     (ParentID f) (Parts f) v (Status f).

Definition set_UserID (v : Z) (f : t) : t :=
  mk (Name f) (Type_ f) (MimeType f) (Path f) (Size f) (Starred f) (Depth f) v
     (ParentID f) (Parts f) (ChannelID f) (Status f).

Definition set_Starred (v : option bool) (f : t) : t :=
  mk (Name f) (Type_ f) (MimeType f) (Path f) (Size f) v (Depth f) (UserID f)
     (ParentID f) (Parts f) (ChannelID f) (Status f).

Definition set_Status (v : string) (f : t) : t :=
  mk (Name f) (Type_ f) (MimeType f) (Path f) (Size f) (Starred f) (Depth f) (UserID f)
     (ParentID f) (Parts f) (ChannelID f) v.
End FileIn.

(** [schemas.FileOut], a file as the handlers show it *)
Module FileOut.
Record t : Type := mk {
  ID : string;
  Name : string;
  Type_ : string;
  MimeType : string;
  Path : string;
  Size : Z;
  Starred : option bool;
  ParentID : string;
  UpdatedAt : Z;
}.
End FileOut.

(** [schemas.FileOperation], the payload of a move or of a deletion *)
Module FileOperation.
Record t : Type := mk {
  Files : list string;
  Destination : string;
}.
End FileOperation.

(** [schemas.Message] *)
Module Message_.
Record t : Type := mk {
  Status : bool;
  Message : string;
}.
End Message_.

(** [schemas.PaginationQuery] *)
Module PaginationQuery.
Record t : Type := mk {
  PerPage : Z;
  NextPageToken : string;
}.
End PaginationQuery.

(** [schemas.SortingQuery] *)
Module SortingQuery.
Record t : Type := mk {
  Sort : string;
  Order : string;
}.
End SortingQuery.

(** [schemas.FileQuery], the fields that [ListFiles] reads or presets *)
Module FileQuery.
Record t : Type := mk {
  Op : string;
  Status : string;
  UserId : Z;
  Path : string;
  Search : string;
}.
End FileQuery.

(** [schemas.FileResponse] *)
Module FileResponse.
Record t : Type := mk {
  Results : list FileOut.t;
  NextPageToken : string;
}.
End FileResponse.

(** [types.JWTClaims], the field that [getAuthUserId] reads *)
Record JWTClaims : Type := {
  Subject : string;
}.

(** ** The mappings between the records *)

(** [mapFileToFileOut] *)
Definition mapFileToFileOut (file : File.t) : FileOut.t :=
  {| FileOut.ID := File.ID file;
     FileOut.Name := File.Name file;
     FileOut.Type_ := File.Type_ file;
     FileOut.MimeType := File.MimeType file;
     FileOut.Path := File.Path file;
     FileOut.Size := File.Size file;
     FileOut.Starred := File.Starred file;
     FileOut.ParentID := File.ParentID file;
     FileOut.UpdatedAt := File.UpdatedAt file |}.

(** [mapFileInToFile]: [ID] and [UpdatedAt] keep their zero values *)
Definition mapFileInToFile (file : FileIn.t) : File.t :=
  {| File.ID := EmptyString;
     File.Name := FileIn.Name file;
     File.Type_ := FileIn.Type_ file;
     File.MimeType := FileIn.MimeType file;
     File.Path := FileIn.Path file;
     File.Size := FileIn.Size file;
     File.Starred := FileIn.Starred file;
     File.Depth := FileIn.Depth file;
     File.UserID := FileIn.UserID file;
     File.ParentID := FileIn.ParentID file;
     File.Parts := FileIn.Parts file;
     File.ChannelID := FileIn.ChannelID file;
     File.Status := FileIn.Status file;
     File.UpdatedAt := 0 |}.

(** ** Strings *)

(** [strings.Split(s, sep)] for a separator of one byte: the pieces of [s]
    between the occurrences of [sep], one more than there are
    occurrences *)
Fixpoint Split (s : string) (sep : ascii) : list string :=
  match s with
  | EmptyString => [EmptyString]
  | String c s =>
    if bool_decide (c = sep) then EmptyString :: Split s sep
    else match Split s sep with
         | [] => [String c EmptyString]
         | piece :: pieces => String c piece :: pieces
         end
  end.

(** [strings.Join(elems, sep)] *)
Fixpoint Join (elems : list string) (sep : string) : string :=
  match elems with
  | [] => EmptyString
  | [s] => s
  | s :: elems => s +:+ sep +:+ Join elems sep
  end.

(** ** Collaborators of the file handlers *)

(** A value of a [map[string]interface{}] *)
Inductive Value : Type :=
  | VInt (n : Z)
  | VString (s : string)
  | VNil
  | VOther (repr : string).

(** The conditions that [ListFiles] puts on its query, by the shape of the
    argument of [Where] *)
Inductive Cond : Type :=
  | Where_map (m : gmap string Value)
  | Where_parent_at (path : string)
  | Where_sql (sql : string)
  | Where_list (filters : list string).

(** A [gorm] query on the table of files: the calls it was built with *)
Record Query : Type := mkQuery {
  limit : Z;
  order : list string;
  conds : list Cond;
}.

(** [query.Order(s)] and [query.Where(c)] *)
Definition Query_Order (s : string) (q : Query) : Query :=
  mkQuery (limit q) (order q ++ [s]) (conds q).

Definition Query_Where (c : Cond) (q : Query) : Query :=
  mkQuery (limit q) (order q) (conds q ++ [c]).

(** The answer of [First]: a row, [gorm.ErrRecordNotFound], or another
    error *)
Inductive Lookup : Type :=
  | Found (file : File.t)
  | ErrRecordNotFound
  | ErrOther (msg : string).

(** What the handlers get from the packages [strings], [strconv],
    [encoding/base64], [mapstructure] and [utils] *)
Record Lib : Type := {
  TrimSpace : string → string;
  ToUpper : string → string;
  Atoi : string → Z * option string;
  CamelToSnake : string → string;
  CamelToPascalCase : string → string;
  GetField : FileOut.t → string → result string;
  EncodeToString : string → string;
  DecodeString : string → fallible string;
  Decode : FileQuery.t → fallible (gmap string Value);
}.

(** The data base, by the statements that the handlers send it:
    [First_folder path] is [Where("type = ? AND path = ?", "folder",
    path).First], [First_path path] is [Select("id").Where("path = ?",
    path).First], [update_folder] is the stored function of that name,
    [Updates id file] is [Where("id = ?", id).Updates(file)] with its
    returning clause, [UpdateColumn ids parent] sets [parent_id] on the rows
    whose id is among [ids], [delete_files] is the stored procedure of that
    name, and [Find] runs a query of [ListFiles]. *)
Record Db : Type := {
  First_folder : string → Lookup;
  First_path : string → Lookup;
  Create : File.t → fallible File.t;
  update_folder : string → string → fallible (list File.t);
  Updates : string → File.t → fallible (list File.t);
  UpdateColumn : list string → string → fallible unit;
  delete_files : list string → fallible unit;
  Find : Query → list FileOut.t;
}.

(** [gin.Context]: the value stored under [jwtUser], the parameter
    [fileID], and the outcome of each binding; a binding of the query
    string starts from the values that the handler has preset *)
Record gin_Context : Type := {
  jwtUser : option JWTClaims;
  Param_fileID : string;
  ShouldBindJSON_FileIn : fallible FileIn.t;
  ShouldBindJSON_FileOperation : fallible FileOperation.t;
  ShouldBindQuery_Pagination : PaginationQuery.t → fallible PaginationQuery.t;
  ShouldBindQuery_Sorting : SortingQuery.t → fallible SortingQuery.t;
  ShouldBindQuery_File : FileQuery.t → fallible FileQuery.t;
}.

(** ** The file handlers *)

(** [getAuthUserId]: the type assertion panics when no claims are stored;
    the error of [strconv.Atoi] is dropped *)
Definition getAuthUserId (lib : Lib) (c : gin_Context) : result Z :=
  match jwtUser c with
  | None => Panic bad_type_assertion
  | Some jwtUser => Ok (Atoi lib (Subject jwtUser)).1
  end.

Definition invalid_request_payload : AppError.t :=
  AppError.mk "invalid request payload" StatusBadRequest.

(** [CreateFile] *)
Definition CreateFile (lib : Lib) (db : Db) (fs_ChannelID : Z) (c : gin_Context)
    : result (response FileOut.t) :=
  userId ← getAuthUserId lib c;
  match ShouldBindJSON_FileIn c with
  | Err _ => Ok (Failure invalid_request_payload)
  | Val fileIn =>
    let fileIn := FileIn.set_Path (TrimSpace lib (FileIn.Path fileIn)) fileIn in
    let looked :=
      if bool_decide (FileIn.Path fileIn ≠ EmptyString)
      then match First_folder db (FileIn.Path fileIn) with
           | Found parent => Some (FileIn.set_ParentID (File.ID parent) fileIn)
           | _ => None
           end
      else Some fileIn in
    match looked with
    | None => Ok (Failure (AppError.mk "parent directory not found" StatusNotFound))
    | Some fileIn =>
      let fileIn :=
        if bool_decide (FileIn.Type_ fileIn = "folder") then
          let fileIn := FileIn.set_MimeType "drive/folder" fileIn in
          let fullPath :=
            if bool_decide (FileIn.Path fileIn = "/")
            then "/" +:+ FileIn.Name fileIn
            else FileIn.Path fileIn +:+ "/" +:+ FileIn.Name fileIn in
          let fileIn := FileIn.set_Path fullPath fileIn in
          FileIn.set_Depth (Some (len (Split (FileIn.Path fileIn) "/") - 1)) fileIn
        else if bool_decide (FileIn.Type_ fileIn = "file") then
          let fileIn := FileIn.set_Path EmptyString fileIn in
          FileIn.set_ChannelID (Some fs_ChannelID) fileIn
        else fileIn in
      let fileIn := FileIn.set_UserID userId fileIn in
      let fileIn := FileIn.set_Starred (Some false) fileIn in
      let fileIn := FileIn.set_Status "active" fileIn in
      let fileDb := mapFileInToFile fileIn in
      match Create db fileDb with
      | Err _ => Ok (Failure (AppError.mk "failed to create a file" StatusBadRequest))
      | Val fileDb => Ok (Success (mapFileToFileOut fileDb))
      end
    end
  end.

(** [UpdateFile] *)
Definition UpdateFile (db : Db) (c : gin_Context) : response FileOut.t :=
  let fileID := Param_fileID c in
  match ShouldBindJSON_FileIn c with
  | Err _ => Failure invalid_request_payload
  | Val fileUpdate =>
    let updated :=
      if bool_decide (FileIn.Type_ fileUpdate = "folder")
         && bool_decide (FileIn.Name fileUpdate ≠ EmptyString)
      then update_folder db fileID (FileIn.Name fileUpdate)
      else Updates db fileID (mapFileInToFile fileUpdate) in
    match updated with
    | Err _ =>
      Failure (AppError.mk "failed to update the file" StatusInternalServerError)
    | Val [] => Failure (AppError.mk "file not updated" StatusNotFound)
    | Val (file :: _) => Success (mapFileToFileOut file)
    end
  end.

(** [MoveFiles]: of the errors of the look-up of the destination only
    [gorm.ErrRecordNotFound] is acted upon; after any other error
    [destination] still has its zero value *)
Definition MoveFiles (db : Db) (c : gin_Context) : response Message_.t :=
  match ShouldBindJSON_FileOperation c with
  | Err _ => Failure invalid_request_payload
  | Val payload =>
    match First_path db (FileOperation.Destination payload) with
    | ErrRecordNotFound => Failure (AppError.mk "destination not found" StatusNotFound)
    | looked =>
      let destination_ID :=
        match looked with
        | Found destination => File.ID destination
        | _ => EmptyString
        end in
      match UpdateColumn db (FileOperation.Files payload) destination_ID with
      | Err _ => Failure (AppError.mk "move failed" StatusInternalServerError)
      | Val _ => Success (Message_.mk true "files moved")
      end
    end
  end.

(** [DeleteFiles] *)
Definition DeleteFiles (db : Db) (c : gin_Context) : response Message_.t :=
  match ShouldBindJSON_FileOperation c with
  | Err _ => Failure invalid_request_payload
  | Val payload =>
    match delete_files db (FileOperation.Files payload) with
    | Err _ => Failure (AppError.mk "failed to delete files" StatusInternalServerError)
    | Val _ => Success (Message_.mk true "files deleted")
    end
  end.

(** ** Paging and sorting *)

(** [setOrderFilter] *)
Definition setOrderFilter (lib : Lib) (pagingParams : PaginationQuery.t)
    (sortingParams : SortingQuery.t) (filters : list string) : list string :=
  if bool_decide (PaginationQuery.NextPageToken pagingParams ≠ EmptyString) then
    let sortColumn :=
      if bool_decide (SortingQuery.Sort sortingParams = "name")
      then "name collate numeric"
      else CamelToSnake lib (SortingQuery.Sort sortingParams) in
    match DecodeString lib (PaginationQuery.NextPageToken pagingParams) with
    | Val tokenValue =>
      if bool_decide (SortingQuery.Order sortingParams = "asc")
      then filters ++ [sortColumn +:+ " > '" +:+ tokenValue +:+ "'"]
      else filters ++ [sortColumn +:+ " < '" +:+ tokenValue +:+ "'"]
    | Err _ => filters
    end
  else filters.

(** [getOrder] *)
Definition getOrder (lib : Lib) (sortingParams : SortingQuery.t) : string :=
  let sortColumn := CamelToSnake lib (SortingQuery.Sort sortingParams) in
  let sortColumn :=
    if bool_decide (SortingQuery.Sort sortingParams = "name")
    then "name collate numeric" else sortColumn in
  sortColumn +:+ " " +:+ ToUpper lib (SortingQuery.Order sortingParams).

(** The comparison [filterQuery["updated_at"] == nil]: true for a key that
    is absent and for a key bound to the nil interface *)
Definition is_nil (v : option Value) : bool :=
  match v with
  | None | Some VNil => true
  | Some _ => false
  end.

(** The query that [ListFiles] builds, by the operation asked for; an
    operation that is none of the three leaves the query with its limit
    only; the error is that of [mapstructure.Decode] *)
Definition ListFiles_query (lib : Lib) (userId : Z) (pagingParams : PaginationQuery.t)
    (sortingParams : SortingQuery.t) (fileQuery : FileQuery.t) : fallible Query :=
  let query := mkQuery (PaginationQuery.PerPage pagingParams) [] [] in
  if bool_decide (FileQuery.Op fileQuery = "list") then
    let filters := setOrderFilter lib pagingParams sortingParams [] in
    let query := Query_Order "type DESC" query in
    let query := Query_Order (getOrder lib sortingParams) query in
    let query :=
      Query_Where (Where_map {[ "user_id" := VInt userId; "status" := VString "active" ]})
                  query in
    let query := Query_Where (Where_parent_at (FileQuery.Path fileQuery)) query in
    Val (Query_Where (Where_sql (Join filters " AND ")) query)
  else if bool_decide (FileQuery.Op fileQuery = "find") then
    match Decode lib fileQuery with
    | Err err => Err err
    | Val filterQuery =>
      let filterQuery := delete "op" filterQuery in
      let filterQuery :=
        if is_nil (filterQuery !! "updated_at")
        then delete "updated_at" filterQuery else filterQuery in
      let filters := setOrderFilter lib pagingParams sortingParams [] in
      let query := Query_Order "type DESC" query in
      let query := Query_Order (getOrder lib sortingParams) query in
      let query := Query_Where (Where_map filterQuery) query in
      Val (Query_Where (Where_list filters) query)
    end
  else if bool_decide (FileQuery.Op fileQuery = "search") then
    let filters :=
      ["teldrive.get_tsquery('" +:+ FileQuery.Search fileQuery
       +:+ "') @@ teldrive.get_tsvector(name)"] in
    let filters := setOrderFilter lib pagingParams sortingParams filters in
    let query := Query_Order (getOrder lib sortingParams) query in
    Val (Query_Where (Where_sql (Join filters " AND ")) query)
  else Val query.

(** [ListFiles] *)
Definition ListFiles (lib : Lib) (db : Db) (c : gin_Context)
    : result (response FileResponse.t) :=
  userId ← getAuthUserId lib c;
  let bad_request := Failure (AppError.mk EmptyString StatusBadRequest) in
  match ShouldBindQuery_Pagination c (PaginationQuery.mk 200 EmptyString) with
  | Err _ => Ok bad_request
  | Val pagingParams =>
    match ShouldBindQuery_Sorting c (SortingQuery.mk "name" "asc") with
    | Err _ => Ok bad_request
    | Val sortingParams =>
      match ShouldBindQuery_File c
              (FileQuery.mk "list" "active" userId EmptyString EmptyString) with
      | Err _ => Ok bad_request
      | Val fileQuery =>
        match ListFiles_query lib userId pagingParams sortingParams fileQuery with
        | Err err => Ok (Failure (AppError.mk err StatusBadRequest))
        | Val query =>
          let results := Find db query in
          token ←
            (if bool_decide (len results = PaginationQuery.PerPage pagingParams) then
               lastItem ← index results (len results - 1);
               token ← GetField lib lastItem
                         (CamelToPascalCase lib (SortingQuery.Sort sortingParams));
               Ok (EncodeToString lib token)
             else Ok EmptyString);
          Ok (Success (FileResponse.mk results token))
        end
      end
    end
  end.

(** ** Vocabulary of the statements *)

(** The request for block [k] of a part: [U] bytes from offset [U * k] *)
Definition request (part : Part) (U k : Z) : UploadGetFileRequest :=
  {| Offset := U * k; Limit := U; ReqLocation := Location part |}.

(** Block [k] of a part, as the remote end answers the request for it; a
    failure, and an answer of another type, count as the [nil] block. *)
Definition block (api : API) (part : Part) (U k : Z) : Slice Byte.byte :=
  match api (request part U k) with
  | Val (UploadFile b) => b
  | _ => nil_slice
  end.

(** Byte [i] of block [k] is byte [U * k + i] of the part.  The blocks
    that a stream over [[start, end_]] expects are those from number
    [start / U] to number [end_ / U].  What it writes for a block: of the
    last expected one, the bytes of the array from [start] (from the
    beginning of the block when that comes later) to [end_], whether they
    lie within the length of the block or behind it; of any other block,
    the bytes of the block from [start] on. *)
Definition cut (start end_ U k : Z) (r : Slice Byte.byte) : bytes :=
  let from := Z.max (start - U * k) 0 in
  if bool_decide (k = end_ / U)
  then window (elems r ++ room r) from (end_ - U * k)
  else drop (Z.to_nat from) (elems r).

(** The block reaches far enough for the slice expression applied to it:
    the array of the last expected block holds byte [end_] of the part, and
    a block before it holds the bytes up to [start]. *)
Definition fits (start end_ U k : Z) (r : Slice Byte.byte) : Prop :=
  if bool_decide (k = end_ / U) then end_ - U * k < cap r
  else start - U * k ≤ len (elems r).

#[global] Instance fits_dec start end_ U k r : Decision (fits start end_ U k r).
Proof. unfold fits. case_bool_decide; apply _. Defined.

(** A part stream told from the blocks it meets, in order: an empty block
    ends it, a block that does not reach far enough for its slice makes it
    panic, any other block is cut and written. *)
Fixpoint replay (part : Part) (start end_ U : Z) (blocks : list (Z * Slice Byte.byte))
    : Run :=
  match blocks with
  | [] => ([], Returned)
  | (k, r) :: blocks =>
    if bool_decide (elems r = []) then ([Fetch (request part U k)], Returned)
    else if bool_decide (fits start end_ U k r)
    then let '(evs, e) := replay part start end_ U blocks in
         (Fetch (request part U k) :: Write (cut start end_ U k r) :: evs, e)
    else ([Fetch (request part U k)], Panicked slice_out_of_range)
  end.

(** The blocks met up to the first empty one reach far enough for their
    slice. *)
Fixpoint sound (start end_ U : Z) (blocks : list (Z * Slice Byte.byte)) : Prop :=
  match blocks with
  | [] => True
  | (k, r) :: blocks =>
    elems r = [] ∨ (fits start end_ U k r ∧ sound start end_ U blocks)
  end.

(** The bytes of [[start, end_]] still due when the stream is about to
    fetch block [a] *)
Definition due (start end_ U a : Z) : Z := end_ - Z.max start (U * a) + 1.

(** The expected blocks of [[start, end_]], each with its number *)
Definition expected (api : API) (part : Part) (start end_ U : Z)
    : list (Z * Slice Byte.byte) :=
  (λ k, (k, block api part U k)) <$> seqZ (start / U) (end_ / U - start / U + 1).

(** A part as [getParts] leaves it, for a document that holds [Size]
    bytes *)
Definition whole (store : Z → bytes) (p : Part) : Prop :=
  Start p = 0 ∧ End p = Size p - 1 ∧ len (store (ID (Location p))) = Size p.

(** The parts of a file written with chunk size [c]: whole parts of [c]
    bytes, the last one of at most [c] bytes *)
Fixpoint chunked (c : Z) (store : Z → bytes) (parts : list Part) : Prop :=
  match parts with
  | [] => True
  | p :: rest =>
    whole store p ∧ 0 < Size p ≤ c ∧ (rest ≠ [] → Size p = c) ∧ chunked c store rest
  end.

(** The parts number [start / c] to [end_ / c], the first with its [Start]
    at [start mod c], the last with its [End] at [end_ mod c] *)
Definition selected (c : Z) (parts : list Part) (start end_ : Z) : list Part :=
  let l := take (Z.to_nat (end_ / c + 1 - start / c)) (drop (Z.to_nat (start / c)) parts) in
  alter (set_End (end_ `mod` c)) (length l - 1)%nat
        (alter (set_Start (start `mod` c)) 0%nat l).

(** The slice that holds [parts] when every one of them was appended to
    it, from the empty slice on, as in [getParts] *)
Definition appended (grow : Z → Z) (parts : list Part) : Slice Part :=
  foldl (append grow zero_Part) (mkSlice [] []) parts.

(** The message that holds the document of a part *)
Definition document_of (p : Part) : MessageClass :=
  Message (MessageMediaDocument (Document (Location p) (Size p))).

(** The remote end [api] with every failure, and every answer that is not
    a [tg.UploadFile], replaced by an empty block *)
Definition silenced (api : API) : API := λ req,
  match api req with
  | Val (UploadFile b) => Val (UploadFile b)
  | _ => Val (UploadFile nil_slice)
  end.

(** The surroundings [env] with the blob API silenced *)
Definition silence (env : Env) : Env :=
  {| growslice := growslice env;
     MultiClient := MultiClient env;
     GetAuthClient := GetAuthClient env;
     Db_Find := Db_Find env;
     Parse := Parse env;
     GetChannelById := GetChannelById env;
     ChannelsGetMessages := ChannelsGetMessages env;
     UploadGetFile := silenced (UploadGetFile env) |}.

(** The occurrences of a byte in a string *)
Fixpoint count (c : ascii) (s : string) : Z :=
  match s with
  | EmptyString => 0
  | String a s => (if bool_decide (a = c) then 1 else 0) + count c s
  end.

(** ** Sample data *)

Definition sample_loc (id : Z) : InputDocumentFileLocation :=
  {| ID := id; AccessHash := 0 |}.

(** A part as [getParts] builds it *)
Definition sample_part (id size : Z) : Part :=
  mkPart (sample_loc id) 0 (size - 1) size.

Definition sample_byte (n : Z) : Byte.byte :=
  default Byte.x00 (Byte.of_N (Z.to_N (n `mod` 256))).

(** Document [id] holds [size id] bytes; its byte number [i] is
    [16 * id + i]. *)
Definition sample_store (size : Z → Z) (id : Z) : bytes :=
  (λ i, sample_byte (16 * id + i)) <$> seqZ 0 (size id).

(** Five bytes that lie behind a block in its array *)
Definition sample_spare : bytes := [Byte.x2a; Byte.x2a; Byte.x2a; Byte.x2a; Byte.x2a].

(** A remote end that answers every request with the same block *)
Definition constant_api (r : Slice Byte.byte) : API := λ _, Val (UploadFile r).

(** A remote end that answers with [r k], in an array with five bytes to
    spare, the request for the block at offset [10 * k] *)
Definition scripted_api (r : Z → bytes) : API :=
  λ req, Val (UploadFile (mkSlice (r (Offset req / 10)) sample_spare)).

(** The capacities of a slice that grows by one element at a time from
    nothing: 1, 2, 4, 8 and so on *)
Definition sample_growslice (n : Z) : Z := Z.max 1 (2 * (n - 1)).

(** A file of ten bytes in three parts of chunk size four, the messages
    that hold them, and a data base and a Telegram end that know this file
    under the id [f] and no other *)
Definition sample_file : schemas.FileOutFull :=
  {| schemas.ID := "f"; schemas.Name := "a.bin";
     schemas.MimeType := "application/octet-stream";
     schemas.Size := 10; schemas.Parts := Some [1; 2; 3] |}.

Definition sample_sizes (id : Z) : Z := if bool_decide (id = 3) then 2 else 4.

Definition sample_parts : list Part :=
  [sample_part 1 4; sample_part 2 4; sample_part 3 2].

(** The slice of the sample parts as [getParts] builds it: three parts in
    an array of four *)
Definition sample_slice : Slice Part := appended sample_growslice sample_parts.

(** The size of document [id] among [parts] *)
Definition size_of (parts : list Part) (id : Z) : Z :=
  foldr (λ p rest, if bool_decide (ID (Location p) = id) then Size p else rest) 0 parts.

Definition sample_messages (parts : list Part) : MessagesMessagesClass :=
  MessagesChannelMessages
    ((λ p, Message (MessageMediaDocument (Document (Location p) (Size p)))) <$> parts).

Definition sample_env (multi : bool) (file : schemas.FileOutFull) (parts : list Part)
    (parse : fallible (list range_parser.Range)) : Env :=
  {| growslice := sample_growslice;
     MultiClient := multi;
     GetAuthClient := Val ();
     Db_Find := λ id, if bool_decide (id = "f") then [file] else [];
     Parse := λ _ _, parse;
     GetChannelById := Val ();
     ChannelsGetMessages := λ _, Val (sample_messages parts);
     UploadGetFile := faithful (sample_store (size_of parts)) (λ _, sample_spare) |}.

(** A file of five bytes in a part of four bytes and a part of one *)
Definition short_file : schemas.FileOutFull :=
  {| schemas.ID := "f"; schemas.Name := "b.bin";
     schemas.MimeType := "application/octet-stream";
     schemas.Size := 5; schemas.Parts := Some [1; 2] |}.

Definition short_parts : list Part := [sample_part 1 4; sample_part 2 1].

(** ** Sample data of the file handlers *)

(** Upper and lower case of the letters of ASCII *)
Definition sample_upper (a : ascii) : ascii :=
  let n := Z.of_N (N_of_ascii a) in
  if bool_decide (97 ≤ n ≤ 122) then ascii_of_N (Z.to_N (n - 32)) else a.

Definition sample_lower (a : ascii) : ascii :=
  let n := Z.of_N (N_of_ascii a) in
  if bool_decide (65 ≤ n ≤ 90) then ascii_of_N (Z.to_N (n + 32)) else a.

Fixpoint sample_ToUpper (s : string) : string :=
  match s with
  | EmptyString => EmptyString
  | String a s => String (sample_upper a) (sample_ToUpper s)
  end.

(** [sizeBytes] becomes [size_bytes] *)
Fixpoint sample_CamelToSnake (s : string) : string :=
  match s with
  | EmptyString => EmptyString
  | String a s =>
    if bool_decide (sample_lower a = a) then String a (sample_CamelToSnake s)
    else String "_" (String (sample_lower a) (sample_CamelToSnake s))
  end.

(** [name] becomes [Name] *)
Definition sample_CamelToPascalCase (s : string) : string :=
  match s with
  | EmptyString => EmptyString
  | String a s => String (sample_upper a) s
  end.

(** The spaces at both ends are dropped *)
Fixpoint sample_trim_left (s : list ascii) : list ascii :=
  match s with
  | a :: s' => if bool_decide (a = " "%char) then sample_trim_left s' else s
  | [] => []
  end.

Definition sample_TrimSpace (s : string) : string :=
  String.string_of_list_ascii
    (reverse (sample_trim_left (reverse (sample_trim_left (String.list_ascii_of_string s))))).

(** Decimal numerals without a sign *)
Fixpoint sample_digits (acc : Z) (s : string) : option Z :=
  match s with
  | EmptyString => Some acc
  | String a s =>
    let n := Z.of_N (N_of_ascii a) in
    if bool_decide (48 ≤ n ≤ 57) then sample_digits (10 * acc + (n - 48)) s else None
  end.

Definition sample_Atoi (s : string) : Z * option string :=
  match s with
  | EmptyString => (0, Some "invalid syntax")
  | _ => match sample_digits 0 s with
         | Some n => (n, None)
         | None => (0, Some "invalid syntax")
         end
  end.

(** The standard base64 encoding, with padding *)
Definition base64_alphabet : list ascii :=
  String.list_ascii_of_string "ABCDEFGHIJKLMNOPQRSTUVWXYZabcdefghijklmnopqrstuvwxyz0123456789+/".

Definition base64_digit (n : Z) : ascii :=
  default "="%char (base64_alphabet !! Z.to_nat n).

Definition base64_value (a : ascii) : option Z :=
  (λ found : nat * ascii, Z.of_nat found.1) <$> list_find (λ b, b = a) base64_alphabet.

Fixpoint base64_encode (l : list Z) : list ascii :=
  match l with
  | [] => []
  | [a] => [base64_digit (a / 4); base64_digit (a `mod` 4 * 16); "="%char; "="%char]
  | [a; b] =>
    [base64_digit (a / 4); base64_digit (a `mod` 4 * 16 + b / 16);
     base64_digit (b `mod` 16 * 4); "="%char]
  | a :: b :: c :: l =>
    base64_digit (a / 4) :: base64_digit (a `mod` 4 * 16 + b / 16)
    :: base64_digit (b `mod` 16 * 4 + c / 64) :: base64_digit (c `mod` 64)
    :: base64_encode l
  end.

Fixpoint base64_decode (l : list ascii) : option (list Z) :=
  match l with
  | [] => Some []
  | a :: b :: c :: d :: l =>
    x ← base64_value a;
    y ← base64_value b;
    if bool_decide (c = "="%char) then
      if bool_decide (d = "="%char ∧ l = []) then Some [x * 4 + y / 16] else None
    else
      z ← base64_value c;
      if bool_decide (d = "="%char) then
        if bool_decide (l = []) then Some [x * 4 + y / 16; y `mod` 16 * 16 + z / 4]
        else None
      else
        t ← base64_value d;
        rest ← base64_decode l;
        Some (x * 4 + y / 16 :: y `mod` 16 * 16 + z / 4 :: z `mod` 4 * 64 + t :: rest)
  | _ => None
  end.

Definition sample_EncodeToString (s : string) : string :=
  String.string_of_list_ascii
    (base64_encode ((λ a, Z.of_N (N_of_ascii a)) <$> String.list_ascii_of_string s)).

Definition sample_DecodeString (s : string) : fallible string :=
  match base64_decode (String.list_ascii_of_string s) with
  | Some l => Val (String.string_of_list_ascii ((λ n, ascii_of_N (Z.to_N n)) <$> l))
  | None => Err "illegal base64 data"
  end.

(** The fields [Name] and [Size] by reflection; any other name panics *)
Definition sample_GetField (file : FileOut.t) (field : string) : result string :=
  if bool_decide (field = "Name") then Ok (FileOut.Name file)
  else if bool_decide (field = "Size") then Ok (pretty (FileOut.Size file))
  else Panic "reflect: call of reflect.Value.Interface on zero Value".

Definition sample_Decode (fileQuery : FileQuery.t) : fallible (gmap string Value) :=
  Val {[ "op" := VString (FileQuery.Op fileQuery);
         "status" := VString (FileQuery.Status fileQuery);
         "user_id" := VInt (FileQuery.UserId fileQuery);
         "path" := VString (FileQuery.Path fileQuery);
         "updated_at" := VNil ]}.

Definition sample_lib : Lib :=
  {| TrimSpace := sample_TrimSpace;
     ToUpper := sample_ToUpper;
     Atoi := sample_Atoi;
     CamelToSnake := sample_CamelToSnake;
     CamelToPascalCase := sample_CamelToPascalCase;
     GetField := sample_GetField;
     EncodeToString := sample_EncodeToString;
     DecodeString := sample_DecodeString;
     Decode := sample_Decode |}.

(** The folder [/a] of user 7, in the root folder *)
Definition sample_dir : File.t :=
  {| File.ID := "d1"; File.Name := "a"; File.Type_ := "folder";
     File.MimeType := "drive/folder"; File.Path := "/a"; File.Size := 0;
     File.Starred := Some false; File.Depth := Some 1; File.UserID := 7;
     File.ParentID := "root"; File.Parts := None; File.ChannelID := None;
     File.Status := "active"; File.UpdatedAt := 1 |}.

(** A row as the data base stores it: with an id and a time of its own *)
Definition sample_stored (id : string) (time : Z) (file : File.t) : File.t :=
  {| File.ID := id; File.Name := File.Name file; File.Type_ := File.Type_ file;
     File.MimeType := File.MimeType file; File.Path := File.Path file;
     File.Size := File.Size file; File.Starred := File.Starred file;
     File.Depth := File.Depth file; File.UserID := File.UserID file;
     File.ParentID := File.ParentID file; File.Parts := File.Parts file;
     File.ChannelID := File.ChannelID file; File.Status := File.Status file;
     File.UpdatedAt := time |}.

(** A data base that knows the folder [/a], cannot be reached for the path
    [/down], and answers every listing with the first rows of [rows] *)
Definition sample_db (rows : list FileOut.t) : Db :=
  {| First_folder := λ path,
       if bool_decide (path = "/a") then Found sample_dir else ErrRecordNotFound;
     First_path := λ path,
       if bool_decide (path = "/a") then Found sample_dir
       else if bool_decide (path = "/down") then ErrOther "connection refused"
       else ErrRecordNotFound;
     Create := λ file, Val (sample_stored "n1" 2 file);
     update_folder := λ id name,
       if bool_decide (id = "d1")
       then Val [sample_stored "d1" 3
                   {| File.ID := "d1"; File.Name := name; File.Type_ := "folder";
                      File.MimeType := "drive/folder"; File.Path := "/" +:+ name;
                      File.Size := 0; File.Starred := Some false; File.Depth := Some 1;
                      File.UserID := 7; File.ParentID := "root"; File.Parts := None;
                      File.ChannelID := None; File.Status := "active";
                      File.UpdatedAt := 1 |}]
       else Val [];
     Updates := λ id file,
       if bool_decide (id = "d1") then Val [sample_stored "d1" 3 file] else Val [];
     UpdateColumn := λ _ _, Val ();
     delete_files := λ _, Val ();
     Find := λ query, take (Z.to_nat (limit query)) rows |}.

(** A request of user 7 on the file [d1]: the payloads are given, the
    query string sets [perPage], [sort], [order] and [op] *)
Definition sample_context (fileIn : fallible FileIn.t)
    (operation : fallible FileOperation.t) (perPage : Z) (sort order op : string)
    : gin_Context :=
  {| jwtUser := Some {| Subject := "7" |};
     Param_fileID := "d1";
     ShouldBindJSON_FileIn := fileIn;
     ShouldBindJSON_FileOperation := operation;
     ShouldBindQuery_Pagination := λ preset,
       Val (PaginationQuery.mk perPage (PaginationQuery.NextPageToken preset));
     ShouldBindQuery_Sorting := λ _, Val (SortingQuery.mk sort order);
     ShouldBindQuery_File := λ preset,
       Val (FileQuery.mk op (FileQuery.Status preset) (FileQuery.UserId preset)
              "/a" "report") |}.

(** The payload of a new entry named [name] of type [type] under [path];
    the client claims the owner 99 and the status [deleted] *)
Definition sample_payload (name type path : string) : FileIn.t :=
  {| FileIn.Name := name; FileIn.Type_ := type; FileIn.MimeType := "text/plain";
     FileIn.Path := path; FileIn.Size := 12; FileIn.Starred := Some true;
     FileIn.Depth := None; FileIn.UserID := 99; FileIn.ParentID := "p9";
     FileIn.Parts := Some [1; 2]; FileIn.ChannelID := None;
     FileIn.Status := "deleted" |}.

(** Three files of the folder [/a] *)
Definition sample_row (id name : string) (size : Z) : FileOut.t :=
  {| FileOut.ID := id; FileOut.Name := name; FileOut.Type_ := "file";
     FileOut.MimeType := "text/plain"; FileOut.Path := EmptyString;
     FileOut.Size := size; FileOut.Starred := Some false; FileOut.ParentID := "d1";
     FileOut.UpdatedAt := 1 |}.

Definition sample_rows : list FileOut.t :=
  [sample_row "f1" "alpha" 10; sample_row "f2" "beta" 20; sample_row "f3" "gamma" 30].

(** ** Arithmetic *)

Lemma ceil_div_succ (a b : Z) : 0 < b → ceil_div (a + 1) b = a / b + 1.
Proof.
  intros Hb. unfold ceil_div.
  assert (Hq : (- (a + 1)) / b = - (a / b + 1)); [|lia].
  symmetry. apply (Z.div_unique_pos _ _ _ (b - 1 - a `mod` b)).
  - pose proof (Z.mod_pos_bound a b Hb). lia.
  - pose proof (Z.div_mod a b). lia.
Qed.

Lemma ceil_div_inexact (a b : Z) : 0 < b → a `mod` b ≠ 0 → ceil_div a b = a / b + 1.
Proof.
  intros Hb Hr. unfold ceil_div.
  assert (Hq : (- a) / b = - (a / b + 1)); [|lia].
  symmetry. apply (Z.div_unique_pos _ _ _ (b - a `mod` b)).
  - pose proof (Z.mod_pos_bound a b Hb). lia.
  - pose proof (Z.div_mod a b). lia.
Qed.

Lemma rem_mod (a b : Z) : 0 ≤ a → 0 < b → Z.rem a b = a `mod` b.
Proof. intros. apply Z.rem_mod_nonneg; lia. Qed.

Lemma offset0_aligned (start U : Z) :
  0 ≤ start → 0 < U → offset0 start U = U * (start / U).
Proof.
  intros. unfold offset0. rewrite rem_mod by done.
  pose proof (Z.div_mod start U). lia.
Qed.

Lemma firstPartCut_mod (start U : Z) :
  0 ≤ start → 0 < U → firstPartCut start U = start - U * (start / U).
Proof. intros. unfold firstPartCut. rewrite offset0_aligned by done. lia. Qed.

Lemma lastPartCut_mod (end_ U : Z) :
  0 ≤ end_ → 0 < U → lastPartCut end_ U = end_ - U * (end_ / U) + 1.
Proof.
  intros. unfold lastPartCut. rewrite rem_mod by done.
  pose proof (Z.div_mod end_ U). lia.
Qed.

Lemma partCount_blocks (start end_ U : Z) :
  0 ≤ start → 0 < U → partCount start end_ U = end_ / U - start / U + 1.
Proof.
  intros. unfold partCount, floor_div.
  rewrite ceil_div_succ, offset0_aligned by done.
  replace (U * (start / U)) with ((start / U) * U) by lia.
  rewrite Z.div_mul by lia. lia.
Qed.

Lemma div_le_blocks (start end_ U : Z) : 0 < U → start ≤ end_ → start / U ≤ end_ / U.
Proof. intros. apply Z.div_le_mono; lia. Qed.

(** ** Slices of blocks *)

Lemma slice_Ok {A} (s : Slice A) (lo hi : Z) :
  0 ≤ lo → lo ≤ hi → hi ≤ cap s →
  slice s lo hi = Ok (take (Z.to_nat (hi - lo)) (drop (Z.to_nat lo) (elems s ++ room s))).
Proof. intros. unfold slice. by rewrite bool_decide_eq_true_2. Qed.

Lemma slice_Panic {A} (s : Slice A) (lo hi : Z) :
  ¬ (0 ≤ lo ∧ lo ≤ hi ∧ hi ≤ cap s) → slice s lo hi = Panic slice_out_of_range.
Proof. intros. unfold slice. by rewrite bool_decide_eq_false_2. Qed.

Lemma len_nonneg {A} (s : list A) : 0 ≤ len s.
Proof. unfold len. lia. Qed.

Lemma empty_len {A} (s : list A) : bool_decide (len s = 0) = bool_decide (s = []).
Proof. apply bool_decide_ext. unfold len. destruct s; simpl; split; (done || lia). Qed.

(** [s[lo:]] within the length is a suffix of the elements. *)
Lemma slice_from_Ok {A} (s : Slice A) (lo : Z) :
  0 ≤ lo ≤ len (elems s) → slice_from s lo = Ok (drop (Z.to_nat lo) (elems s)).
Proof.
  intros Hlo. unfold slice_from.
  rewrite slice_Ok by (unfold cap; pose proof (len_nonneg (room s)); lia).
  f_equal. unfold len in *. rewrite drop_app_le by lia.
  rewrite take_app_le by (rewrite length_drop; lia).
  apply take_ge. rewrite length_drop. lia.
Qed.

(** The block that [streamFilePart] takes from [chunk] *)
Lemma chunk_block (api : API) (part : Part) (U k : Z) :
  match chunk api part (U * k) U with
  | Val b => b
  | Err _ => nil_slice
  end = block api part U k.
Proof. unfold chunk, block, request. by destruct (api _) as [[b| ]|]. Qed.

Section part_stream.
Context (api : API) (part : Part) (start end_ U : Z).
Context (HU : 0 < U) (Hstart : 0 ≤ start) (Hend : start ≤ end_).

Local Abbreviation first := (start / U).
Local Abbreviation last := (end_ / U).

Lemma blocks_ordered : first ≤ last.
Proof. by apply div_le_blocks. Qed.

Lemma first_cut_bounds : 0 ≤ firstPartCut start U < U.
Proof.
  rewrite firstPartCut_mod by done.
  pose proof (Z.div_mod start U). pose proof (Z.mod_pos_bound start U HU). lia.
Qed.

Lemma last_cut_bounds : 0 < lastPartCut end_ U ≤ U.
Proof.
  rewrite lastPartCut_mod by lia.
  pose proof (Z.div_mod end_ U). pose proof (Z.mod_pos_bound end_ U HU). lia.
Qed.

Lemma cuts_ordered : first = last → firstPartCut start U < lastPartCut end_ U.
Proof. intros Heq. rewrite firstPartCut_mod, lastPartCut_mod, Heq by lia. lia. Qed.

(** A block after the first one begins after [start]. *)
Lemma later_block (k : Z) : first < k → start - U * k < 0.
Proof.
  intros Hk. pose proof (Z.div_mod start U). pose proof (Z.mod_pos_bound start U HU).
  nia.
Qed.

(** The chain of [else if] of the source, told by block number *)
Lemma trim_fits (k : Z) (r : Slice Byte.byte) :
  first ≤ k ≤ last → fits start end_ U k r →
  trim start end_ U (k - first + 1) r = Ok (cut start end_ U k r).
Proof.
  intros Hk Hfit. unfold trim, cut, fits, window in *.
  rewrite partCount_blocks by lia.
  pose proof first_cut_bounds as Hf. pose proof last_cut_bounds as Hl.
  pose proof cuts_ordered as Ho. pose proof (later_block k) as Hlater.
  rewrite firstPartCut_mod in * by lia. rewrite lastPartCut_mod in * by lia.
  pose proof (len_nonneg (elems r)).
  repeat case_bool_decide; try lia.
  - rewrite slice_Ok by lia. do 2 f_equal; [lia|f_equal; lia].
  - unfold slice_to. rewrite slice_Ok by lia. do 2 f_equal; [lia|f_equal; lia].
  - rewrite slice_from_Ok by lia. do 2 f_equal. lia.
  - f_equal. replace (Z.to_nat (Z.max (start - U * k) 0)) with 0%nat by lia. done.
Qed.

Lemma trim_unfit (k : Z) (r : Slice Byte.byte) :
  first ≤ k ≤ last → ¬ fits start end_ U k r →
  trim start end_ U (k - first + 1) r = Panic slice_out_of_range.
Proof.
  intros Hk Hn. unfold trim, fits in *.
  rewrite partCount_blocks by lia.
  pose proof first_cut_bounds as Hf. pose proof last_cut_bounds as Hl.
  pose proof cuts_ordered as Ho. pose proof (later_block k) as Hlater.
  rewrite firstPartCut_mod in * by lia. rewrite lastPartCut_mod in * by lia.
  pose proof (len_nonneg (elems r)).
  repeat case_bool_decide; try lia.
  - apply slice_Panic. lia.
  - apply slice_Panic. lia.
  - apply slice_Panic. lia.
Qed.

(** The loop of the source meets the expected blocks from number [k]
    on, one per iteration, and [m + 1] iterations are enough for them. *)
Lemma loop_replay (m : nat) (k : Z) :
  first ≤ k → k + Z.of_nat m = last →
  loop api part start end_ U (S m) (U * k) (k - first + 1)
  = replay part start end_ U
      ((λ j, (j, block api part U j)) <$> seqZ k (Z.of_nat m + 1)).
Proof.
  revert k. induction m as [|m IH]; intros k Hk Hm.
  - rewrite seqZ_cons by lia. simpl seqZ. cbn [fmap list_fmap replay loop].
    rewrite chunk_block, empty_len. fold (request part U k).
    case_bool_decide as Hnil; [done|].
    destruct (decide (fits start end_ U k (block api part U k))) as [Hfit|Hfit].
    + rewrite (bool_decide_eq_true_2 _ Hfit), trim_fits by (done || lia).
      rewrite (bool_decide_eq_true_2 (_ > _)); [|rewrite partCount_blocks by lia; lia].
      by rewrite seqZ_nil by lia.
    + by rewrite (bool_decide_eq_false_2 _ Hfit), trim_unfit by (done || lia).
  - rewrite seqZ_cons by lia. cbn [fmap list_fmap replay].
    change (loop api part start end_ U (S (S m)) (U * k) (k - first + 1))
      with (let fetch := Fetch (request part U k) in
            let r := match chunk api part (U * k) U with
                     | Val b => b
                     | Err _ => nil_slice
                     end in
            if bool_decide (len (elems r) = 0) then ([fetch], Returned)
            else match trim start end_ U (k - first + 1) r with
                 | Panic why => ([fetch], Panicked why)
                 | Ok r =>
                   if bool_decide (k - first + 1 + 1 > partCount start end_ U)
                   then ([fetch; Write r], Returned)
                   else let '(evs, e) :=
                          loop api part start end_ U (S m) (U * k + U) (k - first + 1 + 1) in
                        (fetch :: Write r :: evs, e)
                 end).
    cbv zeta. rewrite chunk_block, empty_len.
    case_bool_decide as Hnil; [done|].
    destruct (decide (fits start end_ U k (block api part U k))) as [Hfit|Hfit].
    + rewrite (bool_decide_eq_true_2 _ Hfit), trim_fits by (done || lia).
      rewrite (bool_decide_eq_false_2 (_ > _)); [|rewrite partCount_blocks by lia; lia].
      replace (U * k + U) with (U * Z.succ k) by lia.
      replace (k - first + 1 + 1) with (Z.succ k - first + 1) by lia.
      rewrite IH by lia.
      by replace (Z.pred (Z.of_nat (S m) + 1)) with (Z.of_nat m + 1) by lia.
    + by rewrite (bool_decide_eq_false_2 _ Hfit), trim_unfit by (done || lia).
Qed.

(** A part stream is the replay of its expected blocks. *)
Lemma streamFilePart_replay :
  streamFilePart api part start end_ U
  = replay part start end_ U (expected api part start end_ U).
Proof.
  pose proof blocks_ordered.
  unfold streamFilePart, expected.
  rewrite bool_decide_eq_false_2 by lia.
  rewrite partCount_blocks, offset0_aligned by lia.
  replace (last - first + 1) with (Z.of_nat (Z.to_nat (last - first)) + 1) at 2 by lia.
  rewrite <- loop_replay by lia.
  f_equal; lia.
Qed.
End part_stream.

(** ** Termination *)

(** The fuel that [streamFilePart] gives its loop is enough, whatever the
    arguments. *)
Lemma loop_total (api : API) (part : Part) (start end_ U : Z)
    (fuel : nat) (offset currentPart : Z) :
  (0 < fuel)%nat → partCount start end_ U - currentPart < Z.of_nat fuel →
  (loop api part start end_ U fuel offset currentPart).2 ≠ OutOfFuel.
Proof.
  revert offset currentPart.
  induction fuel as [|fuel IH]; intros offset currentPart Hpos Hfuel; [lia|].
  cbn [loop]. case_bool_decide; [done|].
  destruct (trim _ _ _ _ _) as [r|why]; [|done].
  case_bool_decide as Hmore; [done|].
  specialize (IH (offset + U) (currentPart + 1) ltac:(lia) ltac:(lia)).
  by destruct (loop api part start end_ U fuel (offset + U) (currentPart + 1)).
Qed.

Lemma streamFilePart_total (api : API) (part : Part) (start end_ U : Z) :
  (streamFilePart api part start end_ U).2 ≠ OutOfFuel.
Proof.
  unfold streamFilePart. case_bool_decide; [done|].
  apply loop_total; lia.
Qed.

Lemma producer_at_total (unit : Z) (api : API) (parts : list Part) :
  (producer_at unit api parts).2 ≠ OutOfFuel.
Proof.
  induction parts as [|part parts IH]; [done|].
  cbn [producer_at].
  pose proof (streamFilePart_total api part (Start part) (End part) unit) as Htotal.
  destruct (streamFilePart api part (Start part) (End part) unit) as [evs [|why|]];
    [|done..].
  by destruct (producer_at unit api parts).
Qed.

(** ** Replays *)

Section replay.
Context (part : Part) (start end_ U : Z).

Local Abbreviation good := (λ kr : Z * Slice Byte.byte, elems kr.2 ≠ [] ∧ fits start end_ U kr.1 kr.2).
Local Abbreviation steps :=
  (λ kr : Z * Slice Byte.byte, [Fetch (request part U kr.1); Write (cut start end_ U kr.1 kr.2)]).

(** Blocks that are neither empty nor too short are all fetched, cut
    and written. *)
Lemma replay_good (blocks : list (Z * Slice Byte.byte)) :
  Forall good blocks →
  replay part start end_ U blocks = (blocks ≫= steps, Returned).
Proof.
  induction 1 as [|[k r] blocks [Hne Hfit] _ IH]; [done|].
  cbn [replay]. simpl in Hne, Hfit.
  rewrite bool_decide_eq_false_2, bool_decide_eq_true_2, IH by done.
  done.
Qed.

(** An empty block ends the stream where it stands. *)
Lemma replay_empty (pre post : list (Z * Slice Byte.byte)) (k : Z) (spare : bytes) :
  Forall good pre →
  replay part start end_ U (pre ++ (k, mkSlice [] spare) :: post)
  = ((pre ≫= steps) ++ [Fetch (request part U k)], Returned).
Proof.
  induction 1 as [|[j r] pre [Hne Hfit] _ IH]; [done|].
  cbn [replay app]. simpl in Hne, Hfit.
  rewrite bool_decide_eq_false_2, bool_decide_eq_true_2, IH by done.
  done.
Qed.

(** A replay never runs out of fuel. *)
Lemma replay_ending (blocks : list (Z * Slice Byte.byte)) :
  (replay part start end_ U blocks).2 = Returned ∨
  (replay part start end_ U blocks).2 = Panicked slice_out_of_range.
Proof.
  induction blocks as [|[k r] blocks IH]; [by left|].
  cbn [replay]. repeat case_bool_decide; [by left| |by right].
  destruct (replay part start end_ U blocks). done.
Qed.

(** A replay returns exactly when the blocks it slices are long enough. *)
Lemma replay_Returned (blocks : list (Z * Slice Byte.byte)) :
  (replay part start end_ U blocks).2 = Returned ↔ sound start end_ U blocks.
Proof.
  induction blocks as [|[k r] blocks IH]; [done|].
  cbn [replay sound]. repeat case_bool_decide.
  - split; [by left|done].
  - destruct (replay part start end_ U blocks) as [evs e]. simpl in *.
    rewrite IH. split; [by right|]. by intros [?|[_ ?]].
  - split; [done|]. by intros [?|[? _]].
Qed.
End replay.

Lemma fetches_steps (part : Part) (start end_ U : Z) (blocks : list (Z * Slice Byte.byte)) :
  fetches (blocks ≫= λ kr, [Fetch (request part U kr.1); Write (cut start end_ U kr.1 kr.2)])
  = (λ kr, request part U kr.1) <$> blocks.
Proof. induction blocks as [|[k r] blocks IH]; [done|]. simpl. by f_equal. Qed.

Lemma writes_steps (part : Part) (start end_ U : Z) (blocks : list (Z * Slice Byte.byte)) :
  writes (blocks ≫= λ kr, [Fetch (request part U kr.1); Write (cut start end_ U kr.1 kr.2)])
  = (λ kr, cut start end_ U kr.1 kr.2) <$> blocks.
Proof. induction blocks as [|[k r] blocks IH]; [done|]. simpl. by f_equal. Qed.

Lemma fetches_app (evs evs' : list Event) : fetches (evs ++ evs') = fetches evs ++ fetches evs'.
Proof. apply omap_app. Qed.

Lemma writes_app (evs evs' : list Event) : writes (evs ++ evs') = writes evs ++ writes evs'.
Proof. apply omap_app. Qed.

Lemma emitted_app (evs evs' : list Event) : emitted (evs ++ evs') = emitted evs ++ emitted evs'.
Proof. unfold emitted. by rewrite writes_app, concat_app. Qed.

Lemma emitted_Fetch (req : UploadGetFileRequest) (evs : list Event) :
  emitted (Fetch req :: evs) = emitted evs.
Proof. done. Qed.

Lemma emitted_Write (b : bytes) (evs : list Event) :
  emitted (Write b :: evs) = b ++ emitted evs.
Proof. done. Qed.

Lemma len_app {A} (s t : list A) : len (s ++ t) = len s + len t.
Proof. unfold len. rewrite length_app. lia. Qed.

Lemma Forall_expected (P : Z → Slice Byte.byte → Prop) (api : API) (part : Part) (start end_ U : Z) :
  (∀ k, start / U ≤ k ≤ end_ / U → P k (block api part U k)) →
  Forall (λ kr, P kr.1 kr.2) (expected api part start end_ U).
Proof.
  intros HP. unfold expected. apply Forall_fmap, Forall_forall.
  intros k [? ?]%elem_of_seqZ. simpl. apply HP. lia.
Qed.

(** ** The requests of a part stream, whatever the remote end returns *)

Lemma offset0_quot (start U : Z) : offset0 start U = U * (start ÷ U).
Proof. unfold offset0. pose proof (Z.quot_rem' start U). lia. Qed.

Lemma requests_cons (part : Part) (U k : Z) (n : nat) :
  request part U <$> seqZ k (Z.of_nat (S n))
  = request part U k :: (request part U <$> seqZ (k + 1) (Z.of_nat n)).
Proof.
  rewrite seqZ_cons by lia. rewrite fmap_cons.
  replace (Z.pred (Z.of_nat (S n))) with (Z.of_nat n) by lia.
  by replace (Z.succ k) with (k + 1) by lia.
Qed.

Lemma loop_fetches (api : API) (part : Part) (start end_ U : Z)
    (fuel : nat) (k currentPart : Z) :
  let evs := (loop api part start end_ U fuel (U * k) currentPart).1 in
  fetches evs = request part U <$> seqZ k (len (fetches evs)) ∧
  len (fetches evs) ≤ Z.of_nat fuel ∧
  len (writes evs) ≤ len (fetches evs) ≤ len (writes evs) + 1.
Proof.
  revert k currentPart. induction fuel as [|fuel IH]; intros k currentPart.
  { cbn. unfold len. simpl. split; [done|lia]. }
  cbn [loop]. fold (request part U k).
  case_bool_decide.
  { cbn. unfold len. simpl. split; [done|lia]. }
  destruct (trim _ _ _ _ _) as [r|why].
  2: { cbn. unfold len. simpl. split; [done|lia]. }
  case_bool_decide.
  { cbn. unfold len. simpl. split; [done|lia]. }
  specialize (IH (k + 1) (currentPart + 1)).
  replace (U * (k + 1)) with (U * k + U) in IH by lia.
  destruct (loop api part start end_ U fuel (U * k + U) (currentPart + 1)) as [evs e].
  cbn [fst] in *. destruct IH as (Hreq & Hfuel & Hwrites).
  change (fetches (Fetch (request part U k) :: Write r :: evs))
    with (request part U k :: fetches evs).
  change (writes (Fetch (request part U k) :: Write r :: evs))
    with (r :: writes evs).
  unfold len in *. cbn [length].
  split; [|lia].
  rewrite requests_cons. f_equal. exact Hreq.
Qed.

(** A part stream starts with a fetch. *)
Lemma streamFilePart_starts (api : API) (part : Part) (start end_ U : Z) :
  U ≠ 0 →
  ∃ req evs, (streamFilePart api part start end_ U).1 = Fetch req :: evs.
Proof.
  intros HU. unfold streamFilePart. rewrite bool_decide_eq_false_2 by done.
  destruct (Z.to_nat (Z.max (partCount start end_ U) 1)) as [|fuel] eqn:Hfuel; [lia|].
  cbn [loop]. case_bool_decide; [by eexists _, _|].
  destruct (trim _ _ _ _ _); [|by eexists _, _].
  case_bool_decide; [by eexists _, _|].
  destruct (loop _ _ _ _ _ _ _ _). by eexists _, _.
Qed.

(** A prefix of good blocks is written, and the replay goes on behind
    it. *)
Lemma replay_app (part : Part) (start end_ U : Z) (pre post : list (Z * Slice Byte.byte)) :
  Forall (λ kr, elems kr.2 ≠ [] ∧ fits start end_ U kr.1 kr.2) pre →
  replay part start end_ U (pre ++ post)
  = ((pre ≫= λ kr, [Fetch (request part U kr.1); Write (cut start end_ U kr.1 kr.2)])
     ++ (replay part start end_ U post).1,
     (replay part start end_ U post).2).
Proof.
  induction 1 as [|[j r] pre [Hne Hfit] _ IH].
  - simpl. by destruct (replay part start end_ U post).
  - cbn [replay app]. simpl in Hne, Hfit.
    rewrite bool_decide_eq_false_2, bool_decide_eq_true_2, IH by done.
    done.
Qed.

(** Every replay of a block begins with the request for it. *)
Lemma replay_starts (part : Part) (start end_ U k : Z) (r : Slice Byte.byte)
    (blocks : list (Z * Slice Byte.byte)) :
  ∃ evs, (replay part start end_ U ((k, r) :: blocks)).1 = Fetch (request part U k) :: evs.
Proof.
  cbn [replay]. repeat case_bool_decide; [by eexists| |by eexists].
  destruct (replay part start end_ U blocks). by eexists.
Qed.

(** ** The fetches of a part stream *)

Lemma quot_div (a b : Z) : 0 ≤ a → 0 < b → a ÷ b = a / b.
Proof. intros. apply Z.quot_div_nonneg; lia. Qed.

(** C3, amended.  For a part stream over [[start, end_]] with
    [0 <= start <= end_] and a transfer unit [U > 0], let
    [n = ceil((end_+1)/U) - floor(start/U)].  Whatever the remote end
    returns, the stream issues between one and [n] fetches, and they are
    the requests for [U] bytes at the offsets [floor(start/U) * U],
    [floor(start/U) * U + U] and so on, in steps of [U].  When no expected
    block comes back empty and every one reaches far enough for its slice
    (the first block has the bytes before [start]; the array of the last
    expected block has room for the byte [end_]), the stream returns, the
    number of fetches is [n], and what is written for each block is: the
    bytes of the block from [start] on for the first block, the bytes of
    the array up to [end_] for the last expected one, the bytes of the
    array from [start] to [end_] for a block that is both, and the whole
    block for any other. *)
Theorem streamFilePart_aligned_fetches (api : API) (part : Part) (start end_ U : Z) :
  0 < U → 0 ≤ start → start ≤ end_ →
  let n := end_ / U - start / U + 1 in
  let run := streamFilePart api part start end_ U in
  n = ceil_div (end_ + 1) U - floor_div start U ∧
  (∃ m, 1 ≤ m ≤ n ∧
        fetches run.1
        = (λ k, {| Offset := U * k; Limit := U; ReqLocation := Location part |})
            <$> seqZ (start / U) m) ∧
  ((∀ k, start / U ≤ k ≤ end_ / U →
         elems (block api part U k) ≠ [] ∧ fits start end_ U k (block api part U k)) →
   run.2 = Returned ∧
   len (fetches run.1) = n ∧
   writes run.1
   = (λ k, let r := block api part U k in
           if bool_decide (k = end_ / U)
           then take (Z.to_nat (end_ - Z.max start (U * k) + 1))
                     (drop (Z.to_nat (Z.max start (U * k) - U * k)) (elems r ++ room r))
           else drop (Z.to_nat (Z.max start (U * k) - U * k)) (elems r))
       <$> seqZ (start / U) n).
Proof.
  intros HU Hstart Hend n run.
  assert (Hn : n = ceil_div (end_ + 1) U - floor_div start U).
  { unfold n, floor_div. rewrite ceil_div_succ by done. lia. }
  pose proof (div_le_blocks start end_ U HU Hend) as Hle.
  split; [done|]. split.
  - subst run.
    destruct (streamFilePart_starts api part start end_ U ltac:(lia)) as (req & evs & Hfirst).
    pose proof (loop_fetches api part start end_ U
                  (Z.to_nat (Z.max (partCount start end_ U) 1)) (start / U) 1) as Hloop.
    cbv zeta in Hloop. destruct Hloop as (Hreq & Hfuel & _).
    revert Hfirst. unfold streamFilePart.
    rewrite bool_decide_eq_false_2 by lia.
    rewrite offset0_quot, quot_div by done. intros Hfirst.
    exists (len (fetches (loop api part start end_ U
                            (Z.to_nat (Z.max (partCount start end_ U) 1))
                            (U * (start / U)) 1).1)).
    split; [|exact Hreq].
    rewrite Hfirst in Hfuel |- *. rewrite partCount_blocks in Hfuel by done.
    unfold len in *. simpl in *. lia.
  - intros Hgood.
    assert (Hrun : run = (expected api part start end_ U ≫=
              (λ kr, [Fetch (request part U kr.1); Write (cut start end_ U kr.1 kr.2)]),
            Returned)).
    { unfold run. rewrite streamFilePart_replay by done.
      apply replay_good.
      by apply (Forall_expected (λ k r, elems r ≠ [] ∧ fits start end_ U k r)). }
    rewrite Hrun. cbn [fst snd].
    rewrite fetches_steps, writes_steps.
    unfold expected. rewrite <- !list_fmap_compose. fold n.
    split; [done|]. split.
    + unfold len. rewrite length_fmap, length_seqZ. lia.
    + apply list_fmap_ext. intros i k [Hlo Hhi]%lookup_seqZ. simpl.
      unfold cut, window.
      assert (Z.max (start - U * k) 0 = Z.max start (U * k) - U * k) as -> by lia.
      case_bool_decide; [|done]. do 2 f_equal. lia.
Qed.

Lemma streamFilePart_aligned_fetches_witness :
  let api := faithful (sample_store (λ _, 30)) (λ _, sample_spare) in
  let part := sample_part 1 30 in
  let run := streamFilePart api part 5 25 10 in
  3 = ceil_div (25 + 1) 10 - floor_div 5 10 ∧
  Offset <$> fetches run.1 = [0; 10; 20] ∧
  run.2 = Returned ∧
  len <$> writes run.1 = [5; 10; 6] ∧
  emitted run.1 = window (sample_store (λ _, 30) 1) 5 25.
Proof.
  destruct (streamFilePart_aligned_fetches
              (faithful (sample_store (λ _, 30)) (λ _, sample_spare))
              (sample_part 1 30) 5 25 10) as (Hn & _ & Hgood); [lia..|].
  split; [exact Hn|].
  destruct Hgood as (Hret & _ & Hwrites).
  - intros k Hk.
    assert (Hcases : k = 0 ∨ k = 1 ∨ k = 2).
    { change (5 / 10) with 0 in Hk. change (25 / 10) with 2 in Hk. lia. }
    destruct Hcases as [Hk0|[Hk0|Hk0]]; subst k;
      (split; vm_compute; done).
  - split; [vm_compute; reflexivity|]. split; [exact Hret|].
    unfold emitted. rewrite Hwrites. split; vm_compute; reflexivity.
Defined.

(** C3, as stated, fails: the first block of the stream over [[5, 25]] by
    units of [10] comes back with three bytes, in an array of eight; it is
    not empty, the slice [r[5:]] panics, and one fetch was issued where the
    claim counts three. *)
Lemma streamFilePart_short_first_block :
  let api := constant_api (mkSlice [Byte.x61; Byte.x62; Byte.x63] sample_spare) in
  let run := streamFilePart api (sample_part 1 30) 5 25 10 in
  (∀ k, elems (block api (sample_part 1 30) 10 k) ≠ []) ∧
  run = ([Fetch (request (sample_part 1 30) 10 0)], Panicked slice_out_of_range) ∧
  len (fetches run.1) ≠ ceil_div (25 + 1) 10 - floor_div 5 10.
Proof. by vm_compute. Qed.

(** ** The slices of a part stream *)

(** [sound], told block by block: every block that is reached, because no
    block before it is empty, and that is not empty itself, reaches far
    enough. *)
Lemma sound_seqZ (start end_ U : Z) (blk : Z → Slice Byte.byte) (m : nat) (a : Z) :
  sound start end_ U ((λ k, (k, blk k)) <$> seqZ a (Z.of_nat m)) ↔
  ∀ k, a ≤ k < a + Z.of_nat m →
       (∀ j, a ≤ j < k → elems (blk j) ≠ []) →
       elems (blk k) ≠ [] → fits start end_ U k (blk k).
Proof.
  revert a. induction m as [|m IH]; intros a.
  - simpl. split; [|done]. intros _ k ?. lia.
  - rewrite seqZ_cons, fmap_cons by lia. cbn [sound].
    replace (Z.pred (Z.of_nat (S m))) with (Z.of_nat m) by lia.
    rewrite IH. split.
    + intros [Hnil|[Hfit Hrest]] k Hk Hreach Hne.
      * destruct (decide (k = a)) as [->|]; [done|].
        destruct (Hreach a); [lia|done].
      * destruct (decide (k = a)) as [->|]; [done|].
        apply Hrest; [lia| |done]. intros j Hj. apply Hreach. lia.
    + intros Hall. destruct (decide (elems (blk a) = [])) as [|Hne]; [by left|right].
      split; [apply Hall; [lia| |done]; intros j ?; lia|].
      intros k Hk Hreach Hnek. apply Hall; [lia| |done].
      intros j Hj. destruct (decide (j = a)) as [->|]; [done|].
      apply Hreach. lia.
Qed.

Lemma last_fmap_seqZ {A} (f : Z → A) (a n : Z) :
  0 < n → last (f <$> seqZ a n) = Some (f (a + n - 1)).
Proof.
  intros Hn. rewrite last_lookup, length_fmap, length_seqZ, list_lookup_fmap.
  rewrite (lookup_seqZ_lt _ _ _) by lia. simpl. f_equal. f_equal. lia.
Qed.

(** The last byte of a window that ends behind the elements of a slice is
    a byte of its room. *)
Lemma last_window_room (r : Slice Byte.byte) (from to : Z) :
  0 ≤ from ≤ to → len (elems r) ≤ to → to < cap r →
  ∃ b, last (window (elems r ++ room r) from to) = Some b ∧
       room r !! Z.to_nat (to - len (elems r)) = Some b.
Proof.
  intros Hfrom Hlen Hcap. unfold window, cap, len in *.
  destruct (lookup_lt_is_Some_2 (room r) (Z.to_nat (to - Z.of_nat (length (elems r))))
              ltac:(lia)) as [b Hb].
  exists b. split; [|done].
  rewrite last_lookup, length_take, length_drop, length_app.
  rewrite lookup_take_lt by lia. rewrite lookup_drop.
  rewrite lookup_app_r by lia. rewrite <- Hb. f_equal. lia.
Qed.

(** C10, amended.  For [0 <= start <= end_] and [U > 0], the slice
    expressions of [streamFilePart] do not panic if and only if every block
    that is fetched and not empty reaches far enough for its own slice:
    the array of the last expected block holds at least
    [lastPartCut = (end_ mod U) + 1] bytes, within the length of the block
    or behind it, and the first block, when it is not also the last, holds
    at least [firstPartCut = start mod U] bytes; the blocks in between are
    not sliced, whatever their length.  Blocks of exactly [U] bytes before
    the last expected one and a last one of at least [lastPartCut] bytes
    are therefore enough.  And for a non-empty block of fewer than
    [lastPartCut] bytes, returned for every request, the slice index passes
    the length of the block: where it also passes the capacity the stream
    panics; where it does not, and the first block is long enough, the
    stream returns, and the last byte it writes is one that lies behind the
    block in its array. *)
Theorem streamFilePart_in_bounds_iff (api : API) (part : Part) (start end_ U : Z) :
  0 < U → 0 ≤ start → start ≤ end_ →
  let run := streamFilePart api part start end_ U in
  (run.2 ≠ Panicked slice_out_of_range ↔
   ∀ k, start / U ≤ k ≤ end_ / U →
        (∀ j, start / U ≤ j < k → elems (block api part U j) ≠ []) →
        elems (block api part U k) ≠ [] →
        if bool_decide (k = end_ / U)
        then end_ `mod` U + 1 ≤ cap (block api part U k)
        else k = start / U → start `mod` U ≤ len (elems (block api part U k))) ∧
  ((∀ k, start / U ≤ k < end_ / U → len (elems (block api part U k)) = U) →
   end_ `mod` U + 1 ≤ len (elems (block api part U (end_ / U))) →
   run.2 = Returned) ∧
  (∀ r, elems r ≠ [] → len (elems r) < end_ `mod` U + 1 →
     let run' := streamFilePart (constant_api r) part start end_ U in
     (cap r < end_ `mod` U + 1 → run'.2 = Panicked slice_out_of_range) ∧
     (end_ `mod` U + 1 ≤ cap r →
      (start / U < end_ / U → start `mod` U ≤ len (elems r)) →
      run'.2 = Returned ∧
      ∃ w b, last (writes run'.1) = Some w ∧ last w = Some b ∧
             room r !! Z.to_nat (end_ `mod` U - len (elems r)) = Some b)).
Proof.
  intros HU Hstart Hend run.
  pose proof (div_le_blocks start end_ U HU Hend) as Hle.
  pose proof (Z.div_mod start U ltac:(lia)) as Hs.
  pose proof (Z.mod_pos_bound start U HU) as Hsm.
  pose proof (Z.div_mod end_ U ltac:(lia)) as He.
  pose proof (Z.mod_pos_bound end_ U HU) as Hem.
  assert (Hfits : ∀ k r, start / U ≤ k ≤ end_ / U →
    fits start end_ U k r ↔
    if bool_decide (k = end_ / U) then end_ `mod` U + 1 ≤ cap r
    else k = start / U → start `mod` U ≤ len (elems r)).
  { intros k r Hk. unfold fits. pose proof (len_nonneg (elems r)).
    case_bool_decide as Hlast; [subst k; lia|].
    split; [intros ? ->; lia|]. intros Hfirst.
    destruct (decide (k = start / U)) as [->|]; [specialize (Hfirst eq_refl); lia|nia]. }
  assert (Hiff : ∀ api',
    (streamFilePart api' part start end_ U).2 = Returned ↔
    ∀ k, start / U ≤ k ≤ end_ / U →
         (∀ j, start / U ≤ j < k → elems (block api' part U j) ≠ []) →
         elems (block api' part U k) ≠ [] →
         fits start end_ U k (block api' part U k)).
  { intros api'. rewrite streamFilePart_replay, replay_Returned by done.
    unfold expected.
    replace (end_ / U - start / U + 1)
      with (Z.of_nat (Z.to_nat (end_ / U - start / U + 1))) by lia.
    rewrite sound_seqZ.
    split; intros Hall k Hk; apply Hall; lia. }
  split; [|split].
  - etrans; [|etrans; [exact (Hiff api)|]].
    + unfold run. rewrite streamFilePart_replay by done.
      destruct (replay_ending part start end_ U (expected api part start end_ U))
        as [-> | ->]; split; done.
    + split; intros Hall k Hk Hreach Hne; apply (Hfits k _ Hk); by apply Hall.
  - intros Hfull Hlast. apply Hiff. intros k Hk _ _. apply (Hfits k _ Hk).
    case_bool_decide as Hk'.
    + subst k. unfold cap. pose proof (len_nonneg (room (block api part U (end_ / U)))). lia.
    + intros _. rewrite Hfull by lia. lia.
  - intros r Hne Hshort run'.
    assert (Hblock : ∀ k, block (constant_api r) part U k = r) by done.
    split.
    + intros Hcap.
      destruct (replay_ending part start end_ U
                  (expected (constant_api r) part start end_ U)) as [Hret|Hpanic].
      * rewrite <- streamFilePart_replay in Hret by done.
        rewrite Hiff in Hret.
        specialize (Hret (end_ / U) ltac:(lia) ltac:(done) ltac:(done)).
        apply (Hfits (end_ / U) _ ltac:(lia)) in Hret.
        rewrite Hblock, bool_decide_eq_true_2 in Hret by done. lia.
      * unfold run'. by rewrite streamFilePart_replay.
    + intros Hcap Hfirst. unfold run'.
      rewrite streamFilePart_replay by done.
      rewrite (replay_good part start end_ U).
      2: { apply (Forall_expected (λ k r, elems r ≠ [] ∧ fits start end_ U k r)).
           intros k Hk. rewrite Hblock. split; [done|].
           apply (Hfits k _ Hk). case_bool_decide; [done|]. intros ->. apply Hfirst. lia. }
      split; [done|]. cbn [fst]. rewrite writes_steps. unfold expected.
      rewrite <- list_fmap_compose, last_fmap_seqZ by lia. simpl.
      replace (start / U + (end_ / U - start / U + 1) - 1) with (end_ / U) by lia.
      rewrite Hblock. unfold cut. rewrite bool_decide_eq_true_2 by done.
      destruct (last_window_room r (Z.max (start - U * (end_ / U)) 0) (end_ - U * (end_ / U)))
        as (b & Hb & Hroom); [lia..|].
      exists (window (elems r ++ room r) (Z.max (start - U * (end_ / U)) 0)
                (end_ - U * (end_ / U))), b.
      split; [done|]. split; [done|].
      rewrite <- Hroom. do 2 f_equal. lia.
Qed.

Lemma streamFilePart_in_bounds_iff_witness :
  let api := scripted_api (λ k, sample_store (λ _, if bool_decide (k = 0) then 5 else 10) k) in
  let part := sample_part 1 30 in
  let run := streamFilePart api part 2 25 10 in
  (run.2 ≠ Panicked slice_out_of_range ↔
   ∀ k, 2 / 10 ≤ k ≤ 25 / 10 →
        (∀ j, 2 / 10 ≤ j < k → elems (block api part 10 j) ≠ []) →
        elems (block api part 10 k) ≠ [] →
        if bool_decide (k = 25 / 10)
        then 25 `mod` 10 + 1 ≤ cap (block api part 10 k)
        else k = 2 / 10 → 2 `mod` 10 ≤ len (elems (block api part 10 k))) ∧
  ((∀ k, 2 / 10 ≤ k < 25 / 10 → len (elems (block api part 10 k)) = 10) →
   25 `mod` 10 + 1 ≤ len (elems (block api part 10 (25 / 10))) →
   run.2 = Returned) ∧
  (∀ r, elems r ≠ [] → len (elems r) < 25 `mod` 10 + 1 →
     let run' := streamFilePart (constant_api r) part 2 25 10 in
     (cap r < 25 `mod` 10 + 1 → run'.2 = Panicked slice_out_of_range) ∧
     (25 `mod` 10 + 1 ≤ cap r →
      (2 / 10 < 25 / 10 → 2 `mod` 10 ≤ len (elems r)) →
      run'.2 = Returned ∧
      ∃ w b, last (writes run'.1) = Some w ∧ last w = Some b ∧
             room r !! Z.to_nat (25 `mod` 10 - len (elems r)) = Some b)).
Proof.
  apply (streamFilePart_in_bounds_iff
           (scripted_api (λ k, sample_store (λ _, if bool_decide (k = 0) then 5 else 10) k))
           (sample_part 1 30) 2 25 10); lia.
Defined.

(** C10, as stated, fails in its "only if": over [[2, 25]] by units of
    [10] the first block comes back with five bytes and the next two with
    ten; [r[2:]] and [r[:6]] stay within their blocks and the stream
    returns, yet a block before the last expected one has not exactly [10]
    bytes. *)
Lemma streamFilePart_short_block_in_bounds :
  let api := scripted_api (λ k, sample_store (λ _, if bool_decide (k = 0) then 5 else 10) k) in
  let part := sample_part 1 30 in
  (streamFilePart api part 2 25 10).2 = Returned ∧
  len <$> writes (streamFilePart api part 2 25 10).1 = [3; 10; 6] ∧
  ¬ (∀ k, 2 / 10 ≤ k < 25 / 10 → len (elems (block api part 10 k)) = 10).
Proof.
  split; [vm_compute; reflexivity|]. split; [vm_compute; reflexivity|].
  intros Hall. specialize (Hall 0).
  change (2 / 10) with 0 in Hall. change (25 / 10) with 2 in Hall.
  specialize (Hall ltac:(lia)). vm_compute in Hall. done.
Qed.

(** A block of three bytes in an array of eight, for the range [[0, 5]] by
    units of [10]: [r[0:6]] is within the capacity, the stream returns,
    and the six bytes it writes are the block and three bytes from behind
    it.  In an array of four, the same block makes the stream panic. *)
Lemma streamFilePart_behind_block :
  let r := [Byte.x61; Byte.x62; Byte.x63] in
  streamFilePart (constant_api (mkSlice r sample_spare)) (sample_part 1 30) 0 5 10
  = ([Fetch (request (sample_part 1 30) 10 0); Write (r ++ take 3 sample_spare)], Returned) ∧
  streamFilePart (constant_api (mkSlice r [Byte.x2a])) (sample_part 1 30) 0 5 10
  = ([Fetch (request (sample_part 1 30) 10 0)], Panicked slice_out_of_range).
Proof. split; vm_compute; reflexivity. Qed.

(** ** Short and empty blocks *)

Section short_reads.
Context (part : Part) (start end_ U : Z) (blk : Z → Slice Byte.byte).
Context (HU : 0 < U) (Hstart : 0 ≤ start) (Hend : start ≤ end_).
Context (Hlimit : ∀ k, len (elems (blk k)) ≤ U).

Local Abbreviation first := (start / U).
Local Abbreviation last := (end_ / U).

Lemma block_starts (k : Z) :
  first ≤ k ≤ last → U * k ≤ end_ ∧ (k = first → U * k ≤ start) ∧ (first < k → start < U * k).
Proof.
  intros Hk.
  pose proof (Z.div_mod start U ltac:(lia)). pose proof (Z.mod_pos_bound start U HU).
  pose proof (Z.div_mod end_ U ltac:(lia)). pose proof (Z.mod_pos_bound end_ U HU).
  split; [nia|]. split; [intros ->; lia|nia].
Qed.

Lemma due_first : due start end_ U first = end_ - start + 1.
Proof.
  pose proof (div_le_blocks start end_ U HU Hend).
  unfold due. destruct (block_starts first) as (_ & ? & _); lia.
Qed.

Lemma due_positive (a : Z) : first ≤ a ≤ last → 0 < due start end_ U a.
Proof. intros Ha. unfold due. destruct (block_starts a Ha) as (? & _ & _). lia. Qed.

Lemma cut_length (k : Z) :
  first ≤ k ≤ last → fits start end_ U k (blk k) →
  len (cut start end_ U k (blk k)) + (if bool_decide (k = last) then 0 else due start end_ U (k + 1))
  ≤ due start end_ U k - (if bool_decide (k = last) then 0 else U - len (elems (blk k))).
Proof.
  intros Hk Hfit. unfold cut, fits, due, window in *.
  destruct (block_starts k Hk) as (? & ? & ?).
  pose proof (Hlimit k) as Hlim.
  case_bool_decide as Hlast.
  - unfold len. rewrite length_take. lia.
  - destruct (block_starts (k + 1) ltac:(lia)) as (? & _ & ?).
    unfold len in *. rewrite length_drop. lia.
Qed.

Lemma replay_length (m : nat) (a : Z) :
  first ≤ a → a + Z.of_nat m = last + 1 → (0 < m)%nat →
  let evs := (replay part start end_ U ((λ k, (k, blk k)) <$> seqZ a (Z.of_nat m))).1 in
  len (emitted evs) ≤ due start end_ U a ∧
  ((∃ k, a ≤ k ≤ last ∧ (elems (blk k) = [] ∨ k < last ∧ len (elems (blk k)) < U)) →
   len (emitted evs) < due start end_ U a).
Proof.
  revert a. induction m as [|m IH]; intros a Ha Hm Hpos; [lia|].
  rewrite seqZ_cons, fmap_cons by lia. cbn [replay].
  replace (Z.pred (Z.of_nat (S m))) with (Z.of_nat m) by lia.
  pose proof (due_positive a ltac:(lia)) as Hdue.
  case_bool_decide as Hnil; [cbn [fst]; rewrite emitted_Fetch; change (len (emitted [])) with 0; split; [lia|intros; lia]|].
  case_bool_decide as Hfit; [|cbn [fst]; rewrite emitted_Fetch; change (len (emitted [])) with 0; split; [lia|intros; lia]].
  pose proof (cut_length a ltac:(lia) Hfit) as Hcut.
  destruct m as [|m].
  - simpl replay. cbn [fst]. rewrite emitted_Fetch, emitted_Write, len_app.
    rewrite bool_decide_eq_true_2 in Hcut by lia.
    change (len (emitted [])) with 0.
    split; [lia|]. intros (k & Hk & [Hempty|[? _]]); [|lia].
    assert (k = a) as -> by lia. done.
  - specialize (IH (Z.succ a) ltac:(lia) ltac:(lia) ltac:(lia)).
    destruct (replay part start end_ U
                ((λ k, (k, blk k)) <$> seqZ (Z.succ a) (Z.of_nat (S m)))) as [evs e].
    cbn [fst] in *. destruct IH as [IHle IHlt].
    rewrite bool_decide_eq_false_2 in Hcut by lia.
    replace (a + 1) with (Z.succ a) in Hcut by lia.
    pose proof (Hlimit a).
    rewrite emitted_Fetch, emitted_Write, len_app.
    split; [lia|].
    intros (k & Hk & Hshort).
    destruct (decide (k = a)) as [->|]; [destruct Hshort as [?|[_ ?]]; [done|lia]|].
    assert (len (emitted evs) < due start end_ U (Z.succ a)); [|lia].
    apply IHlt. exists k. split; [lia|done].
Qed.
End short_reads.

(** C8, amended.  In a part stream over [[start, end_]] with
    [0 <= start <= end_] and [U > 0], an empty fetch result, which is also
    what a failed fetch leaves, ends the stream at whatever expected block
    it occurs: the stream returns without an error, nothing is fetched after
    that block and nothing is written for it; the source does not check that
    the block is the last expected one.  A block that is not empty and
    reaches far enough for its slice, short or not, does not end the
    stream: it is cut and written, and unless it is the last expected block
    the next block is fetched.  When no block is longer than [U], the
    stream never emits more than [end_ - start + 1] bytes, and an empty
    result on any expected block, or a short one on a block before the last
    expected one, leaves the total strictly below [end_ - start + 1]: the
    short total is the only sign of the incomplete transfer. *)
Theorem streamFilePart_empty_block_ends (api : API) (part : Part) (start end_ U : Z) :
  0 < U → 0 ≤ start → start ≤ end_ →
  let run := streamFilePart api part start end_ U in
  let good := λ j, elems (block api part U j) ≠ [] ∧ fits start end_ U j (block api part U j) in
  (∀ k, start / U ≤ k ≤ end_ / U →
        (∀ j, start / U ≤ j < k → good j) →
        elems (block api part U k) = [] →
        run.2 = Returned ∧
        fetches run.1 = request part U <$> seqZ (start / U) (k - start / U + 1) ∧
        writes run.1
        = (λ j, cut start end_ U j (block api part U j)) <$> seqZ (start / U) (k - start / U)) ∧
  (∀ k, start / U ≤ k ≤ end_ / U →
        (∀ j, start / U ≤ j ≤ k → good j) →
        writes run.1 !! Z.to_nat (k - start / U)
        = Some (cut start end_ U k (block api part U k)) ∧
        (k < end_ / U →
         fetches run.1 !! Z.to_nat (k + 1 - start / U) = Some (request part U (k + 1)))) ∧
  ((∀ k, len (elems (block api part U k)) ≤ U) →
   len (emitted run.1) ≤ end_ - start + 1 ∧
   ((∃ k, start / U ≤ k ≤ end_ / U ∧
          (elems (block api part U k) = [] ∨
           k < end_ / U ∧ len (elems (block api part U k)) < U)) →
    len (emitted run.1) < end_ - start + 1)).
Proof.
  intros HU Hstart Hend run good.
  pose proof (div_le_blocks start end_ U HU Hend) as Hle.
  unfold run, good. rewrite streamFilePart_replay by done. split; [|split].
  - intros k Hk Hgood Hnil. unfold expected.
    replace (end_ / U - start / U + 1)
      with ((k - start / U) + (1 + (end_ / U - k))) by lia.
    rewrite seqZ_app, fmap_app by lia.
    rewrite (seqZ_cons _ (1 + _)), fmap_cons by lia.
    replace (start / U + (k - start / U)) with k by lia.
    destruct (block api part U k) as [e spare] eqn:Hb. simpl in Hnil. subst e.
    rewrite replay_empty.
    + cbn [fst snd]. rewrite fetches_app, writes_app, fetches_steps, writes_steps.
      rewrite <- !list_fmap_compose.
      change (writes [Fetch (request part U k)]) with (@nil bytes). rewrite app_nil_r.
      split; [done|]. split; [|done].
      rewrite (seqZ_app _ (k - start / U) 1), fmap_app by lia.
      f_equal. replace (start / U + (k - start / U)) with k by lia. done.
    + apply Forall_fmap, Forall_forall. intros j Hj%elem_of_seqZ.
      simpl. apply Hgood. lia.
  - intros k Hk Hgood. unfold expected.
    replace (end_ / U - start / U + 1)
      with ((k - start / U + 1) + (end_ / U - k)) by lia.
    rewrite seqZ_app, fmap_app by lia.
    rewrite replay_app.
    2: { apply Forall_fmap, Forall_forall. intros j Hj%elem_of_seqZ.
         simpl. apply Hgood. lia. }
    cbn [fst]. rewrite fetches_app, writes_app, fetches_steps, writes_steps.
    rewrite <- !list_fmap_compose. split.
    + rewrite lookup_app_l by (rewrite length_fmap, length_seqZ; lia).
      rewrite list_lookup_fmap, (lookup_seqZ_lt _ _ _) by lia. simpl.
      by replace (start / U + Z.of_nat (Z.to_nat (k - start / U))) with k by lia.
    + intros Hmore.
      rewrite lookup_app_r by (rewrite length_fmap, length_seqZ; lia).
      rewrite length_fmap, length_seqZ.
      replace (Z.to_nat (k + 1 - start / U) - Z.to_nat (k - start / U + 1))%nat
        with 0%nat by lia.
      rewrite seqZ_cons, fmap_cons by lia.
      replace (start / U + (k - start / U + 1)) with (k + 1) by lia.
      destruct (replay_starts part start end_ U (k + 1) (block api part U (k + 1))
                  ((λ j, (j, block api part U j))
                     <$> seqZ (Z.succ (k + 1)) (Z.pred (end_ / U - k)))) as [evs ->].
      done.
  - intros Hlimit.
    pose proof (replay_length part start end_ U (block api part U) HU Hend Hlimit
                  (Z.to_nat (end_ / U - start / U + 1)) (start / U)
                  ltac:(lia) ltac:(lia) ltac:(lia)) as Hlen.
    rewrite due_first in Hlen by done.
    rewrite Z2Nat.id in Hlen by lia. done.
Qed.

Lemma streamFilePart_empty_block_ends_witness :
  let api := scripted_api (λ k, sample_store (λ _, if bool_decide (k = 1) then 0 else 10) k) in
  let part := sample_part 1 30 in
  let run := streamFilePart api part 0 25 10 in
  let good := λ j, elems (block api part 10 j) ≠ [] ∧ fits 0 25 10 j (block api part 10 j) in
  (∀ k, 0 / 10 ≤ k ≤ 25 / 10 →
        (∀ j, 0 / 10 ≤ j < k → good j) →
        elems (block api part 10 k) = [] →
        run.2 = Returned ∧
        fetches run.1 = request part 10 <$> seqZ (0 / 10) (k - 0 / 10 + 1) ∧
        writes run.1
        = (λ j, cut 0 25 10 j (block api part 10 j)) <$> seqZ (0 / 10) (k - 0 / 10)) ∧
  (∀ k, 0 / 10 ≤ k ≤ 25 / 10 →
        (∀ j, 0 / 10 ≤ j ≤ k → good j) →
        writes run.1 !! Z.to_nat (k - 0 / 10)
        = Some (cut 0 25 10 k (block api part 10 k)) ∧
        (k < 25 / 10 →
         fetches run.1 !! Z.to_nat (k + 1 - 0 / 10) = Some (request part 10 (k + 1)))) ∧
  ((∀ k, len (elems (block api part 10 k)) ≤ 10) →
   len (emitted run.1) ≤ 25 - 0 + 1 ∧
   ((∃ k, 0 / 10 ≤ k ≤ 25 / 10 ∧
          (elems (block api part 10 k) = [] ∨
           k < 25 / 10 ∧ len (elems (block api part 10 k)) < 10)) →
    len (emitted run.1) < 25 - 0 + 1)).
Proof.
  apply (streamFilePart_empty_block_ends
           (scripted_api (λ k, sample_store (λ _, if bool_decide (k = 1) then 0 else 10) k))
           (sample_part 1 30) 0 25 10); lia.
Defined.

(** C8, as stated, fails: over [[0, 25]] by units of [10] three blocks are
    expected; the second comes back empty.  The stream takes it for the end
    of the data: it returns without an error after two fetches, and the
    third block, which the remote end holds, is never asked for. *)
Lemma streamFilePart_empty_middle_block :
  let api := scripted_api (λ k, sample_store (λ _, if bool_decide (k = 1) then 0 else 10) k) in
  let part := sample_part 1 30 in
  let run := streamFilePart api part 0 25 10 in
  partCount 0 25 10 = 3 ∧
  elems (block api part 10 1) = [] ∧
  elems (block api part 10 2) ≠ [] ∧
  run.2 = Returned ∧
  fetches run.1 = [request part 10 0; request part 10 1] ∧
  len (emitted run.1) = 10.
Proof. vm_compute. repeat split; done. Qed.

(** ** The range slicer *)

(** The example of the specification: chunk size 1000, parts of 1000,
    1000 and 500 bytes, range [[1500, 2200]]. *)
Lemma rangedParts_example :
  rangedParts
    (appended sample_growslice [sample_part 1 1000; sample_part 2 1000; sample_part 3 500])
    1500 2200
  = Ok [mkPart (sample_loc 2) 500 999 1000; mkPart (sample_loc 3) 0 200 500].
Proof. reflexivity. Qed.

(** The slice that [getParts] builds of three parts has room for a fourth,
    which holds the zero value. *)
Lemma sample_slice_room :
  sample_slice = mkSlice sample_parts [zero_Part].
Proof. reflexivity. Qed.

Lemma index_0 {A} (s : list A) (a : A) : s !! 0%nat = Some a → index s 0 = Ok a.
Proof.
  intros Ha. unfold index. rewrite bool_decide_eq_true_2 by lia.
  change (Z.to_nat 0) with 0%nat. by rewrite Ha.
Qed.

(** Where [end_] is not a multiple of the chunk size, the slicer of the
    source and the slicer of the specification are the same function. *)
Lemma rangedParts_agrees (parts : Slice Part) (p0 : Part) (start end_ : Z) :
  elems parts !! 0%nat = Some p0 → 0 < Size p0 → 0 ≤ start → 0 ≤ end_ →
  end_ `mod` Size p0 ≠ 0 →
  rangedParts parts start end_ = rangedParts_spec parts start end_.
Proof.
  intros Hp0 Hsize Hstart Hend Hrem.
  unfold rangedParts, rangedParts_spec.
  rewrite (index_0 (elems parts) p0 Hp0). cbn [mbind result_bind].
  case_bool_decide; [lia|]. unfold Max.
  rewrite !rem_mod by lia.
  rewrite (ceil_div_succ end_), (ceil_div_inexact end_) by done.
  done.
Qed.

(** C2: the claim and the source part at a range whose end is a multiple
    of the chunk size.  For the parts of 1000, 1000 and 500 bytes and the
    range [[500, 1000]] the claim selects [parts[0:2]], up to the exclusive
    index [ceil(1001/1000) = 2], with [localStart = 500] on the first and
    [localEnd = 0] on the second; [rangedParts] stops at
    [ceil(1000/1000) = 1], selects [parts[0:1]] and puts both trims on that
    one part.  This holds whatever the array of the parts holds behind
    them. *)
Theorem rangedParts_end_on_boundary (spare : list Part) :
  let parts := mkSlice [sample_part 1 1000; sample_part 2 1000; sample_part 3 500] spare in
  ceil_div (1000 + 1) 1000 = 2 ∧
  rangedParts_spec parts 500 1000
  = Ok [mkPart (sample_loc 1) 500 999 1000; mkPart (sample_loc 2) 0 0 1000] ∧
  rangedParts parts 500 1000 = Ok [mkPart (sample_loc 1) 500 0 1000].
Proof.
  assert (Hcap : 3 ≤ cap (mkSlice [sample_part 1 1000; sample_part 2 1000;
                                     sample_part 3 500] spare)).
  { unfold cap. pose proof (len_nonneg spare). simpl. unfold len at 1. simpl. lia. }
  split; [reflexivity|]. split.
  - unfold rangedParts_spec. rewrite (index_0 _ (sample_part 1 1000)) by done.
    cbn [mbind result_bind Size sample_part]. rewrite bool_decide_eq_false_2 by done.
    change (Z.max (ceil_div 500 1000 - 1) 0) with 0.
    change (ceil_div (1000 + 1) 1000) with 2.
    rewrite slice_Ok by lia. reflexivity.
  - unfold rangedParts. rewrite (index_0 _ (sample_part 1 1000)) by done.
    cbn [mbind result_bind Size sample_part]. rewrite bool_decide_eq_false_2 by done.
    change (Max (ceil_div 500 1000 - 1) 0) with 0.
    change (ceil_div 1000 1000) with 1.
    rewrite slice_Ok by lia. reflexivity.
Qed.

(** ** The pipeline at the boundaries of the parts *)

(** C1: the pipeline on a file of ten bytes in parts of 4, 4 and 2, with a
    remote end that returns the bytes asked for.  For [[0, 4]], whose end is
    the first byte of the second part, one byte is emitted instead of five.
    For [[4, 6]], whose start is the first byte of the second part, the seven
    bytes from byte 0 on are emitted instead of three.  For [[0, 0]] the
    slicer panics.  The parts are in the slice that [getParts] builds of
    them, and every block comes in an array with five bytes to spare. *)
Theorem pipeline_at_part_boundaries :
  let store := sample_store sample_sizes in
  let file := file_bytes store sample_parts in
  (∃ evs, pipeline (faithful store (λ _, sample_spare)) sample_slice 0 4 = Ok (evs, Returned) ∧
          len (emitted evs) = 1 ∧ len (window file 0 4) = 5) ∧
  (∃ evs, pipeline (faithful store (λ _, sample_spare)) sample_slice 4 6 = Ok (evs, Returned) ∧
          emitted evs = window file 0 6 ∧ emitted evs ≠ window file 4 6) ∧
  pipeline (faithful store (λ _, sample_spare)) sample_slice 0 0 = Panic index_out_of_range.
Proof.
  split; [|split].
  - eexists. split; [vm_compute; reflexivity|]. split; vm_compute; reflexivity.
  - eexists. split; [vm_compute; reflexivity|]. split; vm_compute; [reflexivity|discriminate].
  - vm_compute; reflexivity.
Qed.

(** ** The pipe *)

(** The reading end gets the first [want] bytes that the producer writes,
    or all of them when there are fewer. *)
Lemma drive_delivered (want : Z) (evs : list Event) (e : Ending) :
  delivered (drive want evs e) = take (Z.to_nat want) (emitted evs).
Proof.
  revert want. induction evs as [|[req|b] evs IH]; intros want.
  - cbn [drive delivered]. by destruct (Z.to_nat want).
  - cbn [drive add_issued delivered]. by rewrite IH, emitted_Fetch.
  - cbn [drive]. rewrite emitted_Write. case_bool_decide as Hroom.
    + cbn [add_delivered delivered]. rewrite IH.
      unfold len in Hroom. rewrite take_app_ge by lia.
      do 2 f_equal. unfold len. lia.
    + cbn [delivered]. unfold len in Hroom.
      rewrite take_app_le by lia. done.
Qed.

(** The producer ends as its run ends, or stays parked in a write. *)
Lemma fate_drive (want : Z) (evs : list Event) (e : Ending) :
  fate (drive want evs e) = Ended e ∨ fate (drive want evs e) = Blocked.
Proof.
  revert want. induction evs as [|[req|b] evs IH]; intros want.
  - by left.
  - cbn [drive add_issued fate]. apply IH.
  - cbn [drive]. case_bool_decide; [|by right].
    cbn [add_delivered fate]. apply IH.
Qed.

(** ** The handler *)

(** One case analysis per call of the handler to a collaborator, in the
    order of the source *)
Ltac handler_simpl :=
  cbv [mbind H_bind mret H_ret on_w on_Workload defer return_ lift
       w Workload deferred remote goroutine fst snd foldl run_deferred].

Ltac handler_step :=
  match goal with
  | |- context [MultiClient ?env] => destruct (MultiClient env) eqn:?
  | |- context [match GetAuthClient ?env with _ => _ end] =>
    destruct (GetAuthClient env) as [[]|?] eqn:?
  | |- context [match GetFileByID ?env ?f with _ => _ end] =>
    destruct (GetFileByID env f) as [?file|?] eqn:?
  | |- context [bool_decide (Range ?r = EmptyString)] =>
    destruct (bool_decide (Range r = EmptyString)) eqn:?
  | |- context [match Parse ?env ?s ?h with _ => _ end] =>
    destruct (Parse env s h) as [?ranges|?] eqn:?
  | |- context [index ?l 0] => destruct (index l 0) as [?r0|?] eqn:?
  | |- context [getParts ?env ?f] => destruct (getParts env f) as [[?parts|?]|?] eqn:?
  | |- context [rangedParts ?p ?s ?e] => destruct (rangedParts p s e) as [?sel|?] eqn:?
  | |- context [producer ?a ?p] => destruct (producer a p) as [?evs ?e] eqn:?
  end;
  handler_simpl.

Ltac stream_step :=
  match goal with
  | |- context [match fate ?p with _ => _ end] =>
    destruct (fate p) as [[| |]|] eqn:?; handler_simpl
  end.

Ltac stream_cases := unfold stream; repeat stream_step.

Ltac handler_cases :=
  unfold GetFileStream, GetFileStream_body, arrival;
  handler_simpl; repeat handler_step; stream_cases.

Lemma status_copied (data : bytes) (w : ResponseWriter) :
  status (copied data w) = status w.
Proof. unfold copied. by case_bool_decide. Qed.

Lemma header_copied (data : bytes) (w : ResponseWriter) :
  header (copied data w) = header w.
Proof. unfold copied. by case_bool_decide. Qed.

Lemma body_copied (data : bytes) (w : ResponseWriter) :
  body (copied data w) = body w ++ data.
Proof.
  unfold copied. case_bool_decide as Hnil; [|done].
  by rewrite Hnil, app_nil_r.
Qed.

(** In multi-client mode the counter is back at its value before the
    request exactly when the handler runs to its end; on every other way
    out it stays one above. *)
Lemma GetFileStream_Workload (env : Env) (r : Request) (wl : Z) :
  MultiClient env = true →
  Workload (GetFileStream env r (arrival wl)).2
  = match (GetFileStream env r (arrival wl)).1 with
    | Next _ => wl
    | _ => wl + 1
    end.
Proof. intros Hmc. handler_cases; try done; cbv [fst snd]; lia. Qed.

(** C6: in multi-client mode a request for a file the data base does not
    know leaves through the [return] that follows the failed lookup; the
    deferred decrement is registered by the last statement of the handler
    only, so it does not run, and the counter of the client, 5 before the
    request, is 6 after it. *)
Theorem GetFileStream_unknown_file_Workload :
  let env := sample_env true sample_file sample_parts (Err "unused") in
  let r := {| Method := "GET"; Range := EmptyString; fileID := "g" |} in
  (GetFileStream env r (arrival 5)).1 = Return ∧
  status (w (GetFileStream env r (arrival 5)).2) = StatusBadRequest ∧
  deferred (GetFileStream env r (arrival 5)).2 = [] ∧
  Workload (GetFileStream env r (arrival 5)).2 = 6.
Proof. repeat split; vm_compute; reflexivity. Qed.

(** X10.  Two requests for the same file and range get the same status and
    the same headers, whatever their methods: a HEAD request gets those of
    the GET request. *)
Lemma GetFileStream_headers (env : Env) (r r' : Request) (wl : Z) :
  Range r' = Range r → fileID r' = fileID r →
  status (w (GetFileStream env r' (arrival wl)).2)
  = status (w (GetFileStream env r (arrival wl)).2) ∧
  header (w (GetFileStream env r' (arrival wl)).2)
  = header (w (GetFileStream env r (arrival wl)).2).
Proof.
  intros Hrange Hid.
  unfold GetFileStream, GetFileStream_body, arrival. rewrite Hrange, Hid.
  handler_simpl. repeat handler_step; try done.
  all: stream_cases; rewrite ?status_copied, ?header_copied; done.
Qed.

Lemma GetFileStream_headers_witness :
  let env := sample_env false sample_file sample_parts
               (Val [{| range_parser.Start := 1; range_parser.End := 5 |}]) in
  let head := {| Method := "HEAD"; Range := "bytes=1-5"; fileID := "f" |} in
  let get := {| Method := "GET"; Range := "bytes=1-5"; fileID := "f" |} in
  status (w (GetFileStream env head (arrival 0)).2)
  = status (w (GetFileStream env get (arrival 0)).2) ∧
  header (w (GetFileStream env head (arrival 0)).2)
  = header (w (GetFileStream env get (arrival 0)).2).
Proof.
  apply (GetFileStream_headers
           (sample_env false sample_file sample_parts
              (Val [{| range_parser.Start := 1; range_parser.End := 5 |}]))
           {| Method := "GET"; Range := "bytes=1-5"; fileID := "f" |}
           {| Method := "HEAD"; Range := "bytes=1-5"; fileID := "f" |} 0);
    reflexivity.
Defined.

(** C5: a HEAD request for the sample file, without a Range header.  Its
    status and headers are those of the GET request and no byte is written
    to the response, but the producer was started before the method is
    looked at: it sends its first request to the blob API and then stays in
    its first write to the pipe, which nobody reads. *)
Theorem GetFileStream_HEAD_fetches :
  let env := sample_env false sample_file sample_parts (Err "unused") in
  let head := {| Method := "HEAD"; Range := EmptyString; fileID := "f" |} in
  let get := {| Method := "GET"; Range := EmptyString; fileID := "f" |} in
  (GetFileStream env head (arrival 0)).1 = Next () ∧
  status (w (GetFileStream env head (arrival 0)).2)
  = status (w (GetFileStream env get (arrival 0)).2) ∧
  header (w (GetFileStream env head (arrival 0)).2)
  = header (w (GetFileStream env get (arrival 0)).2) ∧
  body (w (GetFileStream env head (arrival 0)).2) = [] ∧
  remote (GetFileStream env head (arrival 0)).2
  = [request (sample_part 1 4) transferUnit 0] ∧
  goroutine (GetFileStream env head (arrival 0)).2 = Some Blocked.
Proof. repeat split; vm_compute; reflexivity. Qed.

Lemma header_Header_Set (k v : string) (w : ResponseWriter) :
  header (Header_Set k v w) = <[k := v]> (header w).
Proof. done. Qed.

Lemma header_WriteHeader (code : Z) (w : ResponseWriter) :
  header (WriteHeader code w) = header w.
Proof. unfold WriteHeader. by destruct (_ && _). Qed.

Lemma status_Header_Set (k v : string) (w : ResponseWriter) :
  status (Header_Set k v w) = status w.
Proof. done. Qed.

Lemma body_Header_Set (k v : string) (w : ResponseWriter) :
  body (Header_Set k v w) = body w.
Proof. done. Qed.

Lemma body_WriteHeader (code : Z) (w : ResponseWriter) :
  body (WriteHeader code w) = body w.
Proof. unfold WriteHeader. by destruct (_ && _). Qed.

Lemma status_WriteHeader (code : Z) (w : ResponseWriter) :
  0 < code → written w = false → status (WriteHeader code w) = code.
Proof.
  intros Hcode Hw. unfold WriteHeader.
  by rewrite bool_decide_eq_true_2, Hw by done.
Qed.

(** C4: a GET request without a Range header for the file of five bytes in
    parts of four and one.  The handler runs to its end and the response
    has what the claim says of its head: status 200, Accept-Ranges: bytes,
    Content-Type, Content-Disposition, and Content-Length 5, the size of
    the file.  Its body is not the full body: it is byte 0 of the file and
    nothing more, because [rangedParts] takes [ceil(4/4) = 1] for the end
    of its selection, the slip of C1 and C2. *)
Theorem GetFileStream_short_body :
  let env := sample_env false short_file short_parts (Err "unused") in
  let r := {| Method := "GET"; Range := EmptyString; fileID := "f" |} in
  let file := file_bytes (sample_store (size_of short_parts)) short_parts in
  let st' := (GetFileStream env r (arrival 0)).2 in
  (GetFileStream env r (arrival 0)).1 = Next () ∧
  status (w st') = StatusOK ∧
  header (w st') !! "Accept-Ranges" = Some "bytes" ∧
  header (w st') !! "Content-Type" = Some "application/octet-stream" ∧
  header (w st') !! "Content-Disposition" = Some (Content_Disposition "b.bin") ∧
  header (w st') !! "Content-Range" = None ∧
  header (w st') !! "Content-Length" = Some "5" ∧
  len file = 5 ∧
  body (w st') = take 1 file ∧
  body (w st') ≠ file.
Proof. repeat split; vm_compute; (reflexivity || discriminate). Qed.

(** The head of every response of a request that the handler serves to
    its end: Content-Type, Content-Length, Content-Disposition and
    Accept-Ranges are set; without a Range header the status is 200, there
    is no Content-Range and Content-Length is the size of the file; with a
    Range header whose first parsed range is [[start, end_]] the status is
    206, Content-Range is [bytes start-end_/size] and Content-Length is
    [end_ - start + 1]. *)
Lemma GetFileStream_head (env : Env) (r : Request) (wl : Z) (st' : State) :
  GetFileStream env r (arrival wl) = (Next (), st') →
  ∃ file start end_,
    GetFileByID env (fileID r) = Val file ∧
    header (w st') !! "Content-Type" = Some (schemas.MimeType file) ∧
    header (w st') !! "Content-Length" = Some (pretty (end_ - start + 1)) ∧
    header (w st') !! "Content-Disposition"
    = Some (Content_Disposition (schemas.Name file)) ∧
    header (w st') !! "Accept-Ranges" = Some "bytes" ∧
    (if bool_decide (Range r = EmptyString)
     then status (w st') = StatusOK ∧
          header (w st') !! "Content-Range" = None ∧
          start = 0 ∧ end_ - start + 1 = schemas.Size file
     else status (w st') = StatusPartialContent ∧
          header (w st') !! "Content-Range"
          = Some (Content_Range start end_ (schemas.Size file)) ∧
          ∃ ranges r0,
            Parse env (schemas.Size file) (Range r) = Val ranges ∧
            ranges !! 0%nat = Some r0 ∧
            start = range_parser.Start r0 ∧ end_ = range_parser.End r0).
Proof.
  intros Hrun. revert Hrun. handler_cases; intros [= <-].
  all: match goal with
       | Hf : GetFileByID _ _ = Val ?file,
         Hsel : rangedParts _ ?start ?end_ = Ok _ |- _ =>
         exists file, start, end_
       end.
  all: cbn [w]; rewrite !header_copied, !status_copied.
  all: rewrite !header_Header_Set, ?header_WriteHeader, !status_Header_Set.
  all: rewrite status_WriteHeader by done.
  all: repeat (split; [by simplify_map_eq|]).
  all: try lia.
  all: match goal with
       | H : index ?ranges 0 = Ok ?r0 |- _ =>
         exists ranges, r0; repeat split; try done;
         unfold index in H; rewrite bool_decide_eq_true_2 in H by lia;
         change (Z.to_nat 0) with 0%nat in H;
         by destruct (ranges !! 0%nat) as [?|]; simplify_eq
       end.
Qed.

(** ** Rejected ranges *)




(** ** A remote end that returns the bytes asked for *)

Lemma window_app (b : bytes) (s m e : Z) :
  0 ≤ s → s ≤ m + 1 → m ≤ e →
  window b s m ++ window b (m + 1) e = window b s e.
Proof.
  intros Hs Hm He. unfold window.
  replace (drop (Z.to_nat (m + 1)) b)
    with (drop (Z.to_nat (m - s + 1)) (drop (Z.to_nat s) b))
    by (rewrite drop_drop; f_equal; lia).
  rewrite take_take_drop. f_equal. lia.
Qed.

Lemma drop_window (b : bytes) (s e f : Z) :
  0 ≤ s → 0 ≤ f → drop (Z.to_nat f) (window b s e) = window b (s + f) e.
Proof.
  intros Hs Hf. unfold window.
  rewrite skipn_firstn_comm, drop_drop. f_equal; [lia|f_equal; lia].
Qed.

Lemma take_window (b : bytes) (s e n : Z) :
  0 ≤ n ≤ e - s + 1 → take (Z.to_nat n) (window b s e) = window b s (s + n - 1).
Proof. intros Hn. unfold window. rewrite take_take. f_equal. lia. Qed.

Lemma window_app_l (x y : bytes) (s e : Z) :
  0 ≤ s → s ≤ e → e < len x → window (x ++ y) s e = window x s e.
Proof.
  intros Hs He Hx. unfold window, len in *.
  rewrite drop_app_le, take_app_le by (rewrite ?length_drop; lia). done.
Qed.

Lemma window_app_r (x y : bytes) (s e : Z) :
  len x ≤ s → window (x ++ y) s e = window y (s - len x) (e - len x).
Proof.
  intros Hs. unfold window, len in *.
  rewrite drop_app_ge by lia. f_equal; [lia|f_equal; lia].
Qed.

Lemma window_app_mid (x y : bytes) (s e : Z) :
  0 ≤ s → s < len x → len x ≤ e →
  window (x ++ y) s e = window x s (len x - 1) ++ window y 0 (e - len x).
Proof.
  intros Hs Hx He.
  rewrite <- (window_app (x ++ y) s (len x - 1) e) by lia.
  rewrite window_app_l by lia.
  replace (len x - 1 + 1) with (len x) by lia.
  rewrite window_app_r by lia. do 2 f_equal. lia.
Qed.

Lemma len_window (b : bytes) (s e : Z) :
  0 ≤ s → s ≤ e → e < len b → len (window b s e) = e - s + 1.
Proof.
  intros Hs He Hb. unfold window, len in *.
  rewrite length_take, length_drop. lia.
Qed.

Lemma window_app_room (x y : bytes) (s e : Z) :
  0 ≤ s → e < len x → window (x ++ y) s e = window x s e.
Proof.
  intros Hs Hx. unfold window, len in *.
  destruct (decide (e < s)) as [Hlt|Hge].
  - by replace (Z.to_nat (e - s + 1)) with 0%nat by lia.
  - rewrite drop_app_le, take_app_le by (rewrite ?length_drop; lia). done.
Qed.

Section faithful_part.
Context (store : Z → bytes) (spare : UploadGetFileRequest → bytes).
Context (part : Part) (start end_ U : Z).
Context (HU : 0 < U) (Hstart : 0 ≤ start) (Hend : start ≤ end_).
Context (Hsize : end_ < len (store (ID (Location part)))).

Local Abbreviation first := (start / U).
Local Abbreviation last := (end_ / U).
Local Abbreviation content := (store (ID (Location part))).
Local Abbreviation remote_end := (faithful store spare).

(** The block number [k] that the remote end returns *)
Lemma block_faithful (k : Z) :
  0 ≤ k → elems (block remote_end part U k) = window content (U * k) (U * k + U - 1).
Proof.
  intros Hk. unfold block, request, faithful, window. cbn [Offset Limit ReqLocation elems].
  f_equal. lia.
Qed.

Lemma block_bounds (k : Z) :
  first ≤ k ≤ last → 0 ≤ k ∧ U * k ≤ end_ ∧ start < U * k + U.
Proof.
  intros Hk.
  pose proof (Z.div_mod start U). pose proof (Z.mod_pos_bound start U HU).
  pose proof (Z.div_mod end_ U). pose proof (Z.mod_pos_bound end_ U HU).
  assert (0 ≤ first) by (apply Z.div_pos; lia).
  nia.
Qed.

Lemma block_length (k : Z) :
  first ≤ k ≤ last →
  len (elems (block remote_end part U k)) = Z.min U (len content - U * k).
Proof.
  intros Hk. destruct (block_bounds k Hk) as (? & ? & ?).
  rewrite block_faithful by done. unfold window, len in *.
  rewrite length_take, length_drop. lia.
Qed.

(** Every expected block comes back with bytes, and enough of them. *)
Lemma block_good (k : Z) :
  first ≤ k ≤ last →
  elems (block remote_end part U k) ≠ [] ∧
  fits start end_ U k (block remote_end part U k).
Proof.
  intros Hk. destruct (block_bounds k Hk) as (? & ? & ?).
  pose proof (block_length k Hk) as Hlen.
  split.
  - intros Hnil. rewrite Hnil in Hlen. change (len []) with 0 in Hlen. lia.
  - unfold fits, cap. pose proof (len_nonneg (room (block remote_end part U k))).
    rewrite Hlen.
    pose proof (Z.div_mod end_ U). pose proof (Z.mod_pos_bound end_ U HU).
    case_bool_decide; [subst k|]; lia.
Qed.

(** What is written for block [k]: the bytes of the part that lie both in
    the block and in [[start, end_]] *)
Lemma cut_faithful (k : Z) :
  first ≤ k ≤ last →
  cut start end_ U k (block remote_end part U k)
  = window content (Z.max start (U * k)) (Z.min end_ (U * k + U - 1)).
Proof.
  intros Hk. destruct (block_bounds k Hk) as (? & ? & ?).
  pose proof (block_length k Hk) as Hlen.
  pose proof (Z.div_mod end_ U ltac:(lia)). pose proof (Z.mod_pos_bound end_ U HU).
  unfold cut. case_bool_decide as Hlast.
  - rewrite window_app_room by lia.
    rewrite block_faithful by done. unfold window at 1.
    rewrite drop_window, take_window by lia. f_equal; lia.
  - rewrite block_faithful by done.
    assert (k < last) by lia.
    assert (U * k + U ≤ end_) by nia.
    rewrite drop_window by lia. f_equal; lia.
Qed.

Lemma windows_concat (m : nat) (a : Z) :
  first ≤ a → a + Z.of_nat m = last →
  concat ((λ k, cut start end_ U k (block remote_end part U k))
            <$> seqZ a (Z.of_nat m + 1))
  = window content (Z.max start (U * a)) end_.
Proof.
  revert a. induction m as [|m IH]; intros a Ha Hm.
  - rewrite seqZ_cons, fmap_cons, seqZ_nil by lia. simpl. rewrite app_nil_r.
    rewrite cut_faithful by lia.
    pose proof (Z.div_mod end_ U). pose proof (Z.mod_pos_bound end_ U HU).
    f_equal. lia.
  - rewrite seqZ_cons, fmap_cons by lia. cbn [concat].
    replace (Z.pred (Z.of_nat (S m) + 1)) with (Z.of_nat m + 1) by lia.
    rewrite IH, cut_faithful by lia.
    destruct (block_bounds a ltac:(lia)) as (? & ? & ?).
    destruct (block_bounds (Z.succ a) ltac:(lia)) as (? & ? & ?).
    replace (Z.min end_ (U * a + U - 1)) with (U * a + U - 1) by lia.
    replace (Z.max start (U * Z.succ a)) with (U * a + U - 1 + 1) by lia.
    apply window_app; lia.
Qed.

(** A part stream against a remote end that returns the bytes asked for
    emits the bytes [[start, end_]] of its part, and returns. *)
Lemma streamFilePart_faithful :
  (streamFilePart remote_end part start end_ U).2 = Returned ∧
  emitted (streamFilePart remote_end part start end_ U).1
  = window content start end_.
Proof.
  pose proof (div_le_blocks start end_ U HU Hend).
  rewrite streamFilePart_replay by done.
  rewrite (replay_good part start end_ U)
    by (apply (Forall_expected (λ k r, elems r ≠ [] ∧ fits start end_ U k r)), block_good).
  split; [done|]. cbn [fst]. unfold emitted, expected.
  rewrite writes_steps, <- list_fmap_compose.
  replace (end_ / U - start / U + 1)
    with (Z.of_nat (Z.to_nat (end_ / U - start / U)) + 1) by lia.
  pose proof (windows_concat (Z.to_nat (end_ / U - start / U)) first) as Hw.
  etrans; [exact (Hw ltac:(lia) ltac:(lia))|].
  pose proof (Z.div_mod start U). pose proof (Z.mod_pos_bound start U HU).
  f_equal. lia.
Qed.
End faithful_part.



(** ** A reader that stops *)

Lemma div_block (x a U : Z) : 0 < U → U * a ≤ x < U * a + U → x / U = a.
Proof.
  intros HU Hx. symmetry. apply (Z.div_unique_pos x U a (x - U * a)); lia.
Qed.

Section parked.
Context (store : Z → bytes) (spare : UploadGetFileRequest → bytes).
Context (part : Part) (start end_ U : Z).
Context (HU : 0 < U) (Hstart : 0 ≤ start) (Hend : start ≤ end_).
Context (Hsize : end_ < len (store (ID (Location part)))).

Local Abbreviation first := (start / U).
Local Abbreviation last := (end_ / U).
Local Abbreviation content := (store (ID (Location part))).
Local Abbreviation remote_end := (faithful store spare).

(** The producer about to fetch block [a], with a reader that takes [w]
    more bytes and not all that is left: it is parked in the write of the
    block that holds the first byte the reader does not take. *)
Lemma drive_blocks (e : Ending) (m : nat) (a w : Z) :
  first ≤ a → a + Z.of_nat m = last →
  0 ≤ w → Z.max start (U * a) + w ≤ end_ →
  let pos := Z.max start (U * a) in
  let p := drive w (((λ k, (k, block remote_end part U k)) <$> seqZ a (Z.of_nat m + 1))
                      ≫= λ kr, [Fetch (request part U kr.1);
                                 Write (cut start end_ U kr.1 kr.2)]) e in
  fate p = Blocked ∧
  delivered p = window content pos (pos + w - 1) ∧
  issued p = request part U <$> seqZ a ((pos + w) / U - a + 1).
Proof.
  revert a w. induction m as [|m IH]; intros a w Ha Hm Hw Hleft pos p; subst pos p.
  all: destruct (block_bounds start end_ U HU Hstart a ltac:(lia)) as (H0 & Hlo & Hhi).
  all: rewrite seqZ_cons, fmap_cons by lia; cbn [mbind list_bind app fst snd drive].
  all: rewrite (cut_faithful store spare part start end_ U) by (done || lia).
  all: remember (Z.max start (U * a)) as pos eqn:Hpos.
  all: remember (Z.min end_ (U * a + U - 1)) as stop eqn:Hstop.
  all: assert (Hlen : len (window content pos stop) = stop - pos + 1)
         by (apply len_window; lia).
  all: rewrite Hlen.
  all: assert (Hparked : ¬ (0 < w ∧ stop - pos + 1 ≤ w) →
         fate (add_issued (request part U a)
                 (mkPiped (take (Z.to_nat w) (window content pos stop)) [] Blocked))
         = Blocked ∧
         delivered (add_issued (request part U a)
                 (mkPiped (take (Z.to_nat w) (window content pos stop)) [] Blocked))
         = window content pos (pos + w - 1) ∧
         issued (add_issued (request part U a)
                 (mkPiped (take (Z.to_nat w) (window content pos stop)) [] Blocked))
         = request part U <$> seqZ a ((pos + w) / U - a + 1)).
  1, 3: intros Hnot; cbn [add_issued fate delivered issued];
        (split; [done|]); (split; [apply take_window; lia|]);
        rewrite (div_block (pos + w) a U) by lia;
        by replace (a - a + 1) with 1 by lia.
  - assert (end_ < U * a + U).
    { pose proof (Z.div_mod end_ U ltac:(lia)). pose proof (Z.mod_pos_bound end_ U HU).
      replace a with last by lia. lia. }
    case_bool_decide as Hgo; [lia|by apply Hparked].
  - case_bool_decide as Hgo; [|by apply Hparked]. clear Hparked.
    assert (Hfull : stop = U * a + U - 1) by lia.
    destruct (block_bounds start end_ U HU Hstart (Z.succ a) ltac:(lia)) as (_ & Hlo' & _).
    specialize (IH (Z.succ a) (w - (stop - pos + 1)) ltac:(lia) ltac:(lia) ltac:(lia)
                  ltac:(lia)).
    cbv zeta in IH.
    replace (Z.pred (Z.of_nat (S m) + 1)) with (Z.of_nat m + 1) by lia.
    replace (Z.max start (U * Z.succ a)) with (stop + 1) in IH by lia.
    destruct IH as (Hfate & Hdelivered & Hissued).
    cbn [add_issued add_delivered fate delivered issued].
    split; [done|]. split.
    + rewrite Hdelivered.
      replace (stop + 1 + (w - (stop - pos + 1)) - 1) with (pos + w - 1) by lia.
      apply window_app; lia.
    + rewrite Hissued.
      replace (stop + 1 + (w - (stop - pos + 1))) with (pos + w) by lia.
      assert (a + 1 ≤ (pos + w) / U) by (apply Z.div_le_lower_bound; lia).
      rewrite (seqZ_cons a) by lia. rewrite fmap_cons. do 3 f_equal. lia.
Qed.
End parked.

(** C9, amended.  A producer whose consumer stops reading does not stop
    by detecting anything.  For a part stream over [[start, end_]] against
    a remote end that returns the bytes asked for, and a consumer that stops
    after [want] bytes, fewer than [end_ - start + 1]: the consumer has the
    bytes [start] to [start + want - 1]; the producer is parked in the
    write of the block that holds byte [start + want], the first one not
    taken, and never returns; the fetches it has issued are those of the
    blocks number [start / U] to [(start + want) / U], and it issues no
    other.  So when the consumer stops at the end of a block, the next
    block is still fetched.  The [Workload] counter is not released by the
    producer: whenever the handler runs to its end the counter is back at
    its value before the request, be the producer parked or returned. *)
Theorem streamFilePart_reader_stops (store : Z → bytes)
    (spare : UploadGetFileRequest → bytes) (part : Part) (start end_ U want : Z) :
  0 < U → 0 ≤ start → start ≤ end_ → end_ < len (store (ID (Location part))) →
  0 ≤ want → want < end_ - start + 1 →
  let run := streamFilePart (faithful store spare) part start end_ U in
  let p := drive want run.1 run.2 in
  delivered p = window (store (ID (Location part))) start (start + want - 1) ∧
  fate p = Blocked ∧
  issued p = request part U <$> seqZ (start / U) ((start + want) / U - start / U + 1) ∧
  (∀ (env : Env) (r : Request) (wl : Z),
     (GetFileStream env r (arrival wl)).1 = Next () →
     Workload (GetFileStream env r (arrival wl)).2 = wl ∧
     (goroutine (GetFileStream env r (arrival wl)).2 = Some Blocked ∨
      goroutine (GetFileStream env r (arrival wl)).2 = Some (Ended Returned))).
Proof.
  intros HU Hstart Hend Hsize Hwant Hless run p.
  pose proof (div_le_blocks start end_ U HU Hend) as Hle.
  pose proof (Z.div_mod start U ltac:(lia)). pose proof (Z.mod_pos_bound start U HU).
  assert (Hpos : Z.max start (U * (start / U)) = start) by lia.
  pose proof (drive_blocks store spare part start end_ U HU Hstart Hend Hsize Returned
                (Z.to_nat (end_ / U - start / U)) (start / U) want
                ltac:(lia) ltac:(lia) Hwant ltac:(lia)) as Hparked.
  cbv zeta in Hparked. rewrite Hpos in Hparked.
  replace (Z.of_nat (Z.to_nat (end_ / U - start / U)) + 1)
    with (end_ / U - start / U + 1) in Hparked by lia.
  assert (Hrun : run = (expected (faithful store spare) part start end_ U ≫=
            (λ kr, [Fetch (request part U kr.1); Write (cut start end_ U kr.1 kr.2)]),
          Returned)).
  { unfold run. rewrite streamFilePart_replay by done.
    apply replay_good.
    apply (Forall_expected (λ k r, elems r ≠ [] ∧ fits start end_ U k r)).
    intros k Hk. by apply block_good. }
  destruct Hparked as (Hfate & Hdelivered & Hissued).
  unfold p. rewrite Hrun. cbn [fst snd]. unfold expected.
  split; [done|]. split; [done|]. split; [done|].
  intros env r wl. handler_cases; intros Hexit; try done.
  all: cbn [Workload goroutine]; split; [lia|]; by (left + right).
Qed.

Lemma streamFilePart_reader_stops_witness :
  let store := sample_store (λ _, 30) in
  let part := sample_part 1 30 in
  let run := streamFilePart (faithful store (λ _, sample_spare)) part 0 29 10 in
  let p := drive 15 run.1 run.2 in
  delivered p = window (store 1) 0 14 ∧
  fate p = Blocked ∧
  issued p = [request part 10 0; request part 10 1].
Proof.
  destruct (streamFilePart_reader_stops (sample_store (λ _, 30)) (λ _, sample_spare)
              (sample_part 1 30) 0 29 10 15) as (Hdelivered & Hfate & Hissued & _);
    [lia..| |lia|lia|].
  - vm_compute. reflexivity.
  - split; [exact Hdelivered|]. split; [exact Hfate|exact Hissued].
Defined.

(** C9, as stated, fails: in the stream over [[0, 29]] by units of [10]
    the consumer takes the ten bytes of the first block and stops.  The
    producer does not learn of it: it issues the fetch of the second block,
    after the last byte was taken, and stays in the write of that block,
    from which it never returns.  With a consumer that reads nothing, the
    first block is fetched all the same. *)
Lemma streamFilePart_fetch_after_last_read :
  let store := sample_store (λ _, 30) in
  let part := sample_part 1 30 in
  let run := streamFilePart (faithful store (λ _, sample_spare)) part 0 29 10 in
  run.2 = Returned ∧
  delivered (drive 10 run.1 run.2) = window (store 1) 0 9 ∧
  issued (drive 10 run.1 run.2) = [request part 10 0; request part 10 1] ∧
  fate (drive 10 run.1 run.2) = Blocked ∧
  issued (drive 0 run.1 run.2) = [request part 10 0] ∧
  fate (drive 0 run.1 run.2) = Blocked.
Proof. repeat split; vm_compute; reflexivity. Qed.

(** ** The pipeline away from the boundaries of the parts *)

Lemma update_alter {A} (s : list A) (i : Z) (f : A → A) :
  0 ≤ i < len s → update s i f = Ok (alter f (Z.to_nat i) s).
Proof.
  intros Hi. unfold update, index, len in *.
  rewrite bool_decide_eq_true_2 by lia.
  destruct (lookup_lt_is_Some_2 s (Z.to_nat i) ltac:(lia)) as [a Ha].
  rewrite Ha. cbn [mbind result_bind]. f_equal.
  apply list_eq. intros j. rewrite list_lookup_alter, list_lookup_insert by lia.
  rewrite Ha. repeat case_decide; (done || lia).
Qed.

(** Where neither [start] (unless it is 0) nor [end_] is a multiple of the
    chunk size, the slicer selects the parts that hold the range. *)
Lemma take_drop_app {A} (x y : list A) (n lo : nat) :
  (lo + n ≤ length x)%nat → take n (drop lo (x ++ y)) = take n (drop lo x).
Proof.
  intros Hn. rewrite drop_app_le by lia. apply take_app_le. rewrite length_drop. lia.
Qed.

Lemma rangedParts_selected (parts : Slice Part) (p0 : Part) (start end_ : Z) :
  elems parts !! 0%nat = Some p0 → 0 < Size p0 →
  0 ≤ start → start ≤ end_ →
  start = 0 ∨ start `mod` Size p0 ≠ 0 → end_ `mod` Size p0 ≠ 0 →
  end_ / Size p0 < len (elems parts) →
  rangedParts parts start end_ = Ok (selected (Size p0) (elems parts) start end_).
Proof.
  intros Hp0 Hc Hstart Hend Hs He Hn. unfold rangedParts, selected.
  rewrite (index_0 (elems parts) p0 Hp0). cbn [mbind result_bind].
  rewrite bool_decide_eq_false_2 by lia.
  rewrite !rem_mod by lia.
  assert (Hsi : Max (ceil_div start (Size p0) - 1) 0 = start / Size p0).
  { unfold Max. destruct Hs as [->|Hs].
    - by rewrite Z.div_0_l by lia.
    - rewrite ceil_div_inexact by done.
      assert (0 ≤ start / Size p0) by (apply Z.div_pos; lia). lia. }
  rewrite Hsi, (ceil_div_inexact end_) by done.
  pose proof (div_le_blocks start end_ (Size p0) Hc Hend).
  assert (0 ≤ start / Size p0) by (apply Z.div_pos; lia).
  pose proof (len_nonneg (room parts)).
  rewrite slice_Ok by (unfold cap; lia). cbn [mbind result_bind].
  rewrite take_drop_app by (unfold len in *; lia).
  set (l := take _ (drop _ (elems parts))).
  assert (Hl : len l = end_ / Size p0 + 1 - start / Size p0).
  { unfold l, len in *. rewrite length_take, length_drop. lia. }
  rewrite update_alter by lia. cbn [mbind result_bind].
  rewrite update_alter by (unfold len in *; rewrite length_alter; lia).
  do 2 f_equal. unfold len. rewrite length_alter. lia.
Qed.

Lemma set_Start_same (p : Part) : set_Start (Start p) p = p.
Proof. by destruct p. Qed.

Lemma chunked_length (c : Z) (store : Z → bytes) (parts : list Part) :
  chunked c store parts → len (file_bytes store parts) ≤ c * len parts.
Proof.
  induction parts as [|p rest IH]; [unfold len; simpl; lia|].
  intros ((_ & _ & Hlen) & Hsize & _ & Hrest). specialize (IH Hrest).
  unfold file_bytes in *. cbn [map concat]. rewrite len_app, Hlen.
  unfold len in *. cbn [length]. lia.
Qed.

Lemma selected_later (c : Z) (p : Part) (rest : list Part) (start end_ : Z) :
  0 < c → c ≤ start →
  selected c (p :: rest) start end_ = selected c rest (start - c) (end_ - c).
Proof.
  intros Hc Hstart. unfold selected.
  replace ((start - c) / c) with (start / c - 1)
    by (replace (start - c) with (start + (-1) * c) by lia; rewrite Z.div_add; lia).
  replace ((end_ - c) / c) with (end_ / c - 1)
    by (replace (end_ - c) with (end_ + (-1) * c) by lia; rewrite Z.div_add; lia).
  replace ((start - c) `mod` c) with (start `mod` c)
    by (replace (start - c) with (start + (-1) * c) by lia; rewrite Z.mod_add; lia).
  replace ((end_ - c) `mod` c) with (end_ `mod` c)
    by (replace (end_ - c) with (end_ + (-1) * c) by lia; rewrite Z.mod_add; lia).
  assert (1 ≤ start / c) by (apply Z.div_le_lower_bound; lia).
  replace (Z.to_nat (start / c)) with (S (Z.to_nat (start / c - 1))) by lia.
  cbn [drop].
  by replace (end_ / c - 1 + 1 - (start / c - 1)) with (end_ / c + 1 - start / c) by lia.
Qed.

Lemma selected_single (c : Z) (p : Part) (rest : list Part) (start end_ : Z) :
  0 ≤ start → start ≤ end_ → end_ < c →
  selected c (p :: rest) start end_ = [set_End end_ (set_Start start p)].
Proof.
  intros Hstart Hend Hc. unfold selected.
  rewrite !Z.div_small, !Z.mod_small by lia. done.
Qed.

Lemma selected_first (c : Z) (store : Z → bytes) (p q : Part) (rest : list Part)
    (start end_ : Z) :
  0 ≤ start → start < c → c ≤ end_ → Start q = 0 →
  selected c (p :: q :: rest) start end_
  = set_Start start p :: selected c (q :: rest) 0 (end_ - c).
Proof.
  intros Hstart Hc Hend Hq. unfold selected.
  replace ((end_ - c) / c) with (end_ / c - 1)
    by (replace (end_ - c) with (end_ + (-1) * c) by lia; rewrite Z.div_add; lia).
  replace ((end_ - c) `mod` c) with (end_ `mod` c)
    by (replace (end_ - c) with (end_ + (-1) * c) by lia; rewrite Z.mod_add; lia).
  rewrite (Z.div_small start), (Z.mod_small start), Z.div_0_l, Z.mod_0_l by lia.
  assert (1 ≤ end_ / c) by (apply Z.div_le_lower_bound; lia).
  replace (Z.to_nat (end_ / c + 1 - 0)) with (S (S (Z.to_nat (end_ / c - 1)))) by lia.
  replace (Z.to_nat (end_ / c - 1 + 1 - 0)) with (S (Z.to_nat (end_ / c - 1))) by lia.
  change (Z.to_nat 0) with 0%nat. cbn [drop take length alter list_alter].
  rewrite <- Hq, set_Start_same.
  cbn [Nat.sub]. rewrite !Nat.sub_0_r. done.
Qed.

(** The producer over the selected parts emits the range of the file. *)
Lemma producer_selected (U c : Z) (store : Z → bytes)
    (spare : UploadGetFileRequest → bytes) (parts : list Part) (start end_ : Z) :
  0 < U → 0 < c → chunked c store parts →
  0 ≤ start → start ≤ end_ → end_ < len (file_bytes store parts) →
  (producer_at U (faithful store spare) (selected c parts start end_)).2 = Returned ∧
  emitted (producer_at U (faithful store spare) (selected c parts start end_)).1
  = window (file_bytes store parts) start end_.
Proof.
  intros HU Hc. revert start end_.
  induction parts as [|p rest IH]; intros start end_ Hparts Hstart Hend Htotal.
  { unfold len in Htotal. simpl in Htotal. lia. }
  destruct Hparts as ((HS & HE & Hlen) & Hsize & Hfull & Hrest).
  change (file_bytes store (p :: rest))
    with (store (ID (Location p)) ++ file_bytes store rest) in *.
  rewrite len_app, Hlen in Htotal.
  assert (Hlast : rest = [] → len (file_bytes store rest) = 0) by (by intros ->).
  destruct (decide (c ≤ start)) as [Hlater|Hhere].
  - assert (rest ≠ []) as Hne by (intros Hnil; specialize (Hlast Hnil); lia).
    specialize (Hfull Hne).
    rewrite selected_later, window_app_r by lia. rewrite Hlen, Hfull.
    apply IH; (done || lia).
  - destruct (decide (end_ < c)) as [Hin|Hout].
    + assert (end_ < Size p).
      { destruct rest; [specialize (Hlast eq_refl); lia|]. rewrite Hfull by done. lia. }
      rewrite selected_single, window_app_l by lia.
      cbn [producer_at].
      destruct (streamFilePart_faithful store spare (set_End end_ (set_Start start p))
                  start end_ U HU Hstart Hend) as [Hret Hout]; [simpl; lia|].
      cbn [Start End set_Start set_End].
      destruct (streamFilePart _ _ _ _ _) as [evs e]. cbn [fst snd] in *.
      subst e. by rewrite app_nil_r.
    + destruct rest as [|q rest]; [specialize (Hlast eq_refl); lia|].
      specialize (Hfull ltac:(done)).
      pose proof Hrest as ((HSq & _) & _).
      rewrite (selected_first c store) by lia.
      rewrite window_app_mid by lia. rewrite Hlen, Hfull.
      cbn [producer_at].
      destruct (streamFilePart_faithful store spare (set_Start start p)
                  start (c - 1) U HU Hstart ltac:(lia)) as [Hret Hout']; [simpl; lia|].
      cbn [Start End set_Start]. rewrite HE, Hfull.
      destruct (streamFilePart _ _ _ _ _) as [evs e]. cbn [fst snd] in *.
      subst e.
      destruct (IH 0 (end_ - c) Hrest ltac:(lia) ltac:(lia) ltac:(lia)) as [IHret IHout].
      destruct (producer_at U (faithful store spare) (selected c (q :: rest) 0 (end_ - c)))
        as [evs' e']. cbn [fst snd] in *.
      split; [done|]. by rewrite emitted_app, Hout', IHout.
Qed.

(** X6.  The pipeline is right wherever the range does not touch the
    start of a part: for a file in parts of uniform chunk size, a remote end that
    returns the bytes asked for and a range [[start, end_]] within the file
    such that [end_] is not a multiple of the chunk size and [start] is 0 or
    not a multiple of it, the bytes emitted are the bytes [[start, end_]] of
    the file, [end_ - start + 1] of them.  This holds whatever the arrays
    of the parts and of the blocks hold behind them. *)
Theorem pipeline_off_boundaries (store : Z → bytes)
    (spare : UploadGetFileRequest → bytes) (parts : Slice Part) (p0 : Part)
    (start end_ : Z) :
  elems parts !! 0%nat = Some p0 → chunked (Size p0) store (elems parts) →
  0 ≤ start → start ≤ end_ → end_ < len (file_bytes store (elems parts)) →
  start = 0 ∨ start `mod` Size p0 ≠ 0 → end_ `mod` Size p0 ≠ 0 →
  ∃ evs,
    pipeline (faithful store spare) parts start end_ = Ok (evs, Returned) ∧
    emitted evs = window (file_bytes store (elems parts)) start end_ ∧
    len (emitted evs) = end_ - start + 1.
Proof.
  intros Hp0 Hparts Hstart Hend Htotal Hs He.
  assert (Hc : 0 < Size p0).
  { destruct (elems parts) as [|p rest]; [done|]. simplify_eq/=.
    by destruct Hparts as (_ & [? _] & _). }
  pose proof (chunked_length _ _ _ Hparts) as Hlen.
  assert (end_ / Size p0 < len (elems parts)) by (apply Z.div_lt_upper_bound; lia).
  destruct (producer_selected transferUnit (Size p0) store spare (elems parts) start end_)
    as [Hret Hout]; [done..|].
  unfold pipeline. rewrite (rangedParts_selected parts p0) by done.
  cbn [mbind result_bind]. unfold producer.
  destruct (producer_at transferUnit (faithful store spare) _) as [evs e].
  cbn [fst snd] in *. subst e.
  exists evs. split; [done|]. split; [done|].
  rewrite Hout. apply len_window; lia.
Qed.

Lemma sample_parts_chunked : chunked 4 (sample_store sample_sizes) sample_parts.
Proof. repeat split; (done || lia). Qed.

(** The range [[1, 5]] of the sample file: bytes 1 to 3 of the first part
    and bytes 0 and 1 of the second. *)
Lemma pipeline_off_boundaries_sample :
  ∃ evs,
    pipeline (faithful (sample_store sample_sizes) (λ _, sample_spare)) sample_slice 1 5
    = Ok (evs, Returned) ∧
    emitted evs = window (file_bytes (sample_store sample_sizes) sample_parts) 1 5 ∧
    len (emitted evs) = 5 - 1 + 1.
Proof.
  apply (pipeline_off_boundaries (sample_store sample_sizes) (λ _, sample_spare)
           sample_slice (sample_part 1 4) 1 5).
  - done.
  - apply sample_parts_chunked.
  - lia.
  - lia.
  - by vm_compute.
  - right. by vm_compute.
  - by vm_compute.
Defined.

(** X8.  A GET request without a Range header gets the whole file, when the
    file is stored in whole parts of uniform chunk size, the remote end
    returns the bytes asked for and the last byte of the file is not the
    first byte of a part. *)
Lemma GetFileStream_full_body (env : Env) (r : Request) (wl : Z) (st' : State)
    (file : schemas.FileOutFull) (parts : Slice Part) (p0 : Part) (store : Z → bytes)
    (spare : UploadGetFileRequest → bytes) :
  GetFileStream env r (arrival wl) = (Next (), st') →
  Method r ≠ "HEAD" → Range r = EmptyString →
  GetFileByID env (fileID r) = Val file →
  getParts env file = Ok (Val parts) →
  UploadGetFile env = faithful store spare →
  elems parts !! 0%nat = Some p0 → chunked (Size p0) store (elems parts) →
  schemas.Size file = len (file_bytes store (elems parts)) → 0 < schemas.Size file →
  (schemas.Size file - 1) `mod` Size p0 ≠ 0 →
  status (w st') = StatusOK ∧ body (w st') = file_bytes store (elems parts).
Proof.
  intros Hrun Hmethod Hrange Hfile Hparts Hapi Hp0 Hchunked Hsize Hpos Hrem.
  assert (Hc : 0 < Size p0).
  { destruct (elems parts) as [|p rest]; [done|]. simplify_eq/=.
    by destruct Hchunked as (_ & [? _] & _). }
  pose proof (chunked_length _ _ _ Hchunked) as Hlen.
  assert (Hn : (schemas.Size file - 1) / Size p0 < len (elems parts))
    by (apply Z.div_lt_upper_bound; lia).
  pose proof (rangedParts_selected parts p0 0 (schemas.Size file - 1) Hp0 Hc
                ltac:(lia) ltac:(lia) ltac:(by left) Hrem Hn) as Hsel.
  destruct (producer_selected transferUnit (Size p0) store spare (elems parts) 0
              (schemas.Size file - 1))
    as [Hret Hout]; [done|done|done|lia|lia|lia|].
  fold (producer (faithful store spare)
          (selected (Size p0) (elems parts) 0 (schemas.Size file - 1)))
    in Hret, Hout.
  destruct (producer (faithful store spare)
          (selected (Size p0) (elems parts) 0 (schemas.Size file - 1)))
    as [evs0 e0] eqn:Hprod.
  cbn [fst snd] in Hret, Hout. subst e0.
  revert Hrun. handler_cases; intros [= <-].
  all: try (rewrite bool_decide_eq_false in *; done).
  all: simplify_eq; rewrite Hapi in *; cbn [w].
  all: repeat match goal with
       | H1 : ?t = _, H2 : ?t = _ |- _ => rewrite H1 in H2; simplify_eq
       end.
  all: rewrite (bool_decide_eq_true_2 _ Hmethod).
  all: rewrite status_copied, body_copied, drive_delivered, Hout.
  all: rewrite !status_Header_Set, !body_Header_Set, body_WriteHeader,
         status_WriteHeader by done.
  all: split; [done|]; cbn [body fresh app].
  all: unfold window; rewrite drop_0, take_take, take_ge; [done|unfold len in *; lia].
Qed.

(** A file of ten bytes in parts of 4, 4 and 2 bytes: its last byte, number
    9, is the second byte of the third part. *)
Lemma GetFileStream_full_body_witness :
  let env := sample_env false sample_file sample_parts (Err "unused") in
  let r := {| Method := "GET"; Range := EmptyString; fileID := "f" |} in
  status (w (GetFileStream env r (arrival 0)).2) = StatusOK ∧
  body (w (GetFileStream env r (arrival 0)).2)
  = file_bytes (sample_store (size_of sample_parts)) sample_parts.
Proof.
  apply (GetFileStream_full_body
           (sample_env false sample_file sample_parts (Err "unused"))
           {| Method := "GET"; Range := EmptyString; fileID := "f" |} 0
           (GetFileStream (sample_env false sample_file sample_parts (Err "unused"))
              {| Method := "GET"; Range := EmptyString; fileID := "f" |} (arrival 0)).2
           sample_file sample_slice (sample_part 1 4)
           (sample_store (size_of sample_parts)) (λ _, sample_spare)).
  - vm_compute. reflexivity.
  - discriminate.
  - reflexivity.
  - reflexivity.
  - reflexivity.
  - reflexivity.
  - reflexivity.
  - repeat split; (done || lia).
  - vm_compute. reflexivity.
  - vm_compute. reflexivity.
  - vm_compute. discriminate.
Defined.

(** ** The producer of a HEAD request *)

Lemma update_length {A} (s t : list A) (i : Z) (f : A → A) :
  update s i f = Ok t → length t = length s ∧ s ≠ [].
Proof.
  unfold update, index. case_bool_decide; [|done].
  destruct (s !! Z.to_nat i) as [a|] eqn:Ha; [|done].
  cbn [mbind result_bind]. intros [= <-]. rewrite length_insert.
  split; [done|]. by intros ->.
Qed.

(** The slicer never returns an empty selection. *)
Lemma rangedParts_nonempty (parts : Slice Part) (sel : list Part) (start end_ : Z) :
  rangedParts parts start end_ = Ok sel → sel ≠ [].
Proof.
  unfold rangedParts.
  destruct (index (elems parts) 0) as [p0|]; [|done]. cbn [mbind result_bind].
  case_bool_decide; [done|].
  destruct (slice parts _ _) as [l|]; [|done]. cbn [mbind result_bind].
  destruct (update l 0 _) as [l'|] eqn:Hfirst; [|done]. cbn [mbind result_bind].
  intros Hlast.
  destruct (update_length _ _ _ _ Hfirst) as [Hlen Hne].
  destruct (update_length _ _ _ _ Hlast) as [Hlen' _].
  intros ->. destruct l; [done|]. simpl in *. lia.
Qed.

(** X11.  Every HEAD request that the handler serves to its end has sent
    at least one request to the blob API, and has no body. *)
Lemma GetFileStream_HEAD_remote (env : Env) (r : Request) (wl : Z) (st' : State) :
  Method r = "HEAD" →
  GetFileStream env r (arrival wl) = (Next (), st') →
  remote st' ≠ [] ∧ body (w st') = [].
Proof.
  intros Hhead Hrun. revert Hrun. handler_cases; intros [= <-]; cbn [remote w].
  all: rewrite bool_decide_eq_false_2 by (rewrite Hhead; by intros []).
  all: match goal with
       | Hsel : rangedParts _ _ _ = Ok ?sel, Hp : producer _ ?sel = _ |- _ =>
         apply rangedParts_nonempty in Hsel; destruct sel as [|part sel]; [done|];
         unfold producer in Hp; cbn [producer_at] in Hp;
         destruct (streamFilePart_starts (UploadGetFile env) part (Start part) (End part)
                     transferUnit ltac:(done)) as (req & evs' & Hfirst);
         destruct (streamFilePart _ _ _ _ _) as [evs1 e1]; cbn [fst] in Hfirst; subst evs1;
         destruct e1; [destruct (producer_at _ _ sel)|..]; simplify_eq
       end.
  all: rewrite body_copied, drive_delivered; cbn [drive add_issued issued app].
  all: split; [done|]; change (Z.to_nat 0) with 0%nat; cbn [take].
  all: by rewrite app_nil_r, !body_Header_Set, ?body_WriteHeader.
Qed.

Lemma GetFileStream_HEAD_remote_witness :
  let env := sample_env true sample_file sample_parts (Err "unused") in
  let r := {| Method := "HEAD"; Range := EmptyString; fileID := "f" |} in
  remote (GetFileStream env r (arrival 0)).2 ≠ [] ∧
  body (w (GetFileStream env r (arrival 0)).2) = [].
Proof.
  apply (GetFileStream_HEAD_remote
           (sample_env true sample_file sample_parts (Err "unused"))
           {| Method := "HEAD"; Range := EmptyString; fileID := "f" |} 0).
  - reflexivity.
  - vm_compute. reflexivity.
Defined.

(** ** The bounds of a part stream *)

(** X1.  Whatever the remote end returns and whatever its arguments, a part
    stream ends: its loop does not outrun the [max(partCount, 1)] rounds
    that the embedding allows it, so it sends at most that many requests.
    Its requests are those for consecutive blocks of [U] bytes of its own
    part, from the block that holds [start] on.  And every write follows a
    fetch of its own: there are as many writes as fetches, or one less. *)
Theorem streamFilePart_fetch_bound (api : API) (part : Part) (start end_ U : Z) :
  let run := streamFilePart api part start end_ U in
  run.2 ≠ OutOfFuel ∧
  fetches run.1 = request part U <$> seqZ (start ÷ U) (len (fetches run.1)) ∧
  len (fetches run.1) ≤ Z.max (partCount start end_ U) 1 ∧
  len (writes run.1) ≤ len (fetches run.1) ≤ len (writes run.1) + 1.
Proof.
  intros run. split; [apply streamFilePart_total|].
  unfold run, streamFilePart. case_bool_decide as HU.
  { cbn. unfold len. simpl. split; [done|lia]. }
  rewrite offset0_quot.
  pose proof (loop_fetches api part start end_ U
                (Z.to_nat (Z.max (partCount start end_ U) 1)) (start ÷ U) 1) as Hloop.
  cbv zeta in Hloop. destruct Hloop as (Hreq & Hfuel & Hwrites).
  split; [done|]. split; [lia|done].
Qed.

(** X2.  Against a remote end that returns the bytes asked for, a part
    stream over a range [[start, end_]] that lies within its part returns
    after it has emitted exactly the bytes [start] to [end_] of the part,
    [end_ - start + 1] of them, with one fetch for each of the blocks number
    [start / U] to [end_ / U].  Ranges that begin or end on a boundary of a
    block are no exception, and what the arrays of the blocks hold behind
    them does not matter. *)
Theorem streamFilePart_window (store : Z → bytes) (spare : UploadGetFileRequest → bytes)
    (part : Part) (start end_ U : Z) :
  0 < U → 0 ≤ start → start ≤ end_ → end_ < len (store (ID (Location part))) →
  let run := streamFilePart (faithful store spare) part start end_ U in
  run.2 = Returned ∧
  emitted run.1 = window (store (ID (Location part))) start end_ ∧
  len (emitted run.1) = end_ - start + 1 ∧
  fetches run.1 = request part U <$> seqZ (start / U) (end_ / U - start / U + 1).
Proof.
  intros HU Hstart Hend Hsize run.
  destruct (streamFilePart_faithful store spare part start end_ U HU Hstart Hend Hsize)
    as [Hret Hout].
  split; [done|]. split; [done|]. split.
  - unfold run. rewrite Hout. apply len_window; lia.
  - unfold run. rewrite streamFilePart_replay by done.
    rewrite (replay_good part start end_ U).
    + cbn [fst]. rewrite fetches_steps. unfold expected.
      by rewrite <- list_fmap_compose.
    + apply (Forall_expected (λ k r, elems r ≠ [] ∧ fits start end_ U k r)).
      intros k Hk. by apply block_good.
Qed.

Lemma streamFilePart_window_witness :
  let store := sample_store (λ _, 30) in
  let run := streamFilePart (faithful store (λ _, sample_spare)) (sample_part 1 30) 10 29 10 in
  run.2 = Returned ∧
  emitted run.1 = window (store 1) 10 29 ∧
  len (emitted run.1) = 29 - 10 + 1 ∧
  fetches run.1 = request (sample_part 1 30) 10 <$> seqZ (10 / 10) (29 / 10 - 10 / 10 + 1).
Proof.
  apply (streamFilePart_window (sample_store (λ _, 30)) (λ _, sample_spare)
           (sample_part 1 30) 10 29 10);
    [lia..|].
  vm_compute. reflexivity.
Defined.

(** ** Failures of the blob API *)

Lemma loop_silenced (api : API) (part : Part) (start end_ U : Z)
    (fuel : nat) (offset currentPart : Z) :
  loop (silenced api) part start end_ U fuel offset currentPart
  = loop api part start end_ U fuel offset currentPart.
Proof.
  revert offset currentPart. induction fuel as [|fuel IH]; intros offset currentPart; [done|].
  cbn [loop]. rewrite IH.
  replace (chunk (silenced api) part offset U)
    with (Val (A:=Slice Byte.byte)
            match chunk api part offset U with Val b => b | Err _ => nil_slice end);
    [done|].
  unfold chunk, silenced. by destruct (api _) as [[b| ]|].
Qed.

Lemma producer_at_silenced (api : API) (unit : Z) (parts : list Part) :
  producer_at unit (silenced api) parts = producer_at unit api parts.
Proof.
  induction parts as [|part parts IH]; [done|].
  cbn [producer_at]. unfold streamFilePart. by rewrite !loop_silenced, IH.
Qed.

Lemma producer_silenced_eq (api : API) (parts : list Part) :
  producer (silenced api) parts = producer api parts.
Proof. apply producer_at_silenced. Qed.

(** X3.  A failure of the blob API never reaches the client.  [chunk]
    returns the error, [streamFilePart] drops it and takes the missing
    block for the end of the data.  So the producer, and with it the whole
    outcome of [GetFileStream] (exit, status, headers, body, counter), is
    the one it has against a remote end that answers with an empty block
    wherever this one fails or answers with another type than
    [tg.UploadFile]. *)
Theorem GetFileStream_silenced (env : Env) (r : Request) (wl : Z) :
  (∀ parts, producer (silenced (UploadGetFile env)) parts
            = producer (UploadGetFile env) parts) ∧
  GetFileStream (silence env) r (arrival wl) = GetFileStream env r (arrival wl).
Proof.
  split; [intros parts; apply producer_at_silenced|].
  unfold GetFileStream, GetFileStream_body, arrival.
  change (GetFileByID (silence env)) with (GetFileByID env).
  change (getParts (silence env)) with (getParts env).
  change (run_deferred (silence env)) with (run_deferred env).
  cbn [silence MultiClient GetAuthClient Parse UploadGetFile].
  handler_simpl.
  repeat (rewrite ?producer_silenced_eq; handler_step); try done.
Qed.

(** ** When the slicer returns *)

Lemma update_Ok {A} (s : list A) (i : Z) (f : A → A) :
  (∃ t, update s i f = Ok t) ↔ 0 ≤ i < len s.
Proof.
  unfold update, index, len. split.
  - intros [t Ht]. case_bool_decide; [|done].
    destruct (s !! Z.to_nat i) as [a|] eqn:Ha; [|done].
    apply lookup_lt_Some in Ha. lia.
  - intros Hi. rewrite bool_decide_eq_true_2 by lia.
    destruct (lookup_lt_is_Some_2 s (Z.to_nat i) ltac:(lia)) as [a ->].
    by eexists.
Qed.

(** X4.  [rangedParts] returns, rather than panics, exactly when the list
    of parts is not empty, the size [c] of its first part is not zero, and
    the two indices that it computes select at least one element of the
    array of the parts:
    [max(ceil(start/c) - 1, 0) < ceil(end_/c) <= cap(parts)].  The upper
    index is checked against the capacity of the slice, not against its
    length: the selection may reach behind the list. *)
Theorem rangedParts_returns_iff (parts : Slice Part) (start end_ : Z) :
  (∃ sel, rangedParts parts start end_ = Ok sel) ↔
  ∃ p0, elems parts !! 0%nat = Some p0 ∧ Size p0 ≠ 0 ∧
        Max (ceil_div start (Size p0) - 1) 0 < ceil_div end_ (Size p0) ≤ cap parts.
Proof.
  unfold rangedParts, index. rewrite bool_decide_eq_true_2 by lia.
  change (Z.to_nat 0) with 0%nat.
  destruct (elems parts !! 0%nat) as [p0|] eqn:Hp0; cbn [mbind result_bind].
  2: { split; [by intros [? ?]|by intros (? & ? & _)]. }
  case_bool_decide as Hc.
  { split; [by intros [? ?]|]. intros (? & [= <-] & ? & _). done. }
  set (lo := Max (ceil_div start (Size p0) - 1) 0).
  set (hi := ceil_div end_ (Size p0)).
  assert (0 ≤ lo) by (unfold lo, Max; lia).
  unfold slice. case_bool_decide as Hslice; cbn [mbind result_bind].
  2: { split; [by intros [? ?]|]. intros (? & [= <-] & _ & ?). lia. }
  set (l := take (Z.to_nat (hi - lo)) (drop (Z.to_nat lo) (elems parts ++ room parts))).
  assert (Hl : len l = hi - lo).
  { unfold l, cap, len in *. rewrite length_take, length_drop, length_app. lia. }
  split.
  - intros [sel Hsel].
    destruct (update l 0 _) as [l'|] eqn:Hfirst; [|done].
    apply update_length in Hfirst as [_ Hne].
    exists p0. split; [done|]. split; [done|].
    destruct l; [done|]. unfold len in Hl. simpl in Hl. lia.
  - intros (? & [= <-] & _ & Hlt).
    destruct (proj2 (update_Ok l 0 (set_Start (Z.rem start (Size p0)))) ltac:(lia))
      as [l' Hfirst].
    rewrite Hfirst. cbn [mbind result_bind].
    apply update_length in Hfirst as Hlen. destruct Hlen as [Hlen _].
    apply update_Ok. unfold len in *. lia.
Qed.

(** What a call of the slicer that returns has done *)
Lemma rangedParts_Ok_inv (parts : Slice Part) (sel : list Part) (start end_ : Z) :
  rangedParts parts start end_ = Ok sel →
  ∃ p0 l,
    elems parts !! 0%nat = Some p0 ∧ Size p0 ≠ 0 ∧
    let lo := Max (ceil_div start (Size p0) - 1) 0 in
    let hi := ceil_div end_ (Size p0) in
    0 ≤ lo ∧ lo < hi ∧ hi ≤ cap parts ∧
    l = take (Z.to_nat (hi - lo)) (drop (Z.to_nat lo) (elems parts ++ room parts)) ∧
    len l = hi - lo ∧
    sel = alter (set_End (Z.rem end_ (Size p0))) (length l - 1)%nat
            (alter (set_Start (Z.rem start (Size p0))) 0%nat l).
Proof.
  unfold rangedParts, index. rewrite bool_decide_eq_true_2 by lia.
  change (Z.to_nat 0) with 0%nat.
  destruct (elems parts !! 0%nat) as [p0|] eqn:Hp0; cbn [mbind result_bind]; [|done].
  case_bool_decide as Hc; [done|].
  set (lo := Max (ceil_div start (Size p0) - 1) 0).
  set (hi := ceil_div end_ (Size p0)).
  assert (0 ≤ lo) by (unfold lo, Max; lia).
  unfold slice. case_bool_decide as Hslice; cbn [mbind result_bind]; [|done].
  set (l := take (Z.to_nat (hi - lo)) (drop (Z.to_nat lo) (elems parts ++ room parts))).
  assert (Hl : len l = hi - lo).
  { unfold l, cap, len in *. rewrite length_take, length_drop, length_app. lia. }
  destruct (update l 0 _) as [l'|] eqn:Hfirst; [|done]. cbn [mbind result_bind].
  intros Hlast.
  pose proof (update_length _ _ _ _ Hfirst) as [Hlen Hne].
  assert (0 < len l) by (destruct l; [done|unfold len; simpl; lia]).
  rewrite update_alter in Hfirst by lia. injection Hfirst as <-.
  rewrite update_alter in Hlast by (unfold len in *; lia). injection Hlast as <-.
  exists p0, l. cbv zeta. fold lo hi.
  repeat split; try done; try lia.
  change (Z.to_nat 0) with 0%nat. do 2 f_equal.
  unfold len. rewrite length_alter. lia.
Qed.

(** X5.  What [rangedParts] returns is a run of consecutive elements of
    the array of the parts, from index [max(ceil(start/c) - 1, 0)] on, never
    empty: parts of the list, and behind them what the array holds in its
    room.  Each element keeps its [Location] and its [Size]; the [Start] of
    the first one is [start % c], the [End] of the last one is [end_ % c],
    and every other [Start] and [End] is as it was in the array. *)
Theorem rangedParts_frame (parts : Slice Part) (sel : list Part) (start end_ : Z) :
  rangedParts parts start end_ = Ok sel →
  ∃ p0, elems parts !! 0%nat = Some p0 ∧
    let lo := Max (ceil_div start (Size p0) - 1) 0 in
    len sel = ceil_div end_ (Size p0) - lo ∧ 0 < len sel ∧
    ∀ (i : nat) (p : Part), sel !! i = Some p →
      ∃ q, (elems parts ++ room parts) !! (Z.to_nat lo + i)%nat = Some q ∧
           Location p = Location q ∧ Size p = Size q ∧
           Start p = (if bool_decide (i = 0%nat) then Z.rem start (Size p0) else Start q) ∧
           End p = (if bool_decide (Z.of_nat i = len sel - 1)
                    then Z.rem end_ (Size p0) else End q).
Proof.
  intros (p0 & l & Hp0 & Hc & Hlo & Hlt & Hhi & Hl & Hlen & ->)%rangedParts_Ok_inv.
  cbv zeta in *.
  set (lo := Max (ceil_div start (Size p0) - 1) 0) in *.
  exists p0. split; [done|]. cbv zeta. fold lo.
  unfold len in *. rewrite !length_alter.
  split; [lia|]. split; [lia|].
  intros i p Hp.
  assert (Hi : (i < length l)%nat).
  { apply lookup_lt_Some in Hp. by rewrite !length_alter in Hp. }
  destruct (lookup_lt_is_Some_2 l i Hi) as [q Hq].
  exists q. split.
  { rewrite Hl in Hq. rewrite lookup_take_Some in Hq. destruct Hq as [Hq _].
    by rewrite lookup_drop in Hq. }
  destruct (decide (i = (length l - 1)%nat)) as [Hlasti|Hlasti];
    [rewrite <- Hlasti, list_lookup_alter_eq in Hp
    |rewrite list_lookup_alter_ne in Hp by done];
    (destruct (decide (i = 0%nat)) as [Hfirsti|Hfirsti];
     [rewrite <- Hfirsti, list_lookup_alter_eq in Hp
     |rewrite list_lookup_alter_ne in Hp by done]);
    rewrite Hq in Hp; injection Hp as <-; cbn [Location Size Start End set_Start set_End].
  all: repeat case_bool_decide; (done || lia).
Qed.

Lemma rangedParts_frame_witness :
  let parts :=
    appended sample_growslice [sample_part 1 1000; sample_part 2 1000; sample_part 3 500] in
  let sel := [mkPart (sample_loc 2) 500 999 1000; mkPart (sample_loc 3) 0 200 500] in
  ∃ p0, elems parts !! 0%nat = Some p0 ∧
    let lo := Max (ceil_div 1500 (Size p0) - 1) 0 in
    len sel = ceil_div 2200 (Size p0) - lo ∧ 0 < len sel ∧
    ∀ (i : nat) (p : Part), sel !! i = Some p →
      ∃ q, (elems parts ++ room parts) !! (Z.to_nat lo + i)%nat = Some q ∧
           Location p = Location q ∧ Size p = Size q ∧
           Start p = (if bool_decide (i = 0%nat) then Z.rem 1500 (Size p0) else Start q) ∧
           End p = (if bool_decide (Z.of_nat i = len sel - 1)
                    then Z.rem 2200 (Size p0) else End q).
Proof.
  apply (rangedParts_frame
           (appended sample_growslice
              [sample_part 1 1000; sample_part 2 1000; sample_part 3 500])
           [mkPart (sample_loc 2) 500 999 1000; mkPart (sample_loc 3) 0 200 500]
           1500 2200).
  reflexivity.
Defined.

Lemma ceil_div_exact (a b : Z) : 0 < b → a `mod` b = 0 → ceil_div a b = a / b.
Proof.
  intros Hb Hr. unfold ceil_div. rewrite Z.div_opp_l_z by lia. lia.
Qed.

Lemma Location_alter (f : Part → Part) (i : nat) (l : list Part) :
  (∀ p, Location (f p) = Location p) → Location <$> alter f i l = Location <$> l.
Proof.
  intros Hf. revert i. induction l as [|p l IH]; intros [|i]; [done..| |].
  - cbn. by rewrite Hf.
  - cbn. f_equal. apply IH.
Qed.

(** X23.  Which parts the slicer selects.  For a first part of size
    [c > 0] and a range with [0 <= start] and [0 <= end_], a call that
    returns has selected the elements number [first] to [last] of the array
    of the parts, and [last] is below the capacity; where [last] is below
    the length, they are parts of the list.  [last] is [end_ / c], the part that
    holds the byte [end_], except when [end_] is a multiple of [c]: then it
    is the part before.  [first] is [start / c], the part that holds the
    byte [start], except when [start] is a positive multiple of [c]: then it
    is the part before. *)
Theorem rangedParts_selected_indices (parts : Slice Part) (sel : list Part) (p0 : Part)
    (start end_ : Z) :
  elems parts !! 0%nat = Some p0 → 0 < Size p0 → 0 ≤ start → 0 ≤ end_ →
  rangedParts parts start end_ = Ok sel →
  let c := Size p0 in
  let first := if bool_decide (0 < start ∧ start `mod` c = 0)
               then start / c - 1 else start / c in
  let last := if bool_decide (end_ `mod` c = 0) then end_ / c - 1 else end_ / c in
  0 ≤ first ∧ first ≤ last ∧ last < cap parts ∧
  len sel = last - first + 1 ∧
  Location <$> sel
  = Location <$> take (Z.to_nat (last - first + 1))
                      (drop (Z.to_nat first) (elems parts ++ room parts)) ∧
  (last < len (elems parts) →
   Location <$> sel
   = Location <$> take (Z.to_nat (last - first + 1)) (drop (Z.to_nat first) (elems parts))).
Proof.
  intros Hp0 Hc Hstart Hend
    (p0' & l & Hp0' & _ & Hlo & Hlt & Hhi & Hl & Hlen & ->)%rangedParts_Ok_inv.
  rewrite Hp0 in Hp0'. injection Hp0' as <-. cbv zeta in *.
  set (c := Size p0) in *.
  assert (Hfirst : Max (ceil_div start c - 1) 0
                   = if bool_decide (0 < start ∧ start `mod` c = 0)
                     then start / c - 1 else start / c).
  { unfold Max. assert (0 ≤ start / c) by (apply Z.div_pos; lia).
    case_bool_decide as Hb.
    - destruct Hb as [Hpos Hrem]. rewrite ceil_div_exact by done.
      assert (1 ≤ start / c); [|lia].
      pose proof (Z.div_mod start c). nia.
    - destruct (decide (start `mod` c = 0)) as [Hrem|Hrem].
      + assert (start = 0) as -> by lia. rewrite ceil_div_exact by done.
        rewrite Z.div_0_l by lia. lia.
      + rewrite ceil_div_inexact by done. lia. }
  assert (Hlast : ceil_div end_ c
                  = (if bool_decide (end_ `mod` c = 0) then end_ / c - 1 else end_ / c) + 1).
  { destruct (decide (end_ `mod` c = 0)) as [Hb|Hb].
    - rewrite (bool_decide_eq_true_2 _ Hb), ceil_div_exact by done. lia.
    - by rewrite (bool_decide_eq_false_2 _ Hb), ceil_div_inexact by done. }
  rewrite Hfirst, Hlast in *.
  set (first := if bool_decide (0 < start ∧ start `mod` c = 0)
                then start / c - 1 else start / c) in *.
  set (last := if bool_decide (end_ `mod` c = 0) then end_ / c - 1 else end_ / c) in *.
  unfold len in *. rewrite !length_alter.
  split; [lia|]. split; [lia|]. split; [lia|]. split; [lia|].
  rewrite !Location_alter by (intros p; reflexivity).
  rewrite Hl.
  replace (Z.to_nat (last + 1 - first)) with (Z.to_nat (last - first + 1)) by lia.
  split; [done|]. intros Hin. by rewrite take_drop_app by lia.
Qed.

Lemma rangedParts_selected_indices_witness :
  let parts :=
    appended sample_growslice [sample_part 1 1000; sample_part 2 1000; sample_part 3 500] in
  let sel := [mkPart (sample_loc 1) 500 0 1000] in
  let c := 1000 in
  let first := if bool_decide (0 < 500 ∧ 500 `mod` c = 0) then 500 / c - 1 else 500 / c in
  let last := if bool_decide (1000 `mod` c = 0) then 1000 / c - 1 else 1000 / c in
  0 ≤ first ∧ first ≤ last ∧ last < cap parts ∧
  len sel = last - first + 1 ∧
  Location <$> sel
  = Location <$> take (Z.to_nat (last - first + 1))
                      (drop (Z.to_nat first) (elems parts ++ room parts)) ∧
  (last < len (elems parts) →
   Location <$> sel
   = Location <$> take (Z.to_nat (last - first + 1)) (drop (Z.to_nat first) (elems parts))).
Proof.
  apply (rangedParts_selected_indices
           (appended sample_growslice
              [sample_part 1 1000; sample_part 2 1000; sample_part 3 500])
           [mkPart (sample_loc 1) 500 0 1000] (sample_part 1 1000) 500 1000).
  - reflexivity.
  - simpl. lia.
  - lia.
  - lia.
  - reflexivity.
Defined.

(** A selection that reaches behind the list.  The three parts of 1000,
    1000 and 500 bytes are in an array of four; for the range [[0, 3001]]
    the slicer selects [parts[0:4]]: the three parts and the zero value
    behind them, on which it sets [End].  In an array of three the same
    call panics. *)
Lemma rangedParts_behind_list :
  let parts := [sample_part 1 1000; sample_part 2 1000; sample_part 3 500] in
  rangedParts (appended sample_growslice parts) 0 3001
  = Ok [sample_part 1 1000; sample_part 2 1000; sample_part 3 500; set_End 1 zero_Part] ∧
  rangedParts (mkSlice parts []) 0 3001 = Panic slice_out_of_range.
Proof. split; reflexivity. Qed.

(** ** The parts of a file *)

Lemma elems_append {A} (grow : Z → Z) (zero : A) (s : Slice A) (a : A) :
  elems (append grow zero s a) = elems s ++ [a].
Proof. unfold append. by destruct (room s). Qed.

Lemma room_append {A} (grow : Z → Z) (zero : A) (s : Slice A) (a : A) :
  Forall (λ x, x = zero) (room s) → Forall (λ x, x = zero) (room (append grow zero s a)).
Proof.
  intros Hroom. unfold append. destruct (room s) as [|x rest] eqn:Hrest; cbn [room].
  - by apply Forall_replicate.
  - by apply Forall_cons in Hroom as [_ Hroom].
Qed.

Lemma elems_foldl_append (grow : Z → Z) (acc : Slice Part) (parts : list Part) :
  elems (foldl (append grow zero_Part) acc parts) = elems acc ++ parts.
Proof.
  revert acc. induction parts as [|p parts IH]; intros acc; cbn [foldl].
  - by rewrite app_nil_r.
  - by rewrite IH, elems_append, <- app_assoc.
Qed.

Lemma room_foldl_append (grow : Z → Z) (acc : Slice Part) (parts : list Part) :
  Forall (λ p, p = zero_Part) (room acc) →
  Forall (λ p, p = zero_Part) (room (foldl (append grow zero_Part) acc parts)).
Proof.
  revert acc. induction parts as [|p parts IH]; intros acc Hacc; cbn [foldl]; [done|].
  by apply IH, room_append.
Qed.

(** The loop of [getParts] returns exactly when every message holds a
    document; it has then appended the parts of the documents, in order. *)
Lemma collect_Ok (grow : Z → Z) (messages : list MessageClass) (acc got : Slice Part) :
  collect grow acc messages = Ok got ↔
  ∃ parts, messages = document_of <$> parts ∧
           Forall (λ p, Start p = 0 ∧ End p = Size p - 1) parts ∧
           got = foldl (append grow zero_Part) acc parts.
Proof.
  revert acc. induction messages as [|m messages IH]; intros acc.
  - cbn. split.
    + intros [= <-]. by exists [].
    + intros (parts & Hnil & _ & ->). by destruct parts.
  - cbn [collect]. split.
    + destruct m as [[[location size| ]| ]| ]; cbn; try done.
      intros (parts & -> & Hall & ->)%IH.
      exists (mkPart location 0 (size - 1) size :: parts).
      split; [done|]. split; [|done]. by constructor.
    + intros (parts & Hm & Hall & ->). destruct parts as [|p parts]; [done|].
      injection Hm as -> ->. apply Forall_cons in Hall as [[HS HE] Hall].
      cbn. apply IH. exists parts. split; [done|]. split; [done|].
      destruct p as [loc s e sz]. cbn in *. by subst.
Qed.

Lemma collect_Panic (grow : Z → Z) (messages : list MessageClass) (acc : Slice Part)
    (why : string) :
  collect grow acc messages = Panic why → why = bad_type_assertion.
Proof.
  revert acc. induction messages as [|m messages IH]; intros acc; [done|].
  cbn [collect]. destruct m as [[[location size| ]| ]| ]; cbn; try by intros [= <-].
  apply IH.
Qed.

(** X7.  When the file has a list of part ids, the channel is resolved and
    Telegram answers with the messages of the file, [getParts] returns a
    slice of parts exactly when every message holds a document.  The parts
    are then those documents, one per message and in the order of the
    messages, and each covers its whole document: [Start] is 0 and [End] is
    [Size - 1].  The slice is the one that appending them one by one gives:
    what its array holds behind the parts are zero values.  When some
    message holds no document, [getParts] panics on a failed type
    assertion; it returns no error. *)
Theorem getParts_whole_documents (env : Env) (file : schemas.FileOutFull)
    (ids : list Z) (messages : list MessageClass) :
  schemas.Parts file = Some ids → GetChannelById env = Val () →
  ChannelsGetMessages env ids = Val (MessagesChannelMessages messages) →
  (∀ parts, getParts env file = Ok (Val parts) ↔
     messages = document_of <$> elems parts ∧
     Forall (λ p, Start p = 0 ∧ End p = Size p - 1) (elems parts) ∧
     parts = appended (growslice env) (elems parts)) ∧
  (∀ parts, getParts env file = Ok (Val parts) →
     Forall (λ p, p = zero_Part) (room parts)) ∧
  (∀ err, getParts env file ≠ Ok (Err err)) ∧
  ((∃ parts, getParts env file = Ok (Val parts)) ∨
   getParts env file = Panic bad_type_assertion).
Proof.
  intros Hids Hchannel Hmessages. unfold getParts.
  rewrite Hids, Hchannel, Hmessages.
  assert (Hgot : ∀ parts,
    collect (growslice env) (mkSlice [] []) messages = Ok parts ↔
    messages = document_of <$> elems parts ∧
    Forall (λ p, Start p = 0 ∧ End p = Size p - 1) (elems parts) ∧
    parts = appended (growslice env) (elems parts)).
  { intros parts. rewrite collect_Ok. unfold appended. split.
    - intros (l & Hm & Hall & ->). by rewrite elems_foldl_append.
    - intros (Hm & Hall & Hparts). by exists (elems parts). }
  split; [|split; [|split]].
  - intros parts. rewrite <- Hgot.
    destruct (collect _ _ messages) as [got|]; cbn; [|done].
    split; by intros [= <-].
  - intros parts.
    destruct (collect _ _ messages) as [got|] eqn:Hcollect; cbn; [|done].
    intros [= <-]. destruct (proj1 (Hgot got) eq_refl) as (_ & _ & Heq).
    rewrite Heq. by apply room_foldl_append.
  - intros err. by destruct (collect _ _ messages).
  - destruct (collect _ _ messages) as [got|why] eqn:Hcollect; cbn;
      [left; by eexists|right].
    by apply collect_Panic in Hcollect as ->.
Qed.

Lemma getParts_whole_documents_witness :
  let env := sample_env false sample_file sample_parts (Err "unused") in
  getParts env sample_file = Ok (Val sample_slice) ∧
  elems sample_slice = sample_parts ∧
  room sample_slice = [zero_Part] ∧
  (∀ err, getParts env sample_file ≠ Ok (Err err)).
Proof.
  destruct (getParts_whole_documents
              (sample_env false sample_file sample_parts (Err "unused"))
              sample_file [1; 2; 3] (document_of <$> sample_parts))
    as (Hiff & _ & Herr & _); [reflexivity..|].
  split; [|done]. apply Hiff. split; [done|]. split; [|done].
  repeat constructor.
Defined.

(** ** The responses of the stream handler *)

(** X9.  A GET request with a Range header is served in full when the file
    is stored in whole parts of uniform chunk size [c], the remote end
    returns the bytes asked for, and the first parsed range [[start, end_]]
    lies within the file with [end_] not a multiple of [c] and [start] zero
    or not a multiple of [c]: the handler runs to its end, the status is
    206, the body is made of the bytes [start] to [end_] of the file, and
    Content-Length is the length of that body. *)
Theorem GetFileStream_partial_body (env : Env) (r : Request) (wl : Z)
    (file : schemas.FileOutFull) (ranges : list range_parser.Range)
    (r0 : range_parser.Range) (parts : Slice Part) (p0 : Part) (store : Z → bytes)
    (spare : UploadGetFileRequest → bytes) :
  MultiClient env = true ∨ GetAuthClient env = Val () →
  Method r ≠ "HEAD" → Range r ≠ EmptyString →
  GetFileByID env (fileID r) = Val file →
  Parse env (schemas.Size file) (Range r) = Val ranges → ranges !! 0%nat = Some r0 →
  getParts env file = Ok (Val parts) →
  UploadGetFile env = faithful store spare →
  elems parts !! 0%nat = Some p0 → chunked (Size p0) store (elems parts) →
  0 ≤ range_parser.Start r0 → range_parser.Start r0 ≤ range_parser.End r0 →
  range_parser.End r0 < len (file_bytes store (elems parts)) →
  range_parser.Start r0 = 0 ∨ range_parser.Start r0 `mod` Size p0 ≠ 0 →
  range_parser.End r0 `mod` Size p0 ≠ 0 →
  let st' := (GetFileStream env r (arrival wl)).2 in
  (GetFileStream env r (arrival wl)).1 = Next () ∧
  status (w st') = StatusPartialContent ∧
  body (w st')
  = window (file_bytes store (elems parts)) (range_parser.Start r0) (range_parser.End r0) ∧
  header (w st') !! "Content-Length" = Some (pretty (len (body (w st')))).
Proof.
  intros Hclient Hmethod Hrange Hfile Hparse Hr0 Hparts Hapi Hp0 Hchunked
    Hstart Hend Htotal Hs He.
  set (start := range_parser.Start r0) in *.
  set (end_ := range_parser.End r0) in *.
  assert (Hc : 0 < Size p0).
  { destruct (elems parts) as [|p rest]; [done|]. simplify_eq/=.
    by destruct Hchunked as (_ & [? _] & _). }
  pose proof (chunked_length _ _ _ Hchunked) as Hlen.
  assert (Hn : end_ / Size p0 < len (elems parts)) by (apply Z.div_lt_upper_bound; lia).
  pose proof (rangedParts_selected parts p0 start end_ Hp0 Hc Hstart Hend Hs He Hn)
    as Hsel.
  destruct (producer_selected transferUnit (Size p0) store spare (elems parts) start end_)
    as [Hret Hout]; [done..|].
  unfold producer in *.
  destruct (producer_at transferUnit (faithful store spare)
              (selected (Size p0) (elems parts) start end_))
    as [evs e] eqn:Hprod.
  cbn [fst snd] in Hret, Hout. subst e.
  assert (Hbody : delivered (drive (end_ - start + 1) evs Returned)
                  = window (file_bytes store (elems parts)) start end_).
  { rewrite drive_delivered, Hout. unfold window.
    rewrite take_take. f_equal. lia. }
  pose proof (len_window (file_bytes store (elems parts)) start end_ Hstart Hend Htotal)
    as Hwlen.
  unfold GetFileStream, GetFileStream_body, arrival.
  rewrite Hfile, (bool_decide_eq_false_2 _ Hrange).
  handler_simpl.
  destruct (MultiClient env) eqn:Hmc;
    [|destruct Hclient as [?|Hauth]; [done|rewrite Hauth]]; handler_simpl.
  all: rewrite Hparse; handler_simpl; rewrite (index_0 ranges r0 Hr0); handler_simpl.
  all: fold start end_; rewrite Hparts; handler_simpl; rewrite Hsel; handler_simpl.
  all: rewrite Hapi; unfold producer; rewrite Hprod.
  all: rewrite (bool_decide_eq_true_2 _ Hmethod).
  all: unfold stream; handler_simpl.
  all: destruct (fate_drive (end_ - start + 1) evs Returned) as [Hfate|Hfate];
    rewrite Hfate; handler_simpl; cbn [fst snd w].
  all: rewrite ?status_copied, ?header_copied, ?body_copied, Hbody.
  all: rewrite !status_Header_Set, !body_Header_Set, ?body_WriteHeader,
         ?header_Header_Set, status_WriteHeader by done.
  all: rewrite !body_Header_Set; cbn [body fresh app]; rewrite Hwlen.
  all: repeat split; try done; by simplify_map_eq.
Qed.

Lemma GetFileStream_partial_body_witness :
  let env := sample_env false sample_file sample_parts
               (Val [{| range_parser.Start := 1; range_parser.End := 5 |}]) in
  let r := {| Method := "GET"; Range := "bytes=1-5"; fileID := "f" |} in
  let st' := (GetFileStream env r (arrival 0)).2 in
  (GetFileStream env r (arrival 0)).1 = Next () ∧
  status (w st') = StatusPartialContent ∧
  body (w st') = window (file_bytes (sample_store (size_of sample_parts)) sample_parts) 1 5 ∧
  header (w st') !! "Content-Length" = Some (pretty (len (body (w st')))).
Proof.
  apply (GetFileStream_partial_body
           (sample_env false sample_file sample_parts
              (Val [{| range_parser.Start := 1; range_parser.End := 5 |}]))
           {| Method := "GET"; Range := "bytes=1-5"; fileID := "f" |} 0
           sample_file [{| range_parser.Start := 1; range_parser.End := 5 |}]
           {| range_parser.Start := 1; range_parser.End := 5 |}
           sample_slice (sample_part 1 4) (sample_store (size_of sample_parts))
           (λ _, sample_spare)).
  - by right.
  - discriminate.
  - discriminate.
  - reflexivity.
  - reflexivity.
  - reflexivity.
  - reflexivity.
  - reflexivity.
  - reflexivity.
  - repeat split; (done || lia).
  - simpl. lia.
  - simpl. lia.
  - vm_compute. reflexivity.
  - right. vm_compute. discriminate.
  - vm_compute. discriminate.
Defined.

(** X12.  The [Workload] counter after a request.  In multi-client mode it
    is back at its value before the request exactly when the handler runs
    to its end, and one above it on every other way out: a [return] after
    an error response, a panic, or the death of the process.  Without
    multi-client mode the handler never touches it. *)
Theorem GetFileStream_Workload_balance (env : Env) (r : Request) (wl : Z) :
  Workload (GetFileStream env r (arrival wl)).2
  = if MultiClient env
    then match (GetFileStream env r (arrival wl)).1 with
         | Next _ => wl
         | _ => wl + 1
         end
    else wl.
Proof.
  unfold GetFileStream, GetFileStream_body, arrival. handler_simpl.
  destruct (MultiClient env) eqn:Hmc; handler_simpl.
  all: repeat handler_step; stream_cases; try done; cbv [fst snd]; lia.
Qed.

(** X13.  The error responses of [GetFileStream].  Whenever the handler
    leaves through a [return], the body is one line, the message of the
    error that caused it, with Content-Type text/plain; no request has gone
    to the blob API and no producer was started.  The status is 500 when,
    outside multi-client mode, no client could be had for the user, and 400
    in the three other cases: the file is unknown, the Range header is
    rejected, or the parts of the file cannot be listed. *)
Theorem GetFileStream_error_exits (env : Env) (r : Request) (wl : Z) :
  (GetFileStream env r (arrival wl)).1 = Return →
  let st' := (GetFileStream env r (arrival wl)).2 in
  ∃ msg,
    body (w st') = bytes_of_string (msg +:+ newline) ∧
    header (w st') !! "Content-Type" = Some "text/plain; charset=utf-8" ∧
    remote st' = [] ∧ goroutine st' = None ∧
    (status (w st') = StatusInternalServerError ∧
     MultiClient env = false ∧ GetAuthClient env = Err msg
     ∨
     status (w st') = StatusBadRequest ∧
     (GetFileByID env (fileID r) = Err msg
      ∨ ∃ file, GetFileByID env (fileID r) = Val file ∧
          (Range r ≠ EmptyString ∧ Parse env (schemas.Size file) (Range r) = Err msg
           ∨ getParts env file = Ok (Err msg)))).
Proof.
  handler_cases; intros Hexit; try done.
  all: eexists; cbn [w remote goroutine].
  all: (split; [reflexivity|]); (split; [by simplify_map_eq|]).
  all: (split; [done|]); (split; [done|]).
  all: first [ left; done | right ].
  all: (split; [done|]).
  all: first [ left; done | right; eexists; split; [done|] ].
  all: first [ right; done | left ].
  all: split; [|done].
  all: match goal with H : bool_decide _ = false |- _ => by apply bool_decide_eq_false_1 in H end.
Qed.

Lemma GetFileStream_error_exits_witness :
  let env := sample_env false sample_file sample_parts (Err "unused") in
  let r := {| Method := "GET"; Range := EmptyString; fileID := "g" |} in
  let st' := (GetFileStream env r (arrival 0)).2 in
  ∃ msg,
    body (w st') = bytes_of_string (msg +:+ newline) ∧
    header (w st') !! "Content-Type" = Some "text/plain; charset=utf-8" ∧
    remote st' = [] ∧ goroutine st' = None ∧
    (status (w st') = StatusInternalServerError ∧
     MultiClient env = false ∧ GetAuthClient env = Err msg
     ∨
     status (w st') = StatusBadRequest ∧
     (GetFileByID env (fileID r) = Err msg
      ∨ ∃ file, GetFileByID env (fileID r) = Val file ∧
          (Range r ≠ EmptyString ∧ Parse env (schemas.Size file) (Range r) = Err msg
           ∨ getParts env file = Ok (Err msg)))).
Proof.
  apply (GetFileStream_error_exits
           (sample_env false sample_file sample_parts (Err "unused"))
           {| Method := "GET"; Range := EmptyString; fileID := "g" |} 0).
  vm_compute. reflexivity.
Defined.

(** ** Paths and depths *)

Lemma count_nonneg (c : ascii) (s : string) : 0 ≤ count c s.
Proof. induction s as [|a s IH]; [done|]. cbn [count]. case_bool_decide; lia. Qed.

Lemma Split_length (s : string) (sep : ascii) : len (Split s sep) = count sep s + 1.
Proof.
  induction s as [|a s IH]; [done|].
  pose proof (count_nonneg sep s).
  cbn [Split count]. case_bool_decide.
  - unfold len in *. cbn [length]. lia.
  - destruct (Split s sep) as [|piece pieces]; unfold len in *; cbn [length] in *; lia.
Qed.

Lemma count_app (c : ascii) (s t : string) : count c (s +:+ t) = count c s + count c t.
Proof.
  induction s as [|a s IH]; [done|].
  simpl. rewrite IH. lia.
Qed.

(** X14.  The path and the depth of a new folder.  When [CreateFile]
    creates a folder, the row it hands to the data base has the MIME type
    drive/folder and the path [parent/name], or [/name] when the parent
    path is [/], where [parent] is the path of the payload without its outer
    white space.  Its depth is the number of slashes of that path: one more
    than the parent path has (the root counting as none), plus the slashes
    of the name, which the handler does not refuse. *)
Theorem CreateFile_folder_depth (lib : Lib) (db : Db) (ch : Z) (c : gin_Context)
    (fileIn : FileIn.t) (out : FileOut.t) :
  ShouldBindJSON_FileIn c = Val fileIn → FileIn.Type_ fileIn = "folder" →
  CreateFile lib db ch c = Ok (Success out) →
  let parent := TrimSpace lib (FileIn.Path fileIn) in
  ∃ fileDb created,
    Create db fileDb = Val created ∧ out = mapFileToFileOut created ∧
    File.MimeType fileDb = "drive/folder" ∧
    File.Path fileDb
    = (if bool_decide (parent = "/") then "/" +:+ FileIn.Name fileIn
       else parent +:+ "/" +:+ FileIn.Name fileIn) ∧
    File.Depth fileDb = Some (count "/" (File.Path fileDb)) ∧
    File.Depth fileDb
    = Some ((if bool_decide (parent = "/") then 0 else count "/" parent)
            + 1 + count "/" (FileIn.Name fileIn)).
Proof.
  intros Hbind Htype. unfold CreateFile. rewrite Hbind.
  destruct (getAuthUserId lib c) as [userId|]; cbn [mbind result_bind]; [|done].
  cbv zeta. cbn [FileIn.Path FileIn.Type_ FileIn.Name FileIn.set_Path FileIn.set_ParentID].
  set (parent := TrimSpace lib (FileIn.Path fileIn)).
  destruct (bool_decide (parent ≠ EmptyString));
    [destruct (First_folder db parent) as [dir| |]; [|done..]|].
  all: cbn [FileIn.Path FileIn.Type_ FileIn.Name FileIn.set_Path FileIn.set_ParentID
            FileIn.set_MimeType].
  all: rewrite (bool_decide_eq_true_2 _ Htype).
  all: match goal with
       | |- context [Create ?d ?f] => destruct (Create d f) as [created|] eqn:Hcreate
       end; [|done].
  all: intros [= <-]; eexists _, created; split; [exact Hcreate|]; split; [done|].
  all: cbn.
  all: split; [done|]; split; [done|].
  all: rewrite Split_length; split; [f_equal; lia|].
  all: case_bool_decide; rewrite !count_app; cbn [count];
    rewrite ?bool_decide_eq_true_2 by done; f_equal; lia.
Qed.

Lemma CreateFile_folder_depth_witness :
  let db := sample_db [] in
  let fileIn := sample_payload "b" "folder" " /a " in
  let out := mapFileToFileOut
               (sample_stored "n1" 2
                  {| File.ID := EmptyString; File.Name := "b"; File.Type_ := "folder";
                     File.MimeType := "drive/folder"; File.Path := "/a/b"; File.Size := 12;
                     File.Starred := Some false; File.Depth := Some 2; File.UserID := 7;
                     File.ParentID := "d1"; File.Parts := Some [1; 2];
                     File.ChannelID := None; File.Status := "active";
                     File.UpdatedAt := 0 |}) in
  let parent := TrimSpace sample_lib (FileIn.Path fileIn) in
  ∃ fileDb created,
    Create db fileDb = Val created ∧ out = mapFileToFileOut created ∧
    File.MimeType fileDb = "drive/folder" ∧
    File.Path fileDb
    = (if bool_decide (parent = "/") then "/" +:+ FileIn.Name fileIn
       else parent +:+ "/" +:+ FileIn.Name fileIn) ∧
    File.Depth fileDb = Some (count "/" (File.Path fileDb)) ∧
    File.Depth fileDb
    = Some ((if bool_decide (parent = "/") then 0 else count "/" parent)
            + 1 + count "/" (FileIn.Name fileIn)).
Proof.
  apply (CreateFile_folder_depth sample_lib (sample_db []) 55
           (sample_context (Val (sample_payload "b" "folder" " /a ")) (Err "none")
              2 "name" "asc" "list")).
  - reflexivity.
  - reflexivity.
  - vm_compute. reflexivity.
Defined.

(** X15.  What a client cannot choose when it creates an entry.  Whatever
    the payload says, the row that [CreateFile] hands to the data base has
    an empty id, the user id of the authenticated user, is not starred and
    has the status active; name, size and parts are those of the payload.
    With a parent path the parent id is the id of the folder found at that
    path; with an empty one it is the parent id of the payload, unchecked.
    A file gets the empty path and the channel of the service; any other
    entry keeps the channel of the payload. *)
Theorem CreateFile_server_fields (lib : Lib) (db : Db) (ch : Z) (c : gin_Context)
    (fileIn : FileIn.t) (out : FileOut.t) :
  ShouldBindJSON_FileIn c = Val fileIn →
  CreateFile lib db ch c = Ok (Success out) →
  let parent := TrimSpace lib (FileIn.Path fileIn) in
  ∃ userId fileDb created,
    getAuthUserId lib c = Ok userId ∧
    Create db fileDb = Val created ∧ out = mapFileToFileOut created ∧
    File.ID fileDb = EmptyString ∧
    File.UserID fileDb = userId ∧
    File.Starred fileDb = Some false ∧
    File.Status fileDb = "active" ∧
    File.Name fileDb = FileIn.Name fileIn ∧
    File.Size fileDb = FileIn.Size fileIn ∧
    File.Parts fileDb = FileIn.Parts fileIn ∧
    (if bool_decide (parent = EmptyString)
     then File.ParentID fileDb = FileIn.ParentID fileIn
     else ∃ dir, First_folder db parent = Found dir ∧ File.ParentID fileDb = File.ID dir) ∧
    (FileIn.Type_ fileIn = "file" →
     File.Path fileDb = EmptyString ∧ File.ChannelID fileDb = Some ch) ∧
    (FileIn.Type_ fileIn ≠ "file" → File.ChannelID fileDb = FileIn.ChannelID fileIn).
Proof.
  intros Hbind. unfold CreateFile. rewrite Hbind.
  destruct (getAuthUserId lib c) as [userId|]; cbn [mbind result_bind]; [|done].
  cbv zeta. cbn [FileIn.Path FileIn.Type_ FileIn.Name FileIn.set_Path FileIn.set_ParentID].
  set (parent := TrimSpace lib (FileIn.Path fileIn)).
  destruct (decide (parent = EmptyString)) as [Hroot|Hroot].
  - rewrite (bool_decide_eq_false_2 (parent ≠ EmptyString)) by (by intros []).
    rewrite (bool_decide_eq_true_2 _ Hroot).
    match goal with
    | |- context [Create ?d ?f] => destruct (Create d f) as [created|] eqn:Hcreate
    end; [|done].
    intros [= <-]. eexists userId, _, created.
    split; [done|]. split; [exact Hcreate|]. split; [done|].
    repeat case_bool_decide; cbn in *; repeat split; try done; intros; congruence.
  - rewrite (bool_decide_eq_true_2 (parent ≠ EmptyString)) by done.
    rewrite (bool_decide_eq_false_2 _ Hroot).
    destruct (First_folder db parent) as [dir| |] eqn:Hdir; [|done..].
    match goal with
    | |- context [Create ?d ?f] => destruct (Create d f) as [created|] eqn:Hcreate
    end; [|done].
    intros [= <-]. eexists userId, _, created.
    split; [done|]. split; [exact Hcreate|]. split; [done|].
    repeat case_bool_decide; cbn in *; repeat split; try done;
      try (by eexists); intros; congruence.
Qed.

Lemma CreateFile_server_fields_witness :
  let db := sample_db [] in
  let c := sample_context (Val (sample_payload "b.txt" "file" "/a")) (Err "none")
             2 "name" "asc" "list" in
  let fileIn := sample_payload "b.txt" "file" "/a" in
  let out := mapFileToFileOut
               (sample_stored "n1" 2
                  {| File.ID := EmptyString; File.Name := "b.txt"; File.Type_ := "file";
                     File.MimeType := "text/plain"; File.Path := EmptyString;
                     File.Size := 12; File.Starred := Some false; File.Depth := None;
                     File.UserID := 7; File.ParentID := "d1"; File.Parts := Some [1; 2];
                     File.ChannelID := Some 55; File.Status := "active";
                     File.UpdatedAt := 0 |}) in
  let parent := TrimSpace sample_lib (FileIn.Path fileIn) in
  ∃ userId fileDb created,
    getAuthUserId sample_lib c = Ok userId ∧
    Create db fileDb = Val created ∧ out = mapFileToFileOut created ∧
    File.ID fileDb = EmptyString ∧
    File.UserID fileDb = userId ∧
    File.Starred fileDb = Some false ∧
    File.Status fileDb = "active" ∧
    File.Name fileDb = FileIn.Name fileIn ∧
    File.Size fileDb = FileIn.Size fileIn ∧
    File.Parts fileDb = FileIn.Parts fileIn ∧
    (if bool_decide (parent = EmptyString)
     then File.ParentID fileDb = FileIn.ParentID fileIn
     else ∃ dir, First_folder db parent = Found dir ∧ File.ParentID fileDb = File.ID dir) ∧
    (FileIn.Type_ fileIn = "file" →
     File.Path fileDb = EmptyString ∧ File.ChannelID fileDb = Some 55) ∧
    (FileIn.Type_ fileIn ≠ "file" → File.ChannelID fileDb = FileIn.ChannelID fileIn).
Proof.
  apply (CreateFile_server_fields sample_lib (sample_db []) 55
           (sample_context (Val (sample_payload "b.txt" "file" "/a")) (Err "none")
              2 "name" "asc" "list")).
  - reflexivity.
  - vm_compute. reflexivity.
Defined.

(** ** Updating and moving *)

(** X16.  Renaming a folder.  An update whose payload has the type folder
    and a name goes to the stored function [update_folder] with the id of
    the file and that name, and with nothing else: two such payloads with
    the same name get the same answer, whatever their other fields.  The
    handler answers with the first row that the function returns. *)
Theorem UpdateFile_folder_rename (db : Db) (c c' : gin_Context)
    (fileUpdate fileUpdate' : FileIn.t) :
  Param_fileID c' = Param_fileID c →
  ShouldBindJSON_FileIn c = Val fileUpdate →
  ShouldBindJSON_FileIn c' = Val fileUpdate' →
  FileIn.Type_ fileUpdate = "folder" → FileIn.Type_ fileUpdate' = "folder" →
  FileIn.Name fileUpdate ≠ EmptyString →
  FileIn.Name fileUpdate' = FileIn.Name fileUpdate →
  UpdateFile db c' = UpdateFile db c ∧
  (∀ out, UpdateFile db c = Success out →
     ∃ file files,
       update_folder db (Param_fileID c) (FileIn.Name fileUpdate) = Val (file :: files) ∧
       out = mapFileToFileOut file).
Proof.
  intros Hid Hbind Hbind' Htype Htype' Hname Hname'.
  unfold UpdateFile. rewrite Hid, Hbind, Hbind', Htype, Htype', Hname'.
  rewrite !bool_decide_eq_true_2 by done. cbn [andb].
  split; [done|]. intros out.
  destruct (update_folder db _ _) as [[|file files]|]; [done| |done].
  intros [= <-]. by eexists _, _.
Qed.

Lemma UpdateFile_folder_rename_witness :
  let db := sample_db [] in
  let fileUpdate := sample_payload "docs" "folder" "/a" in
  let c := sample_context (Val fileUpdate) (Err "none") 2 "name" "asc" "list" in
  let c' := sample_context (Val (sample_payload "docs" "folder" "/elsewhere"))
              (Err "none") 2 "name" "asc" "list" in
  UpdateFile db c' = UpdateFile db c ∧
  (∀ out, UpdateFile db c = Success out →
     ∃ file files,
       update_folder db (Param_fileID c) (FileIn.Name fileUpdate) = Val (file :: files) ∧
       out = mapFileToFileOut file).
Proof.
  apply (UpdateFile_folder_rename (sample_db [])
           (sample_context (Val (sample_payload "docs" "folder" "/a")) (Err "none")
              2 "name" "asc" "list")
           (sample_context (Val (sample_payload "docs" "folder" "/elsewhere")) (Err "none")
              2 "name" "asc" "list")
           (sample_payload "docs" "folder" "/a")
           (sample_payload "docs" "folder" "/elsewhere")).
  - reflexivity.
  - reflexivity.
  - reflexivity.
  - reflexivity.
  - reflexivity.
  - discriminate.
  - reflexivity.
Defined.

(** X17.  The look-up of the destination of a move.  [MoveFiles] answers
    404 exactly when the look-up fails with [gorm.ErrRecordNotFound].  Any
    other failure of the look-up is not looked at: the files are then
    re-parented all the same, to the empty id that [destination] still
    holds, and the handler reports success when that update succeeds.  With
    the destination found the files get its id as their parent. *)
Theorem MoveFiles_lookup_error (db : Db) (c : gin_Context) (payload : FileOperation.t) :
  ShouldBindJSON_FileOperation c = Val payload →
  (MoveFiles db c = Failure (AppError.mk "destination not found" StatusNotFound) ↔
   First_path db (FileOperation.Destination payload) = ErrRecordNotFound) ∧
  (∀ msg, First_path db (FileOperation.Destination payload) = ErrOther msg →
     MoveFiles db c
     = match UpdateColumn db (FileOperation.Files payload) EmptyString with
       | Err _ => Failure (AppError.mk "move failed" StatusInternalServerError)
       | Val _ => Success (Message_.mk true "files moved")
       end) ∧
  (∀ destination, First_path db (FileOperation.Destination payload) = Found destination →
     MoveFiles db c
     = match UpdateColumn db (FileOperation.Files payload) (File.ID destination) with
       | Err _ => Failure (AppError.mk "move failed" StatusInternalServerError)
       | Val _ => Success (Message_.mk true "files moved")
       end).
Proof.
  intros Hbind. unfold MoveFiles. rewrite Hbind.
  split; [|split].
  - destruct (First_path db _) as [destination| |msg]; [|done|].
    all: split; [|done].
    all: by destruct (UpdateColumn db _ _).
  - by intros msg ->.
  - by intros destination ->.
Qed.

Lemma MoveFiles_lookup_error_witness :
  let db := sample_db [] in
  let payload := FileOperation.mk ["f1"; "f2"] "/down" in
  let c := sample_context (Err "none") (Val payload) 2 "name" "asc" "list" in
  (MoveFiles db c = Failure (AppError.mk "destination not found" StatusNotFound) ↔
   First_path db (FileOperation.Destination payload) = ErrRecordNotFound) ∧
  (∀ msg, First_path db (FileOperation.Destination payload) = ErrOther msg →
     MoveFiles db c
     = match UpdateColumn db (FileOperation.Files payload) EmptyString with
       | Err _ => Failure (AppError.mk "move failed" StatusInternalServerError)
       | Val _ => Success (Message_.mk true "files moved")
       end) ∧
  (∀ destination, First_path db (FileOperation.Destination payload) = Found destination →
     MoveFiles db c
     = match UpdateColumn db (FileOperation.Files payload) (File.ID destination) with
       | Err _ => Failure (AppError.mk "move failed" StatusInternalServerError)
       | Val _ => Success (Message_.mk true "files moved")
       end).
Proof.
  apply (MoveFiles_lookup_error (sample_db [])
           (sample_context (Err "none") (Val (FileOperation.mk ["f1"; "f2"] "/down"))
              2 "name" "asc" "list")
           (FileOperation.mk ["f1"; "f2"] "/down")).
  reflexivity.
Defined.

(** ** Paging *)

(** X18.  [setOrderFilter] keeps the filters it is given, in order, and
    adds at most one at their end; it adds one exactly when the page token
    is not empty and is valid base64.  A token that does not decode is
    passed over in silence. *)
Theorem setOrderFilter_appends (lib : Lib) (pagingParams : PaginationQuery.t)
    (sortingParams : SortingQuery.t) (filters : list string) :
  filters `prefix_of` setOrderFilter lib pagingParams sortingParams filters ∧
  (length (setOrderFilter lib pagingParams sortingParams filters) ≤ S (length filters))%nat ∧
  (setOrderFilter lib pagingParams sortingParams filters ≠ filters ↔
   PaginationQuery.NextPageToken pagingParams ≠ EmptyString ∧
   ∃ tokenValue,
     DecodeString lib (PaginationQuery.NextPageToken pagingParams) = Val tokenValue).
Proof.
  unfold setOrderFilter.
  assert (Hmore : ∀ x : string, filters ++ [x] ≠ filters).
  { intros x Heq. apply (f_equal length) in Heq. rewrite length_app in Heq.
    simpl in Heq. lia. }
  case_bool_decide as Htoken.
  - destruct (DecodeString lib _) as [tokenValue|err] eqn:Hdecode.
    + case_bool_decide; (split; [by apply prefix_app_r|]);
        (split; [rewrite length_app; simpl; lia|]);
        (split; [intros _; split; [done|by eexists]|intros _; apply Hmore]).
    + split; [done|]. split; [lia|]. split; [done|]. by intros [_ [? ?]].
  - split; [done|]. split; [lia|]. split; [done|]. by intros [? _].
Qed.

(** X19.  The page filter compares the column that the listing is sorted
    by.  For the same sorting parameters [getOrder] and [setOrderFilter] use
    one and the same column, [name collate numeric] for the sort key name
    and the snake-case form of the sort key otherwise; the filter reads
    [column > 'value'] for the order asc and [column < 'value'] for any
    other order, with the decoded token as the value, unescaped. *)
Theorem getOrder_setOrderFilter_column (lib : Lib) (pagingParams : PaginationQuery.t)
    (sortingParams : SortingQuery.t) (filters : list string) (tokenValue : string) :
  PaginationQuery.NextPageToken pagingParams ≠ EmptyString →
  DecodeString lib (PaginationQuery.NextPageToken pagingParams) = Val tokenValue →
  ∃ sortColumn,
    getOrder lib sortingParams
    = sortColumn +:+ " " +:+ ToUpper lib (SortingQuery.Order sortingParams) ∧
    setOrderFilter lib pagingParams sortingParams filters
    = filters ++ [sortColumn
                  +:+ (if bool_decide (SortingQuery.Order sortingParams = "asc")
                       then " > '" else " < '")
                  +:+ tokenValue +:+ "'"] ∧
    sortColumn = (if bool_decide (SortingQuery.Sort sortingParams = "name")
                  then "name collate numeric"
                  else CamelToSnake lib (SortingQuery.Sort sortingParams)).
Proof.
  intros Htoken Hdecode. unfold getOrder, setOrderFilter.
  rewrite (bool_decide_eq_true_2 _ Htoken), Hdecode.
  eexists. split; [reflexivity|]. split; [|reflexivity].
  by repeat case_bool_decide.
Qed.

Lemma getOrder_setOrderFilter_column_witness :
  let pagingParams := PaginationQuery.mk 2 "YmV0YQ==" in
  let sortingParams := SortingQuery.mk "updatedAt" "desc" in
  ∃ sortColumn,
    getOrder sample_lib sortingParams
    = sortColumn +:+ " " +:+ ToUpper sample_lib (SortingQuery.Order sortingParams) ∧
    setOrderFilter sample_lib pagingParams sortingParams ["starred = true"]
    = ["starred = true"]
      ++ [sortColumn
          +:+ (if bool_decide (SortingQuery.Order sortingParams = "asc")
               then " > '" else " < '")
          +:+ "beta" +:+ "'"] ∧
    sortColumn = (if bool_decide (SortingQuery.Sort sortingParams = "name")
                  then "name collate numeric"
                  else CamelToSnake sample_lib (SortingQuery.Sort sortingParams)).
Proof.
  apply (getOrder_setOrderFilter_column sample_lib (PaginationQuery.mk 2 "YmV0YQ==")
           (SortingQuery.mk "updatedAt" "desc") ["starred = true"] "beta").
  - discriminate.
  - vm_compute. reflexivity.
Defined.

(** ** Listing *)

(** X20.  The page token of a listing.  For a request whose three
    bindings succeed and whose query is built: a page that is not full
    carries an empty token; a token that is not empty comes with a full
    page of at least one row and is the base64 form of the sort field of
    the last row; and with [perPage] zero and no row found the handler
    takes the last element of an empty slice and panics. *)
Theorem ListFiles_next_page_token (lib : Lib) (db : Db) (c : gin_Context) (userId : Z)
    (pagingParams : PaginationQuery.t) (sortingParams : SortingQuery.t)
    (fileQuery : FileQuery.t) (query : Query) :
  getAuthUserId lib c = Ok userId →
  ShouldBindQuery_Pagination c (PaginationQuery.mk 200 EmptyString) = Val pagingParams →
  ShouldBindQuery_Sorting c (SortingQuery.mk "name" "asc") = Val sortingParams →
  ShouldBindQuery_File c (FileQuery.mk "list" "active" userId EmptyString EmptyString)
  = Val fileQuery →
  ListFiles_query lib userId pagingParams sortingParams fileQuery = Val query →
  let results := Find db query in
  let PerPage := PaginationQuery.PerPage pagingParams in
  (results = [] → PerPage = 0 → ListFiles lib db c = Panic index_out_of_range) ∧
  (len results ≠ PerPage →
   ListFiles lib db c = Ok (Success (FileResponse.mk results EmptyString))) ∧
  (∀ res, ListFiles lib db c = Ok (Success res) →
     FileResponse.Results res = results ∧
     (FileResponse.NextPageToken res ≠ EmptyString →
      len results = PerPage ∧ 0 < PerPage ∧
      ∃ lastItem token,
        last results = Some lastItem ∧
        GetField lib lastItem (CamelToPascalCase lib (SortingQuery.Sort sortingParams))
        = Ok token ∧
        FileResponse.NextPageToken res = EncodeToString lib token)).
Proof.
  intros Huser Hpaging Hsorting Hfile Hquery results PerPage.
  unfold ListFiles. rewrite Huser. cbn [mbind result_bind].
  rewrite Hpaging, Hsorting, Hfile, Hquery. cbv zeta. fold results PerPage.
  split; [|split].
  - intros Hnil Hzero. rewrite Hnil, Hzero. done.
  - intros Hlen. by rewrite (bool_decide_eq_false_2 _ Hlen).
  - intros res. case_bool_decide as Hlen; cbn [mbind result_bind].
    2: { intros [= <-]. split; [done|]. by intros []. }
    destruct (index results (len results - 1)) as [lastItem|] eqn:Hlast;
      cbn [mbind result_bind]; [|done].
    destruct (GetField lib lastItem _) as [token|] eqn:Hfield;
      cbn [mbind result_bind]; [|done].
    intros [= <-]. split; [done|]. intros _. split; [done|].
    unfold index in Hlast. case_bool_decide as Hpos; [|done].
    destruct (results !! Z.to_nat (len results - 1)) as [item|] eqn:Hitem; [|done].
    injection Hlast as ->.
    pose proof (lookup_lt_Some _ _ _ Hitem) as Hlt.
    split; [unfold len in *; lia|].
    exists lastItem, token. split; [|done].
    rewrite last_lookup. rewrite <- Hitem. f_equal. unfold len. lia.
Qed.

Lemma ListFiles_next_page_token_witness :
  let db := sample_db sample_rows in
  let c := sample_context (Err "none") (Err "none") 2 "name" "asc" "list" in
  let query :=
    mkQuery 2 ["type DESC"; "name collate numeric ASC"]
      [Where_map {[ "user_id" := VInt 7; "status" := VString "active" ]};
       Where_parent_at "/a"; Where_sql EmptyString] in
  let results := Find db query in
  let PerPage := 2 in
  (results = [] → PerPage = 0 → ListFiles sample_lib db c = Panic index_out_of_range) ∧
  (len results ≠ PerPage →
   ListFiles sample_lib db c = Ok (Success (FileResponse.mk results EmptyString))) ∧
  (∀ res, ListFiles sample_lib db c = Ok (Success res) →
     FileResponse.Results res = results ∧
     (FileResponse.NextPageToken res ≠ EmptyString →
      len results = PerPage ∧ 0 < PerPage ∧
      ∃ lastItem token,
        last results = Some lastItem ∧
        GetField sample_lib lastItem
          (CamelToPascalCase sample_lib (SortingQuery.Sort (SortingQuery.mk "name" "asc")))
        = Ok token ∧
        FileResponse.NextPageToken res = EncodeToString sample_lib token)).
Proof.
  apply (ListFiles_next_page_token sample_lib (sample_db sample_rows)
           (sample_context (Err "none") (Err "none") 2 "name" "asc" "list") 7
           (PaginationQuery.mk 2 EmptyString) (SortingQuery.mk "name" "asc")
           (FileQuery.mk "list" "active" 7 "/a" "report")).
  - reflexivity.
  - reflexivity.
  - reflexivity.
  - reflexivity.
  - reflexivity.
Defined.

(** X21.  The page token goes round.  When [ListFiles] answers with a
    token that is not empty and base64 decodes what it encoded for the last
    row, [setOrderFilter], given that token and the same sorting
    parameters, adds the filter that compares the sort column with the
    sort field of the last row of the page: [>] for the order asc, [<]
    otherwise. *)
Theorem ListFiles_token_round_trip (lib : Lib) (db : Db) (c : gin_Context)
    (sortingParams : SortingQuery.t) (res : FileResponse.t)
    (PerPage : Z) (filters : list string) :
  ShouldBindQuery_Sorting c (SortingQuery.mk "name" "asc") = Val sortingParams →
  ListFiles lib db c = Ok (Success res) →
  FileResponse.NextPageToken res ≠ EmptyString →
  (∀ lastItem token,
     last (FileResponse.Results res) = Some lastItem →
     GetField lib lastItem (CamelToPascalCase lib (SortingQuery.Sort sortingParams))
     = Ok token →
     DecodeString lib (EncodeToString lib token) = Val token) →
  ∃ lastItem token,
    last (FileResponse.Results res) = Some lastItem ∧
    GetField lib lastItem (CamelToPascalCase lib (SortingQuery.Sort sortingParams))
    = Ok token ∧
    setOrderFilter lib (PaginationQuery.mk PerPage (FileResponse.NextPageToken res))
      sortingParams filters
    = filters ++ [(if bool_decide (SortingQuery.Sort sortingParams = "name")
                   then "name collate numeric"
                   else CamelToSnake lib (SortingQuery.Sort sortingParams))
                  +:+ (if bool_decide (SortingQuery.Order sortingParams = "asc")
                       then " > '" else " < '")
                  +:+ token +:+ "'"].
Proof.
  intros Hsorting Hrun Htoken Hcodec. revert Hrun. unfold ListFiles.
  destruct (getAuthUserId lib c) as [userId|]; cbn [mbind result_bind]; [|done].
  destruct (ShouldBindQuery_Pagination c _) as [pagingParams|]; [|done].
  rewrite Hsorting.
  destruct (ShouldBindQuery_File c _) as [fileQuery|]; [|done].
  destruct (ListFiles_query lib userId pagingParams sortingParams fileQuery)
    as [query|]; [|done].
  cbv zeta. case_bool_decide as Hlen; cbn [mbind result_bind].
  2: { intros [= <-]. done. }
  destruct (index (Find db query) (len (Find db query) - 1)) as [lastItem|] eqn:Hlast;
    cbn [mbind result_bind]; [|done].
  destruct (GetField lib lastItem _) as [token|] eqn:Hfield;
    cbn [mbind result_bind]; [|done].
  intros [= <-]. cbn [FileResponse.Results FileResponse.NextPageToken] in *.
  assert (Hitem : last (Find db query) = Some lastItem).
  { unfold index in Hlast. case_bool_decide as Hpos; [|done].
    destruct (Find db query !! Z.to_nat (len (Find db query) - 1)) as [item|] eqn:Hitem;
      [|done].
    injection Hlast as ->. rewrite last_lookup, <- Hitem. f_equal. unfold len. lia. }
  exists lastItem, token. split; [done|]. split; [done|].
  unfold setOrderFilter. cbn [PaginationQuery.NextPageToken].
  rewrite (bool_decide_eq_true_2 _ Htoken), (Hcodec lastItem token Hitem Hfield).
  by repeat case_bool_decide.
Qed.

Lemma ListFiles_token_round_trip_witness :
  let sortingParams := SortingQuery.mk "name" "asc" in
  let res := FileResponse.mk [sample_row "f1" "alpha" 10; sample_row "f2" "beta" 20]
               "YmV0YQ==" in
  ∃ lastItem token,
    last (FileResponse.Results res) = Some lastItem ∧
    GetField sample_lib lastItem
      (CamelToPascalCase sample_lib (SortingQuery.Sort sortingParams))
    = Ok token ∧
    setOrderFilter sample_lib (PaginationQuery.mk 2 (FileResponse.NextPageToken res))
      sortingParams []
    = [] ++ [(if bool_decide (SortingQuery.Sort sortingParams = "name")
              then "name collate numeric"
              else CamelToSnake sample_lib (SortingQuery.Sort sortingParams))
             +:+ (if bool_decide (SortingQuery.Order sortingParams = "asc")
                  then " > '" else " < '")
             +:+ token +:+ "'"].
Proof.
  apply (ListFiles_token_round_trip sample_lib (sample_db sample_rows)
           (sample_context (Err "none") (Err "none") 2 "name" "asc" "list")).
  - reflexivity.
  - vm_compute. reflexivity.
  - discriminate.
  - intros lastItem token Hlast Hfield.
    injection Hlast as <-. injection Hfield as <-.
    vm_compute. reflexivity.
Defined.

